(** * vg_to_roidb_vrr: a shallow embedding of the ROIDB encoder

    The development follows [data_tools/vg_to_roidb_vrr.py].  Python
    dictionaries with a fixed key set become records (optional keys are
    [option] fields), dictionaries used as maps become [gmap]s, numpy
    [int32] storage is written with its wrap-around, and a raised
    exception is the left summand of [result].

    Floating point.  The script computes three quantities in binary64:
    the IoU ratio, the scale factor of [encode_box] and the column means
    of [merge_duplicate_boxes].  A float is embedded as the rational it
    denotes, and every operation that rounds goes through a function [fl]
    that the definitions take as a parameter.  An integer too large for
    binary64 raises [OverflowError] where the script converts it, and a
    product that overflows is an infinity: its floor or ceiling raises
    [OverflowError] and a comparison with it is decided by its sign.  The
    statements about the values computed hold for every [fl] that
    satisfies [float_model]; the statement that [encode_box] returns
    assumes [binary64], the error bound of rounding to nearest, on inputs
    bounded away from overflow.  [no_rounding] is the instance used to
    evaluate examples, on inputs where binary64 is exact too. *)

From Stdlib Require Import ZArith QArith Qround Qabs Lia Lqa String Ascii List.
From stdpp Require Import base gmap list strings sorting.

Local Open Scope Z_scope.
Set Warnings "-clear-no-such-hyp".

(** ** Exceptions and the error monad *)

Inductive exn : Type :=
| IndexError
| KeyError
| TypeError
| ValueError
| AssertionError
| ZeroDivisionError
| UnicodeDecodeError
| OverflowError.

Definition result (A : Type) : Type := (exn + A)%type.

Definition raise {A : Type} (e : exn) : result A := inl e.

#[global] Instance result_ret : MRet result := λ A a, inr a.
#[global] Instance result_bind : MBind result := λ A B f m,
  match m with
  | inl e => inl e
  | inr a => f a
  end.

(** [for a in l: s = body(s, a)] with exceptions propagating. *)
Fixpoint for_each {S A : Type} (body : S → A → result S) (l : list A) (s : S)
  : result S :=
  match l with
  | [] => mret s
  | a :: l' => s' ← body s a; for_each body l' s'
  end.

(** [d[k]] on a dictionary: [KeyError] when the key is absent. *)
Definition getitem `{Countable K} {V : Type} (d : gmap K V) (k : K) : result V :=
  match d !! k with
  | Some v => mret v
  | None => raise KeyError
  end.

(** [l[i]] on a list or array with a non-negative index. *)
Definition getindex {A : Type} (l : list A) (i : nat) : result A :=
  match l !! i with
  | Some v => mret v
  | None => raise IndexError
  end.

(** Reading a key of a record-like dictionary that may be absent. *)
Definition getkey {A : Type} (field : option A) : result A :=
  match field with
  | Some v => mret v
  | None => raise KeyError
  end.

(** Storage into a numpy [int32] cell. *)
Definition int32 (z : Z) : Z := (z + 2 ^ 31) mod 2 ^ 32 - 2 ^ 31.

(** ** Floating point *)

(** What is assumed of the rounding [fl] of a real number to binary64 (the
    standard model, away from overflow and underflow): equal numbers round
    equally, an integer of magnitude up to 2^53 is represented exactly, and
    a positive number rounds to a positive number. *)
Record float_model (fl : Q → Q) : Prop := FloatModel {
  fl_proper : ∀ p q, (p == q)%Q → (fl p == fl q)%Q;
  fl_int : ∀ z : Z, Z.abs z ≤ 2 ^ 53 → (fl (inject_Z z) == inject_Z z)%Q;
  fl_pos : ∀ q, (0 < q)%Q → (0 < fl q)%Q;
}.

Definition no_rounding : Q → Q := λ q, q.

(** The magnitude from which a number has no finite binary64 value:
    2^1024 - 2^970, half a unit in the last place above the largest one.
    An integer of that magnitude is not converted ([OverflowError]: int too
    large to convert to float), and a float operation whose exact result has
    that magnitude gives an infinity. *)
Definition float_limit : Z := 2 ^ 1024 - 2 ^ 970.

Definition overflows (q : Q) : bool :=
  Qle_bool (inject_Z float_limit) (Qabs q).

(** What the statements that a float computation returns assume of [fl]:
    the two facts hold of rounding to the nearest binary64 value.  An
    integer of magnitude up to 2^53 is represented exactly, and in the
    normal range, magnitudes from 2^-1022 to 2^1023, the error is at most
    2^-53 of the magnitude. *)
Record binary64 (fl : Q → Q) : Prop := Binary64 {
  b64_int : ∀ z : Z, Z.abs z ≤ 2 ^ 53 → (fl (inject_Z z) == inject_Z z)%Q;
  b64_normal : ∀ q, (1 # 2 ^ 1022 <= Qabs q)%Q →
                    (Qabs q <= inject_Z (2 ^ 1023))%Q →
                    (Qabs (fl q - q) <= Qabs q * (1 # 2 ^ 53))%Q;
}.

(** [int(f)]: truncation towards zero. *)
Definition Qtrunc (q : Q) : Z := Z.quot (Qnum q) (Zpos (Qden q)).

(** [a > b] on floats. *)
Definition Qgtb (a b : Q) : bool := negb (Qle_bool a b).

(** ** Vocabulary Builder: [build_token_dict] *)

(** Python compares byte strings lexicographically by byte value. *)
Definition str_le (s1 s2 : string) : Prop := String.leb s1 s2 = true.
Definition str_lt (s1 s2 : string) : Prop := String.ltb s1 s2 = true.

#[global] Instance str_le_dec s1 s2 : Decision (str_le s1 s2).
Proof. unfold str_le. apply _. Defined.
#[global] Instance str_lt_dec s1 s2 : Decision (str_lt s1 s2).
Proof. unfold str_lt. apply _. Defined.

(** [sorted(list(vocab))]; Python's sort is a stable merge sort. *)
Definition sorted (l : list string) : list string := merge_sort str_le l.

(** The loop body of [build_token_dict]: the state is
    [(token_to_idx, idx_to_token, next_idx)]. *)
Definition token_dict_step
    (st : gmap string Z * gmap Z string * Z) (token : string)
  : gmap string Z * gmap Z string * Z :=
  let '(token_to_idx, idx_to_token, next_idx) := st in
  (<[token := next_idx]> token_to_idx,
   <[next_idx := token]> idx_to_token,
   next_idx + 1).

(** [vocab_list] is [list(vocab)]: the elements of the set in the order in
    which the interpreter happens to iterate over it. *)
Definition build_token_dict (vocab_list : list string)
  : gmap string Z * gmap Z string :=
  let vocab_sorted := sorted vocab_list in
  let '(token_to_idx, idx_to_token, _) :=
    foldl token_dict_step (∅, ∅, 1) vocab_sorted in
  (token_to_idx, idx_to_token).

(** Number of tokens of the set that are strictly below [t]. *)
Definition rank (vocab : gset string) (t : string) : Z :=
  Z.of_nat (length (filter (λ s, str_lt s t) (elements vocab))).

(** ** Data model *)

(** A numpy array of four entries, [b[0]] .. [b[3]]. *)
Record vec4 (A : Type) : Type := Vec4 { v0 : A; v1 : A; v2 : A; v3 : A }.
Arguments Vec4 {A} _ _ _ _.
Arguments v0 {A} _.
Arguments v1 {A} _.
Arguments v2 {A} _.
Arguments v3 {A} _.

(** An object dictionary.  The keys ['x'], ['y'], ['w'], ['h'],
    ['object_id'] and ['names'] come from ingestion; ['ids'], ['M_TYPE'] and
    ['mobjs'] are attached later, so they may be absent ([None]).  The value
    stored under ['mobjs'] is either a list of objects or Python's [None]. *)
Module Obj.
#[warnings="-register-all"]
Inductive obj : Type := mk {
  x : Z;
  y : Z;
  w : Z;
  h : Z;
  object_id : Z;
  names : list string;
  ids : option (list Z);
  M_TYPE : option Z;
  mobjs : option (option (list obj));
}.

Definition set_M_TYPE (o : obj) (t : Z) : obj :=
  mk (x o) (y o) (w o) (h o) (object_id o) (names o) (ids o) (Some t) (mobjs o).

Definition set_mobjs (o : obj) (m : option (list obj)) : obj :=
  mk (x o) (y o) (w o) (h o) (object_id o) (names o) (ids o) (M_TYPE o) (Some m).
End Obj.
Abbreviation obj := Obj.obj.

(** A relationship dictionary: [subject_id] is
    [relation['subject']['object_id']], [object_id] is
    [relation['object']['object_id']]. *)
Module Rel.
Record relation : Type := mk {
  subject_id : Z;
  object_id : Z;
  predicate : string;
}.
End Rel.
Abbreviation relation := Rel.relation.

(** An entry of [obj_data]; ['id_to_idx'] is attached by [encode_objects]. *)
Record obj_image : Type := ObjImage {
  image_id : Z;
  objects : list obj;
  id_to_idx : option (gmap Z Z);
}.

(** An entry of [rel_data]. *)
Record rel_image : Type := RelImage {
  rel_image_id : Z;
  relationships : list relation;
}.

(** ** Box Geometry Encoder: [encode_box] *)

(** The clamping statements of [encode_box], lines 213-224, on the scaled
    position and extent. *)
Definition clamp_box (image_size x y w h : Z) : Z * Z * Z * Z :=
  let x := if x <? 0 then 0 else x in
  let y := if y <? 0 then 0 else y in
  let x := if x >? image_size - 2 then image_size - 2 else x in
  let y := if y >? image_size - 2 then image_size - 2 else y in
  let w := if x + w >=? image_size then image_size - x else w in
  let h := if y + h >=? image_size then image_size - y else h in
  (x, y, w, h).

(** The conversion to centre coordinates, the [int32] array and the two
    assertions, lines 227-230. *)
Definition center_box (xywh : Z * Z * Z * Z) : result (vec4 Z) :=
  let '(x, y, w, h) := xywh in
  let box := Vec4 (int32 (x + w / 2)) (int32 (y + h / 2)) (int32 w) (int32 h) in
  if negb (v2 box >? 0) then raise AssertionError
  else if negb (v3 box >? 0) then raise AssertionError
  else mret box.

Section float64.
Variable fl : Q → Q.

(** The float of an integer that has one. *)
Definition float (z : Z) : Q := fl (inject_Z z).

(** [float(z)], and the conversion of an integer operand of a float
    operation: [OverflowError] when the integer is too large. *)
Definition to_float (z : Z) : result Q :=
  if overflows (inject_Z z) then raise OverflowError else mret (float z).

(** [math.floor(a * z)] and [math.ceil(a * z)] for a float [a] and an
    integer [z]: the integer is converted, the product is rounded, and the
    floor or ceiling of a product that has overflowed to an infinity raises
    [OverflowError], the result being an integer. *)
Definition floor_times (a : Q) (z : Z) : result Z :=
  b ← to_float z;
  if overflows (a * b) then raise OverflowError
  else mret (Qfloor (fl (a * b))).

Definition ceil_times (a : Q) (z : Z) : result Z :=
  b ← to_float z;
  if overflows (a * b) then raise OverflowError
  else mret (Qceiling (fl (a * b))).

(** The scaled position and extent, lines 206-210. *)
Definition scale_box (region : obj) (org_h org_w im_long_size : Z)
  : result (Z * Z * Z * Z) :=
  s ← to_float im_long_size;
  m ← to_float (Z.max org_h org_w);
  if Z.max org_h org_w =? 0 then raise ZeroDivisionError
  else
    let scale : Q := fl (s / m)%Q in
    x ← floor_times scale (Obj.x region - 1);
    y ← floor_times scale (Obj.y region - 1);
    w ← ceil_times scale (Obj.w region);
    h ← ceil_times scale (Obj.h region);
    mret (x, y, w, h).

(** The locals [x, y, w, h] of [encode_box] when line 227 is reached. *)
Definition encode_box_clamped (region : obj) (org_h org_w im_long_size : Z)
  : result (Z * Z * Z * Z) :=
  '(x, y, w, h) ← scale_box region org_h org_w im_long_size;
  mret (clamp_box im_long_size x y w h).

Definition encode_box (region : obj) (org_h org_w im_long_size : Z)
  : result (vec4 Z) :=
  xywh ← encode_box_clamped region org_h org_w im_long_size;
  center_box xywh.

(** ** Object Index Encoder: [encode_objects] *)

(** Lines 247-253: the label of one object.  The state of the loop is
    [(obj_label, max_occur)]. *)
Definition pick_label_step (token_to_idx token_counter : gmap string Z)
    (st : option string * Z) (name : string) : result (option string * Z) :=
  let '(obj_label, max_occur) := st in
  if decide (is_Some (token_to_idx !! name)) then
    c ← getitem token_counter name;
    if c >? max_occur then mret (Some name, c) else mret (obj_label, max_occur)
  else mret (obj_label, max_occur).

Definition pick_label (token_to_idx token_counter : gmap string Z)
    (names : list string) : result (option string) :=
  st ← for_each (pick_label_step token_to_idx token_counter) names (None, 0);
  mret (fst st).

(** The variables that the loops of [encode_objects] update. *)
Record obj_enc : Type := ObjEnc {
  encoded_labels : list Z;
  encoded_boxes : gmap Z (list (vec4 Z));
  im_to_first_obj : list Z;
  im_to_last_obj : list Z;
  obj_counter : Z;
  obj_data_out : list obj_image;
}.

(** Lines 257-258, one size:
    [encoded_boxes[size].append(encode_box(obj, org_h[i], org_w[i], size))]. *)
Definition append_box (o : obj) (org_h org_w : list Z) (i : nat)
    (boxes : gmap Z (list (vec4 Z))) (size : Z)
  : result (gmap Z (list (vec4 Z))) :=
  l ← getitem boxes size;
  oh ← getindex org_h i;
  ow ← getindex org_w i;
  b ← encode_box o oh ow size;
  mret (<[size := l ++ [b]]> boxes).

(** Lines 246-265: the body of [for obj in img['objects']].  The state is
    [(encoded_labels, encoded_boxes, id_to_idx, obj_counter)]. *)
Definition encode_object (token_to_idx token_counter : gmap string Z)
    (org_h org_w : list Z) (i : nat) (im_long_sizes : list Z)
    (st : list Z * gmap Z (list (vec4 Z)) * gmap Z Z * Z) (o : obj)
  : result (list Z * gmap Z (list (vec4 Z)) * gmap Z Z * Z) :=
  let '(labels, boxes, table, counter) := st in
  obj_label ← pick_label token_to_idx token_counter (Obj.names o);
  match obj_label with
  | None => mret st
  | Some name =>
      boxes' ← for_each (append_box o org_h org_w i) im_long_sizes boxes;
      idx ← getitem token_to_idx name;
      obj_ids ← getkey (Obj.ids o);
      let table' := foldl (λ t obj_id, <[obj_id := counter]> t) table obj_ids in
      mret (labels ++ [idx], boxes', table', counter + 1)
  end.

(** Lines 243-272: the body of [for i, img in enumerate(obj_data)]. *)
Definition encode_objects_image (token_to_idx token_counter : gmap string Z)
    (org_h org_w : list Z) (im_long_sizes : list Z)
    (st : obj_enc) (iimg : nat * obj_image) : result obj_enc :=
  let '(i, img) := iimg in
  let first := <[i := int32 (obj_counter st)]> (im_to_first_obj st) in
  '(labels, boxes, table, counter) ←
    for_each
      (encode_object token_to_idx token_counter org_h org_w i im_long_sizes)
      (objects img)
      (encoded_labels st, encoded_boxes st, ∅, obj_counter st);
  let img' := ObjImage (image_id img) (objects img) (Some table) in
  first_i ← getindex first i;
  let '(first', last') :=
    if first_i =? counter
    then (<[i := int32 (-1)]> first, <[i := int32 (-1)]> (im_to_last_obj st))
    else (first, <[i := int32 (counter - 1)]> (im_to_last_obj st)) in
  mret (ObjEnc labels boxes first' last' counter (<[i := img']> (obj_data_out st))).

(** [np.vstack] of a Python list: [ValueError] when the list is empty. *)
Definition vstack {A : Type} (l : list A) : result (list A) :=
  match l with
  | [] => raise ValueError
  | _ => mret l
  end.

Definition encode_objects (obj_data : list obj_image)
    (token_to_idx token_counter : gmap string Z)
    (org_h org_w : list Z) (im_long_sizes : list Z) : result obj_enc :=
  let n := length obj_data in
  let boxes0 := foldl (λ b size, <[size := []]> b) ∅ im_long_sizes in
  let st0 := ObjEnc [] boxes0 (replicate n 0) (replicate n 0) 0 obj_data in
  st ← for_each
         (encode_objects_image token_to_idx token_counter org_h org_w
            im_long_sizes)
         (imap pair obj_data) st0;
  _ ← for_each (λ (_ : unit) kb, _ ← vstack (snd kb); mret tt)
        (map_to_list (encoded_boxes st)) tt;
  _ ← vstack (encoded_labels st);
  mret st.

(** ** Relationship Index Encoder: [encode_relationships] *)

(** Lines 280-284. *)
Definition encode_relationship (sub_id obj_id : Z) (table : gmap Z Z)
  : result (Z * Z) :=
  sub_idx ← getitem table sub_id;
  obj_idx ← getitem table obj_id;
  mret (int32 sub_idx, int32 obj_idx).

(** The variables that the loops of [encode_relationships] update; the
    three [_filtered] counters and [no_rel_counter] are the printed
    diagnostics. *)
Record rel_enc : Type := RelEnc {
  encoded_pred : list Z;
  encoded_rel : list (Z * Z);
  im_to_first_rel : list Z;
  im_to_last_rel : list Z;
  rel_idx_counter : Z;
  no_rel_counter : Z;
  obj_filtered : Z;
  predicate_filtered : Z;
  duplicate_filtered : Z;
}.

(** Lines 303-322: the body of [for relation in img['relationships']].  The
    state is [(encoded_pred, encoded_rel, rel_idx_counter, obj_filtered,
    predicate_filtered, duplicate_filtered)]. *)
Definition encode_relation (token_to_idx : gmap string Z) (table : gmap Z Z)
    (st : list Z * list (Z * Z) * Z * Z * Z * Z) (r : relation)
  : result (list Z * list (Z * Z) * Z * Z * Z * Z) :=
  let '(preds, rels, counter, objf, predf, dupf) := st in
  let subj := Rel.subject_id r in
  let obj := Rel.object_id r in
  let predicate := Rel.predicate r in
  if decide (table !! subj = None ∨ table !! obj = None) then
    mret (preds, rels, counter, objf + 1, predf, dupf)
  else if decide (token_to_idx !! predicate = None) then
    mret (preds, rels, counter, objf, predf + 1, dupf)
  else
    sub_idx ← getitem table subj;
    obj_idx ← getitem table obj;
    if sub_idx =? obj_idx then
      mret (preds, rels, counter, objf, predf, dupf + 1)
    else
      p ← getitem token_to_idx predicate;
      pair ← encode_relationship subj obj table;
      mret (preds ++ [p], rels ++ [pair], counter + 1, objf, predf, dupf).

(** Lines 300-330: the body of [for i, img in enumerate(rel_data)]. *)
Definition encode_relationships_image (token_to_idx : gmap string Z)
    (obj_data : list obj_image) (st : rel_enc) (iimg : nat * rel_image)
  : result rel_enc :=
  let '(i, img) := iimg in
  let first := <[i := int32 (rel_idx_counter st)]> (im_to_first_rel st) in
  oimg ← getindex obj_data i;
  table ← getkey (id_to_idx oimg);
  '(preds, rels, counter, objf, predf, dupf) ←
    for_each (encode_relation token_to_idx table) (relationships img)
      (encoded_pred st, encoded_rel st, rel_idx_counter st,
       obj_filtered st, predicate_filtered st, duplicate_filtered st);
  first_i ← getindex first i;
  if first_i =? counter then
    mret (RelEnc preds rels (<[i := int32 (-1)]> first)
            (<[i := int32 (-1)]> (im_to_last_rel st)) counter
            (no_rel_counter st + 1) objf predf dupf)
  else
    mret (RelEnc preds rels first
            (<[i := int32 (counter - 1)]> (im_to_last_rel st)) counter
            (no_rel_counter st) objf predf dupf).

Definition encode_relationships (rel_data : list rel_image)
    (token_to_idx : gmap string Z) (obj_data : list obj_image)
  : result rel_enc :=
  let n := length rel_data in
  let st0 := RelEnc [] [] (replicate n 0) (replicate n 0) 0 0 0 0 0 in
  st ← for_each (encode_relationships_image token_to_idx obj_data)
         (imap pair rel_data) st0;
  _ ← vstack (encoded_pred st);
  _ ← vstack (encoded_rel st);
  mret st.

(** ** Box Merge Engine: [merge_duplicate_boxes] *)

(** Lines 101-106; the array has dtype [int32]. *)
Definition to_x1y1x2y2 (o : obj) : vec4 Z :=
  Vec4 (int32 (Obj.x o)) (int32 (Obj.y o))
       (int32 (Obj.x o + Obj.w o)) (int32 (Obj.y o + Obj.h o)).

Definition vec4_eqb (b1 b2 : vec4 Z) : bool :=
  (v0 b1 =? v0 b2) && (v1 b1 =? v1 b2) && (v2 b1 =? v2 b2) && (v3 b1 =? v3 b2).

(** Lines 87-99.  The differences and products are [int32] scalar
    operations; the quotient is a division of Python floats. *)
Definition IoU (b1 b2 : vec4 Z) : result Q :=
  if (v2 b1 <=? v0 b2) || (v3 b1 <=? v1 b2)
     || (v0 b1 >=? v2 b2) || (v1 b1 >=? v3 b2)
  then mret 0%Q
  else
    let minc := Vec4 (Z.min (v0 b1) (v0 b2)) (Z.min (v1 b1) (v1 b2))
                     (Z.min (v2 b1) (v2 b2)) (Z.min (v3 b1) (v3 b2)) in
    let maxc := Vec4 (Z.max (v0 b1) (v0 b2)) (Z.max (v1 b1) (v1 b2))
                     (Z.max (v2 b1) (v2 b2)) (Z.max (v3 b1) (v3 b2)) in
    let union_area :=
      int32 (int32 (v2 maxc - v0 minc) * int32 (v3 maxc - v1 minc)) in
    let int_area :=
      int32 (int32 (v2 minc - v0 maxc) * int32 (v3 minc - v1 maxc)) in
    if union_area =? 0 then raise ZeroDivisionError
    else mret (fl (float int_area / float union_area))%Q.

(** Lines 108-110. *)
Definition inside (b1 b2 : vec4 Z) : bool :=
  (v0 b1 >=? v0 b2) && (v1 b1 >=? v1 b2)
  && (v2 b1 <=? v2 b2) && (v3 b1 <=? v3 b2).

(** [obj1['names'][0] == obj2['names'][0]]. *)
Definition same_primary_name (obj1 obj2 : obj) : result bool :=
  n1 ← getindex (Obj.names obj1) 0;
  n2 ← getindex (Obj.names obj2) 0;
  mret (bool_decide (n1 = n2)).

(** Lines 112-124; [and] evaluates its right operand only when the left
    one holds. *)
Definition overlap (obj1 obj2 : obj) : result Z :=
  let b1 := to_x1y1x2y2 obj1 in
  let b2 := to_x1y1x2y2 obj2 in
  iou ← IoU b1 b2;
  if vec4_eqb b1 b2 || Qgtb iou (fl (9 # 10)) then mret 1
  else
    contained ← (if inside b1 b2 || inside b2 b1
                 then same_primary_name obj1 obj2 else mret false);
    if (contained : bool) then mret 2
    else
      twice ← (if Qgtb iou (fl (6 # 10))
               then same_primary_name obj1 obj2 else mret false);
      if (twice : bool) then mret 3 else mret 0.

(** Lines 137-142: the body of [for j in range(i+1, num_obj)].  The state is
    [(objs, merged_objs)]; the entry appended to [merged_objs] is [objs[j]]
    as it is from then on, since a marked object is never written again. *)
Definition mark_step (i : nat) (st : list obj * list obj) (j : nat)
  : result (list obj * list obj) :=
  let '(objs, merged_objs) := st in
  oj ← getindex objs j;
  if decide (is_Some (Obj.M_TYPE oj)) then mret st
  else
    oi ← getindex objs i;
    overlap_type ← overlap oi oj;
    if overlap_type >? 0 then
      let oj' := Obj.set_M_TYPE oj overlap_type in
      mret (<[j := oj']> objs, merged_objs ++ [oj'])
    else mret st.

(** Lines 133-143: the body of [for i in range(num_obj)]. *)
Definition mark_seed (num_obj : nat) (objs : list obj) (i : nat)
  : result (list obj) :=
  oi ← getindex objs i;
  if decide (is_Some (Obj.M_TYPE oi)) then mret objs
  else
    '(objs', merged_objs) ←
      for_each (mark_step i) (seq (S i) (num_obj - S i)) (objs, []);
    oi' ← getindex objs' i;
    mret (<[i := Obj.set_mobjs oi' (Some merged_objs)]> objs').

Definition mark_objects (objs : list obj) : result (list obj) :=
  for_each (mark_seed (length objs)) (seq 0 (length objs)) objs.

(** Lines 154-158: the body of [for mo in obj['mobjs']].  The state is
    [(ids, names, dims, prominent_type)]. *)
Definition absorb (st : list Z * list string * list (vec4 Z) * Z) (mo : obj)
  : result (list Z * list string * list (vec4 Z) * Z) :=
  let '(ids, names, dims, prominent_type) := st in
  t ← getkey (Obj.M_TYPE mo);
  mret (ids ++ [Obj.object_id mo], names ++ Obj.names mo,
        dims ++ [to_x1y1x2y2 mo],
        if t >? prominent_type then t else prominent_type).

(** [np.min] and [np.max] of a column. *)
Definition minimum (l : list Z) : Z :=
  match l with
  | [] => 0
  | a :: l' => foldl Z.min a l'
  end.

Definition maximum (l : list Z) : Z :=
  match l with
  | [] => 0
  | a :: l' => foldl Z.max a l'
  end.

(** [np.mean] of a column of an [int32] array: the sum, which a binary64
    accumulator holds exactly, divided by the number of rows. *)
Definition mean (l : list Z) : Q :=
  let total := foldr Z.add 0 l in
  let n := Z.of_nat (length l) in
  fl (inject_Z total / inject_Z n)%Q.

(** Lines 161-166. *)
Definition merged_dims (prominent_type : Z) (dims : list (vec4 Z)) : vec4 Q :=
  if prominent_type >? 1 then
    Vec4 (inject_Z (minimum (v0 <$> dims))) (inject_Z (minimum (v1 <$> dims)))
         (inject_Z (maximum (v2 <$> dims))) (inject_Z (maximum (v3 <$> dims)))
  else
    Vec4 (mean (v0 <$> dims)) (mean (v1 <$> dims))
         (mean (v2 <$> dims)) (mean (v3 <$> dims)).

(** [list(set(names))]: the distinct names, in the order of the set. *)
Definition list_set (names : list string) : list string :=
  elements (list_to_set names : gset string).

(** Lines 149-179: the body of [for obj in objs].  The state is
    [(filtered_objs, merged_num_obj, num_merged)]. *)
Definition merge_object (st : list obj * Z * gmap Z Z) (o : obj)
  : result (list obj * Z * gmap Z Z) :=
  let '(filtered_objs, merged_num_obj, num_merged) := st in
  match Obj.M_TYPE o with
  | None =>
      m ← getkey (Obj.mobjs o);
      mos ← match m with
            | Some l => mret l
            | None => raise TypeError
            end;
      '(ids, names, dims, prominent_type) ←
        for_each absorb mos
          ([Obj.object_id o], Obj.names o, [to_x1y1x2y2 o], 1);
      let mdims := merged_dims prominent_type dims in
      n ← getitem num_merged prominent_type;
      let o' :=
        Obj.mk (Qtrunc (v0 mdims)) (Qtrunc (v1 mdims))
               (Qtrunc (fl (v2 mdims - v0 mdims)%Q))
               (Qtrunc (fl (v3 mdims - v1 mdims)%Q))
               (Obj.object_id o) (list_set names) (Some ids) None (Some None) in
      mret (filtered_objs ++ [o'],
            merged_num_obj + Z.of_nat (length ids),
            <[prominent_type := n + Z.of_nat (length mos)]> num_merged)
  | Some _ =>
      if decide (is_Some (Obj.mobjs o)) then raise AssertionError
      else mret st
  end.

(** Lines 130-182: the body of [for img in data]; it returns
    [img['objects']] and the updated [num_merged]. *)
Definition merge_image (num_merged : gmap Z Z) (objs : list obj)
  : result (list obj * gmap Z Z) :=
  let num_obj := length objs in
  objs1 ← mark_objects objs;
  '(filtered_objs, merged_num_obj, num_merged') ←
    for_each merge_object objs1 ([], 0, num_merged);
  if merged_num_obj =? Z.of_nat num_obj then mret (filtered_objs, num_merged')
  else raise AssertionError.

Definition merge_duplicate_boxes_step (st : list obj_image * gmap Z Z)
    (img : obj_image) : result (list obj_image * gmap Z Z) :=
  let '(done, num_merged) := st in
  '(filtered_objs, num_merged') ← merge_image num_merged (objects img);
  mret (done ++ [ObjImage (image_id img) filtered_objs (id_to_idx img)],
        num_merged').

Definition merge_duplicate_boxes (data : list obj_image)
  : result (list obj_image * gmap Z Z) :=
  for_each merge_duplicate_boxes_step data
    ([], <[1 := 0]> (<[2 := 0]> (<[3 := 0]> ∅))).

End float64.

(** ** Text Normalizer: [sentence_preprocess] *)

(** The script is Python 2: a text value is either a byte string ([str],
    here a [string] of bytes) or a [unicode] string, given by its code
    points (all below [0x110000]). *)
Inductive pytext : Type :=
| PyStr (s : string)
| PyUnicode (u : list N).

Fixpoint bytes (l : list N) : string :=
  match l with
  | [] => EmptyString
  | n :: l' => String (ascii_of_N n) (bytes l')
  end.

Fixpoint codes (s : string) : list N :=
  match s with
  | EmptyString => []
  | String a s' => N_of_ascii a :: codes s'
  end.

(** The UTF-8 encoding of one code point. *)
Definition utf8_encode_cp (c : N) : list N :=
  (if c <? 128 then [c]
   else if c <? 2048 then [192 + c / 64; 128 + c mod 64]
   else if c <? 65536 then
     [224 + c / 4096; 128 + (c / 64) mod 64; 128 + c mod 64]
   else
     [240 + (c / 262144) mod 8; 128 + (c / 4096) mod 64;
      128 + (c / 64) mod 64; 128 + c mod 64])%N.

(** [phrase.encode('utf-8')].  On a byte string Python 2 first decodes the
    bytes with the default codec, ASCII, which fails on any byte above 127. *)
Definition encode_utf8 (phrase : pytext) : result string :=
  match phrase with
  | PyUnicode u => mret (bytes (concat (utf8_encode_cp <$> u)))
  | PyStr s =>
      if forallb (λ b, b <? 128)%N (codes s) then mret s
      else raise UnicodeDecodeError
  end.

(** [s.lstrip(' ')] and [s.rstrip(' ')]. *)
Fixpoint lstrip (s : string) : string :=
  match s with
  | String a s' => if Ascii.eqb a " " then lstrip s' else s
  | EmptyString => EmptyString
  end.

Fixpoint rstrip (s : string) : string :=
  match s with
  | EmptyString => EmptyString
  | String a s' =>
      let r := rstrip s' in
      if Ascii.eqb a " " && String.eqb r EmptyString then EmptyString
      else String a r
  end.

(** [s.replace(k, v)] for a non-empty [k]: the occurrences are taken from
    the left and do not overlap; [skip] counts the bytes of a match that
    are still to be dropped. *)
Fixpoint replace_from (k v : string) (skip : nat) (s : string) : string :=
  match s with
  | EmptyString => EmptyString
  | String a s' =>
      match skip with
      | S n => replace_from k v n s'
      | O =>
          if String.prefix k s
          then (v ++ replace_from k v (String.length k - 1) s')%string
          else String a (replace_from k v 0 s')
      end
  end.

(** With an empty [k], [v] is inserted before every byte and at the end. *)
Fixpoint intersperse (v s : string) : string :=
  match s with
  | EmptyString => v
  | String a s' => (v ++ String a (intersperse v s'))%string
  end.

Definition replace (k v s : string) : string :=
  if String.eqb k EmptyString then intersperse v s else replace_from k v 0 s.

(** The dictionary [replacements], lines 342-353, keys as UTF-8 bytes. *)
Definition replacements : list (string * string) :=
  [ (bytes [194; 189]%N, "half");
    (bytes [226; 128; 148]%N, "-");
    (bytes [226; 132; 162]%N, "");
    (bytes [194; 162]%N, "cent");
    (bytes [195; 167]%N, "c");
    (bytes [195; 187]%N, "u");
    (bytes [195; 169]%N, "e");
    (bytes [194; 176]%N, " degree");
    (bytes [195; 168]%N, "e");
    (bytes [226; 128; 166]%N, "") ].

(** [s.lower()] on a byte string changes the letters [A]-[Z] only. *)
Definition lower_byte (b : N) : N :=
  (if (65 <=? b) && (b <=? 90) then b + 32 else b)%N.

(** Membership in [string.punctuation]. *)
Definition is_punctuation (b : N) : bool :=
  ((33 <=? b) && (b <=? 47) || (58 <=? b) && (b <=? 64)
   || (91 <=? b) && (b <=? 96) || (123 <=? b) && (b <=? 126))%N.

Definition is_continuation (b : N) : bool := ((128 <=? b) && (b <? 192))%N.

(** [s.decode('utf-8', 'ignore')]: a well-formed sequence gives its code
    point, and a byte that does not start one is dropped. *)
Fixpoint utf8_decode_ignore (s : list N) : list N :=
  match s with
  | [] => []
  | b0 :: s1 =>
      if (b0 <? 128)%N then b0 :: utf8_decode_ignore s1
      else
        match s1 with
        | [] => []
        | b1 :: s2 =>
            if ((194 <=? b0) && (b0 <? 224) && is_continuation b1)%N then
              ((b0 - 192) * 64 + (b1 - 128))%N :: utf8_decode_ignore s2
            else
              match s2 with
              | [] => utf8_decode_ignore s1
              | b2 :: s3 =>
                  if ((224 <=? b0) && (b0 <? 240) && is_continuation b1
                      && is_continuation b2
                      && negb ((b0 =? 224) && (b1 <? 160)))%N then
                    ((b0 - 224) * 4096 + (b1 - 128) * 64 + (b2 - 128))%N
                      :: utf8_decode_ignore s3
                  else
                    match s3 with
                    | [] => utf8_decode_ignore s1
                    | b3 :: s4 =>
                        if ((240 <=? b0) && (b0 <? 245) && is_continuation b1
                            && is_continuation b2 && is_continuation b3
                            && negb ((b0 =? 240) && (b1 <? 144))
                            && negb ((b0 =? 244) && (144 <=? b1)))%N then
                          ((b0 - 240) * 262144 + (b1 - 128) * 4096
                           + (b2 - 128) * 64 + (b3 - 128))%N
                            :: utf8_decode_ignore s4
                        else utf8_decode_ignore s1
                    end
              end
        end
  end.

(** Lines 354-358.  [items] is [replacements.iteritems()]: the entries of
    the dictionary in the interpreter's iteration order. *)
Definition sentence_preprocess (items : list (string * string))
    (phrase : pytext) : result (list N) :=
  phrase ← encode_utf8 phrase;
  let phrase := rstrip (lstrip phrase) in
  let phrase := foldl (λ p kv, replace (fst kv) (snd kv) p) phrase items in
  let lowered := lower_byte <$> codes phrase in
  let stripped := filter (λ b, is_punctuation b = false) lowered in
  mret (utf8_decode_ignore stripped).

(** ** Predicates used in the statements *)

(** A name is in the vocabulary. *)
Definition in_vocab (token_to_idx : gmap string Z) (name : string) : Prop :=
  is_Some (token_to_idx !! name).

(** Every token of the vocabulary has a positive count, as it has when
    both tables come from the vocabulary builder, which counts each token
    it keeps at least once. *)
Definition counts_positive (token_to_idx token_counter : gmap string Z) : Prop :=
  ∀ t, is_Some (token_to_idx !! t) →
       ∃ c, token_counter !! t = Some c ∧ 0 < c.

(** The rule of the Relationship Index Encoder as the specification words
    it: what becomes of one relationship, given the image's id-to-index
    table and the predicate vocabulary. *)
Inductive verdict : Type :=
| FilteredByObject
| FilteredByPredicate
| FilteredByDuplicate
| Emitted (pred_idx sub_idx obj_idx : Z).

#[global] Instance verdict_eq_dec : EqDecision verdict.
Proof. solve_decision. Defined.

Definition spec_verdict (token_to_idx : gmap string Z) (table : gmap Z Z)
    (r : relation) : verdict :=
  match table !! Rel.subject_id r, table !! Rel.object_id r with
  | Some s, Some o =>
      match token_to_idx !! Rel.predicate r with
      | None => FilteredByPredicate
      | Some p => if decide (s = o) then FilteredByDuplicate else Emitted p s o
      end
  | _, _ => FilteredByObject
  end.

(** The verdicts of a corpus, image after image; [tables] are the
    id-to-index tables of the images. *)
Definition spec_verdicts (token_to_idx : gmap string Z)
    (tables : list (gmap Z Z)) (rel_data : list rel_image) : list verdict :=
  concat (zip_with (λ table img, spec_verdict token_to_idx table
                                   <$> relationships img)
            tables rel_data).

Definition emitted_pred (v : verdict) : option Z :=
  match v with
  | Emitted p _ _ => Some p
  | _ => None
  end.

(** The pair as it is stored in the [int32] relationship array. *)
Definition emitted_pair (v : verdict) : option (Z * Z) :=
  match v with
  | Emitted _ s o => Some (int32 s, int32 o)
  | _ => None
  end.

Definition count_verdict (v : verdict) (vs : list verdict) : Z :=
  Z.of_nat (length (filter (λ v', v' = v) vs)).

(** The rows that a pair of CSR range arrays assigns to the images, in
    image order; an image with the sentinel has none. *)
Definition csr_rows (first last : list Z) : list Z :=
  concat (zip_with (λ f l, if (f =? -1) && (l =? -1) then []
                           else seqZ f (l - f + 1)) first last).

(** The CSR invariant over a flat array of [n] rows: one range per image;
    a range is the sentinel or runs from [first] up to [last]; a later
    range starts after an earlier one ends; and the ranges, in image order,
    enumerate the rows 0 .. n-1. *)
Definition csr_partition (images : nat) (first last : list Z) (n : Z) : Prop :=
  length first = images ∧ length last = images ∧
  (∀ (i : nat) f l, first !! i = Some f → last !! i = Some l →
     (f = -1 ∧ l = -1) ∨ (0 ≤ f ∧ f ≤ l ∧ l < n)) ∧
  (∀ (i j : nat) fi li fj lj, (i < j)%nat →
     first !! i = Some fi → last !! i = Some li →
     first !! j = Some fj → last !! j = Some lj →
     fi ≠ -1 → fj ≠ -1 → li < fj) ∧
  csr_rows first last = seqZ 0 n.

(** The counter after walking through a list of ranges from the counter
    [c]: a range must be the sentinel or start at the counter. *)
Fixpoint csr_end (c : Z) (ranges : list (Z * Z)) : option Z :=
  match ranges with
  | [] => Some c
  | (f, l) :: ranges' =>
      if (f =? -1) && (l =? -1) then csr_end c ranges'
      else if (f =? c) && (f <=? l) then csr_end (l + 1) ranges'
      else None
  end.

(** An object as ingestion leaves it: not marked as absorbed and without
    a list of partners. *)
Definition fresh (o : obj) : Prop := Obj.M_TYPE o = None ∧ Obj.mobjs o = None.

(** [len(obj['ids'])] is taken over this list. *)
Definition ids_of (o : obj) : list Z := default [] (Obj.ids o).



(** The rectangles that contribute to a merge group: the seed's, then the
    partners'. *)
Definition group_rects (seed : obj) (partners : list obj) : list (vec4 Z) :=
  to_x1y1x2y2 seed :: (to_x1y1x2y2 <$> partners).

(** Bookkeeping for the marking pass: the id that a marked object
    contributes, the ids that a seed has absorbed so far, and the id of an
    unmarked object. *)
Definition marked_id (o : obj) : list Z :=
  match Obj.M_TYPE o with
  | Some _ => [Obj.object_id o]
  | None => []
  end.

Definition absorbed_ids (o : obj) : list Z :=
  match Obj.M_TYPE o, Obj.mobjs o with
  | None, Some (Some l) => Obj.object_id <$> l
  | _, _ => []
  end.

Definition seed_id (o : obj) : list Z :=
  match Obj.M_TYPE o with
  | Some _ => []
  | None => [Obj.object_id o]
  end.

(** The largest category among the partners of a seed, and 1 without
    partners: [prominent_type] after the loop of lines 153-158. *)
Definition prominent (partners : list obj) : Z :=
  foldl (λ p mo, match Obj.M_TYPE mo with
                 | Some t => if t >? p then t else p
                 | None => p
                 end) 1 partners.

(** The object that the merge pass makes of a seed and its partners, in
    closed form (lines 150-175). *)
Definition merged_seed (fl : Q → Q) (seed : obj) (partners : list obj) : obj :=
  let mdims := merged_dims fl (prominent partners) (group_rects seed partners) in
  Obj.mk (Qtrunc (v0 mdims)) (Qtrunc (v1 mdims))
         (Qtrunc (fl (v2 mdims - v0 mdims)%Q))
         (Qtrunc (fl (v3 mdims - v1 mdims)%Q))
         (Obj.object_id seed)
         (list_set (Obj.names seed ++ concat (Obj.names <$> partners)))
         (Some (Obj.object_id seed :: (Obj.object_id <$> partners)))
         None (Some None).

(** What an object of the marked list leaves in the merged list. *)
Definition survivor (fl : Q → Q) (s : obj) : list obj :=
  match Obj.M_TYPE s, Obj.mobjs s with
  | None, Some (Some l) => [merged_seed fl s l]
  | _, _ => []
  end.

(** An object after the marking pass: marked and without a list, or a
    seed whose partners are all marked. *)
Definition settled (s : obj) : Prop :=
  (is_Some (Obj.M_TYPE s) ∧ Obj.mobjs s = None) ∨
  (Obj.M_TYPE s = None ∧
   ∃ l, Obj.mobjs s = Some (Some l) ∧ Forall (λ mo, is_Some (Obj.M_TYPE mo)) l).

(** What the marking pass can have made of an object [o] of the input
    [orig]: nothing yet; a partner absorbed by [seed] with category [t]; or
    a seed with its list of partners, each an object of the input as it was
    marked with the category that [overlap] gave for it. *)
Inductive slot (fl : Q → Q) (orig : list obj) (o : obj) : obj → Prop :=
| slot_untouched : slot fl orig o o
| slot_absorbed seed t :
    seed ∈ orig → overlap fl seed o = inr t → 0 < t →
    slot fl orig o (Obj.set_M_TYPE o t)
| slot_seed l :
    Forall (λ mo, ∃ oj t, oj ∈ orig ∧ overlap fl o oj = inr t ∧ 0 < t
                          ∧ mo = Obj.set_M_TYPE oj t) l →
    slot fl orig o (Obj.set_mobjs o (Some l)).

(** The state of the marking pass before the outer iteration [i]. *)
Record mark_inv (fl : Q → Q) (orig : list obj) (i : nat) (S : list obj)
  : Prop := MarkInv {
  mark_slots : Forall2 (slot fl orig) orig S;
  mark_below : ∀ (k : nat) s, S !! k = Some s → (k < i)%nat →
                 Obj.M_TYPE s = None → ∃ l, Obj.mobjs s = Some (Some l);
  mark_above : ∀ (k : nat) s, S !! k = Some s → (i ≤ k)%nat →
                 Obj.mobjs s = None;
  mark_perm : concat (marked_id <$> S) ≡ₚ concat (absorbed_ids <$> S);
}.

(** The state of the inner loop of the seed [i]. *)
Record inner_inv (fl : Q → Q) (orig : list obj) (i : nat) (oi : obj)
    (S : list obj) (merged : list obj) : Prop := InnerInv {
  inner_slots : Forall2 (slot fl orig) orig S;
  inner_below : ∀ (k : nat) s, S !! k = Some s → (k < i)%nat →
                  Obj.M_TYPE s = None → ∃ l, Obj.mobjs s = Some (Some l);
  inner_above : ∀ (k : nat) s, S !! k = Some s → (i ≤ k)%nat →
                  Obj.mobjs s = None;
  inner_seed : S !! i = Some oi ∧ orig !! i = Some oi;
  inner_merged :
    Forall (λ mo, ∃ oj t, oj ∈ orig ∧ overlap fl oi oj = inr t ∧ 0 < t
                          ∧ mo = Obj.set_M_TYPE oj t) merged;
  inner_perm : concat (marked_id <$> S)
               ≡ₚ concat (absorbed_ids <$> S) ++ (Obj.object_id <$> merged);
}.

(** An object on which [overlap] cannot raise: it has a name, and its
    corners are small enough for the [int32] areas not to wrap. *)
Definition regular (o : obj) : Prop :=
  Obj.names o ≠ [] ∧
  Z.abs (Obj.x o) ≤ 2 ^ 14 ∧ Z.abs (Obj.y o) ≤ 2 ^ 14 ∧
  Z.abs (Obj.x o + Obj.w o) ≤ 2 ^ 14 ∧ Z.abs (Obj.y o + Obj.h o) ≤ 2 ^ 14.

(** The counter dictionary [num_merged] has its three keys. *)
Definition has_keys (num_merged : gmap Z Z) : Prop :=
  is_Some (num_merged !! 1) ∧ is_Some (num_merged !! 2)
  ∧ is_Some (num_merged !! 3).

(** ** Vocabulary extraction: [extract_object_token],
    [extract_predicate_token] *)

(** [token_counter.update([name])] on a [Counter]: a missing key counts
    as 0. *)
Definition counter_update (token_counter : gmap string Z) (name : string)
  : gmap string Z :=
  <[name := default 0 (token_counter !! name) + 1]> token_counter.

(** Lines 51-52 and 72-73: [if not obj_list or name in obj_list]. *)
Definition count_token (obj_list : list string) (token_counter : gmap string Z)
    (name : string) : gmap string Z :=
  if bool_decide (obj_list = []) || bool_decide (name ∈ obj_list)
  then counter_update token_counter name
  else token_counter.

(** The order of [most_common]: larger counts first. *)
Definition count_ge (a b : string * Z) : Prop := snd b ≤ snd a.

#[global] Instance count_ge_dec a b : Decision (count_ge a b).
Proof. unfold count_ge. apply _. Defined.

Section iteration_order.
(** [iteritems d] stands for the entries of a dictionary in the order in
    which the interpreter iterates over it. *)
Variable iteritems : gmap string Z → list (string * Z).

(** [Counter.most_common()]: the entries sorted by decreasing count with
    Python's stable sort. *)
Definition most_common (token_counter : gmap string Z) : list (string * Z) :=
  merge_sort count_ge (iteritems token_counter).

(** Lines 53-58 and 75-79. *)
Definition collect_tokens (token_counter : gmap string Z)
  : gset string * gmap string Z :=
  foldl (λ (st : gset string * gmap string Z) (tc : string * Z),
           ({[fst tc]} ∪ fst st, <[fst tc := snd tc]> (snd st)))
    (∅, ∅) (most_common token_counter).

(** Lines 45-62. *)
Definition extract_object_token (data : list obj_image)
    (obj_list : list string) : gset string * gmap string Z :=
  let token_counter :=
    foldl (λ c img,
             foldl (λ c region, foldl (count_token obj_list) c (Obj.names region))
               c (objects img))
      ∅ data in
  collect_tokens token_counter.

(** Lines 65-83; [total] is counted and not used. *)
Definition extract_predicate_token (data : list rel_image)
    (pred_list : list string) : gset string * gmap string Z :=
  let '(token_counter, total) :=
    foldl (λ st img,
             foldl (λ (st : gmap string Z * Z) relation,
                      (count_token pred_list (fst st) (Rel.predicate relation),
                       snd st + 1))
               st (relationships img))
      (∅, 0) data in
  collect_tokens token_counter.

End iteration_order.

(** The names of all objects of a corpus, in the order of the loops. *)
Definition all_names (data : list obj_image) : list string :=
  concat (Obj.names <$> concat (objects <$> data)).

Definition all_predicates (data : list rel_image) : list string :=
  Rel.predicate <$> concat (relationships <$> data).

(** The names that pass the list of tokens; an empty list accepts
    every name. *)
Definition accepted (obj_list : list string) (names : list string)
  : list string :=
  filter (λ n, obj_list = [] ∨ n ∈ obj_list) names.

(** How often [t] occurs in [names]. *)
Definition occurrences (t : string) (names : list string) : Z :=
  Z.of_nat (length (filter (λ n, n = t) names)).

(** The iteration order of a dictionary is some order of its entries. *)
Definition dict_order (iteritems : gmap string Z → list (string * Z)) : Prop :=
  ∀ d, iteritems d ≡ₚ map_to_list d.

(** ** Split encoder: [encode_splits] *)

(** The dictionary [opt] of a portion split. *)
Record split_opt : Type := SplitOpt {
  val_begin_idx : Z;
  test_begin_idx : Z;
  shuffle : bool;
}.

(** Lines 367-374: the split index of the entry [i]; [info_split] is the
    value under ['split'] of the entry, if it has that key. *)
Definition split_index (opt : option split_opt) (i : nat)
    (info_split : option string) : result Z :=
  match opt with
  | None =>
      s ← getkey info_split;
      let splitix := 0 in
      let splitix := if String.eqb s "val" then 1 else splitix in
      let splitix := if String.eqb s "test" then 2 else splitix in
      mret splitix
  | Some o =>
      let splitix := 0 in
      let splitix := if Z.of_nat i >=? val_begin_idx o then 1 else splitix in
      let splitix := if Z.of_nat i >=? test_begin_idx o then 2 else splitix in
      mret splitix
  end.

Section shuffle.
(** [np.random.shuffle], as the function that the generator's state makes
    of it at the call. *)
Variable random_shuffle : list Z → list Z.

(** Lines 361-380; an entry of [obj_data] is given by what the function
    reads of it, the value under ['split']. *)
Definition encode_splits (obj_data : list (option string))
    (opt : option split_opt) : result (list Z) :=
  split ← for_each
             (λ split (iinfo : nat * option string),
                splitix ← split_index opt (fst iinfo) (snd iinfo);
                mret (<[fst iinfo := int32 splitix]> split))
             (imap pair obj_data) (replicate (length obj_data) 0);
  match opt with
  | Some o => if shuffle o then mret (random_shuffle split) else mret split
  | None => mret split
  end.

End shuffle.

Section split_options.
Variable fl : Q → Q.


End split_options.

(** The split index that the input file gives. *)
Definition split_code (s : string) : Z :=
  if String.eqb s "test" then 2 else if String.eqb s "val" then 1 else 0.

(** The split index of position [i] in a portion split. *)
Definition portion_code (o : split_opt) (i : nat) : Z :=
  if Z.of_nat i >=? test_begin_idx o then 2
  else if Z.of_nat i >=? val_begin_idx o then 1 else 0.

(** ** Object synchronisation: [sync_objects], [obj_rel_cross_check] *)

Section sync.
(** The keys of an object dictionary that the two functions neither read
    nor write are carried along as a value of type [R]. *)
Variable R : Type.

(** An object dictionary, in the object list of an image or as the
    subject or object of a relationship: the two functions read
    ['object_id'] and ['name'] and write ['names']. *)
Record entity : Type := Entity {
  ent_object_id : Z;
  ent_name : option string;
  ent_names : option (list string);
  ent_rest : R;
}.

Record sync_relation : Type := SyncRelation {
  rel_subject : entity;
  rel_object : entity;
}.

Record sync_obj_image : Type := SyncObjImage {
  so_image_id : Z;
  so_objects : list entity;
}.

Record sync_rel_image : Type := SyncRelImage {
  sr_image_id : Z;
  sr_relationships : list sync_relation;
}.

(** [rel_obj['names'] = [rel_obj['name']]]. *)
Definition set_names (rel_obj : entity) : result entity :=
  n ← getkey (ent_name rel_obj);
  mret (Entity (ent_object_id rel_obj) (ent_name rel_obj) (Some [n])
          (ent_rest rel_obj)).

(** Lines 458-461 and 462-465: one end of a relationship.  The dictionary
    that is appended to [objs] is the one that the relationship holds, so
    the relationship sees the new key too. *)
Definition sync_endpoint (ids : list Z) (objs : list entity) (rel_obj : entity)
  : result (list entity * entity) :=
  if bool_decide (ent_object_id rel_obj ∈ ids) then mret (objs, rel_obj)
  else
    rel_obj' ← set_names rel_obj;
    mret (objs ++ [rel_obj'], rel_obj').

(** Lines 457-465: the body of [for rel in rels]; the state is [objs] and
    the relationships as they are after the visit. *)
Definition sync_rel (ids : list Z) (st : list entity * list sync_relation)
    (rel : sync_relation) : result (list entity * list sync_relation) :=
  let '(objs, visited) := st in
  '(objs, subject) ← sync_endpoint ids objs (rel_subject rel);
  '(objs, object) ← sync_endpoint ids objs (rel_object rel);
  mret (objs, visited ++ [SyncRelation subject object]).

(** Lines 451-467: the body of [for i in xrange(num_img)]. *)
Definition sync_image (st : list sync_obj_image * list sync_rel_image)
    (i : nat) : result (list sync_obj_image * list sync_rel_image) :=
  let '(obj_data, rel_data) := st in
  oimg ← getindex obj_data i;
  rimg ← getindex rel_data i;
  if negb (so_image_id oimg =? sr_image_id rimg) then raise AssertionError
  else
    let objs := so_objects oimg in
    let rels := sr_relationships rimg in
    let ids := ent_object_id <$> objs in
    '(objs, rels) ← for_each (sync_rel ids) rels (objs, []);
    mret (<[i := SyncObjImage (so_image_id oimg) objs]> obj_data,
          <[i := SyncRelImage (sr_image_id rimg) rels]> rel_data).

(** Lines 449-467; the function returns nothing, its effect is on the two
    arguments. *)
Definition sync_objects (obj_data : list sync_obj_image)
    (rel_data : list sync_rel_image)
  : result (list sync_obj_image * list sync_rel_image) :=
  for_each sync_image (seq 0 (length obj_data)) (obj_data, rel_data).

(** Lines 436-445: the body of [for rel in rels]; the state is
    [(num_correct, total_rel)]. *)
Definition check_rel (ids : list Z) (st : Z * Z) (rel : sync_relation) : Z * Z :=
  let '(num_correct, total_rel) := st in
  let num_correct :=
    if bool_decide (ent_object_id (rel_subject rel) ∈ ids)
       && bool_decide (ent_object_id (rel_object rel) ∈ ids)
    then num_correct + 1 else num_correct in
  (num_correct, total_rel + 1).

(** Lines 431-445: the body of [for i in xrange(num_img)]. *)
Definition check_image (obj_data : list sync_obj_image)
    (rel_data : list sync_rel_image) (st : Z * Z) (i : nat) : result (Z * Z) :=
  oimg ← getindex obj_data i;
  rimg ← getindex rel_data i;
  if negb (so_image_id oimg =? sr_image_id rimg) then raise AssertionError
  else
    let ids := ent_object_id <$> so_objects oimg in
    mret (foldl (check_rel ids) st (sr_relationships rimg)).

(** Lines 423-446 with [verbose=False]; the result is the pair
    [(num_correct, total_rel)] that the function prints. *)
Definition obj_rel_cross_check (obj_data : list sync_obj_image)
    (rel_data : list sync_rel_image) : result (Z * Z) :=
  for_each (check_image obj_data rel_data) (seq 0 (length obj_data)) (0, 0).

(** The two ends of the relationships, in the order of the visits. *)
Definition endpoints (rels : list sync_relation) : list entity :=
  concat ((λ rel, [rel_subject rel; rel_object rel]) <$> rels).

(** The ends whose id is not in [ids]. *)
Definition missing (ids : list Z) (rels : list sync_relation) : list entity :=
  filter (λ e, ent_object_id e ∉ ids) (endpoints rels).

(** The entry that [sync_objects] makes of a missing end. *)
Definition named (e : entity) : entity :=
  Entity (ent_object_id e) (ent_name e)
    (Some (option_list (ent_name e))) (ent_rest e).

(** What [sync_objects] makes of a relationship. *)
Definition synced_rel (ids : list Z) (rel : sync_relation) : sync_relation :=
  SyncRelation
    (if bool_decide (ent_object_id (rel_subject rel) ∈ ids)
     then rel_subject rel else named (rel_subject rel))
    (if bool_decide (ent_object_id (rel_object rel) ∈ ids)
     then rel_object rel else named (rel_object rel)).

(** What [sync_objects] asks of an image: the two entries carry the same
    id and every missing end has a ['name']. *)
Definition sync_ok (oimg : sync_obj_image) (rimg : sync_rel_image) : Prop :=
  so_image_id oimg = sr_image_id rimg ∧
  Forall (λ e, is_Some (ent_name e))
    (missing (ent_object_id <$> so_objects oimg) (sr_relationships rimg)).

#[global] Instance sync_ok_dec oimg rimg : Decision (sync_ok oimg rimg).
Proof. unfold sync_ok. apply _. Defined.

(** What [sync_objects] makes of the two entries of an image. *)
Definition synced_obj_image (oimg : sync_obj_image) (rimg : sync_rel_image)
  : sync_obj_image :=
  SyncObjImage (so_image_id oimg)
    (so_objects oimg
     ++ (named <$> missing (ent_object_id <$> so_objects oimg)
                     (sr_relationships rimg))).

Definition synced_rel_image (oimg : sync_obj_image) (rimg : sync_rel_image)
  : sync_rel_image :=
  SyncRelImage (sr_image_id rimg)
    (synced_rel (ent_object_id <$> so_objects oimg) <$> sr_relationships rimg).

End sync.

Arguments Entity {R} _ _ _ _.
Arguments ent_object_id {R} _.
Arguments ent_name {R} _.
Arguments ent_names {R} _.
Arguments ent_rest {R} _.
Arguments SyncRelation {R} _ _.
Arguments rel_subject {R} _.
Arguments rel_object {R} _.
Arguments SyncObjImage {R} _ _.
Arguments so_image_id {R} _.
Arguments so_objects {R} _.
Arguments SyncRelImage {R} _ _.
Arguments sr_image_id {R} _.
Arguments sr_relationships {R} _.
Arguments set_names {R} _.
Arguments sync_endpoint {R} _ _ _.
Arguments sync_rel {R} _ _ _.
Arguments sync_image {R} _ _.
Arguments sync_objects {R} _ _.
Arguments check_rel {R} _ _ _.
Arguments check_image {R} _ _ _ _.
Arguments obj_rel_cross_check {R} _ _.
Arguments endpoints {R} _.
Arguments missing {R} _ _.
Arguments named {R} _.
Arguments synced_rel {R} _ _.
Arguments sync_ok {R} _ _.
Arguments synced_obj_image {R} _ _.
Arguments synced_rel_image {R} _ _.

(** ** Box filter: [filter_object_boxes], and [filter_by_idx] *)

Section box_filter.
Variable fl : Q → Q.
(** [times h w] is [heights[i]*widths[i]], the product of two entries of
    the arrays in their integer type. *)
Variable times : Z → Z → Z.

(** [a > area * area_frac_thresh] for a float [a], where [bound] is the
    exact value of the product on the right.  The product of two floats
    does not raise: beyond the largest binary64 value it is an infinity,
    above every float when positive and below every float when negative. *)
Definition gt_product (a bound : Q) : bool :=
  if overflows bound then Qle_bool bound 0 else Qgtb a (fl bound).

(** Line 411: [float(obj['h'] * obj['w']) > area * area_frac_thresh].  The
    area of the box is a Python integer, and [float] raises
    [OverflowError] when it is too large. *)
Definition keep_box (area area_frac_thresh : Q) (o : obj) : result bool :=
  box_area ← to_float fl (Obj.h o * Obj.w o);
  mret (gt_product box_area (area * area_frac_thresh)%Q).

(** Lines 410-414: the loop over the objects of an image. *)
Definition filter_objects (area area_frac_thresh : Q) (objs : list obj)
  : result (list obj) :=
  for_each (λ filtered_obj o,
              keep ← keep_box area area_frac_thresh o;
              mret (if keep : bool then filtered_obj ++ [o] else filtered_obj))
    objs [].

(** Lines 408-415: the body of [for i, img in enumerate(data)].  The state
    is [(data, thresh_count, all_count)]; the two counts are those of the
    objects appended and of the objects seen. *)
Definition filter_image (heights widths : list Z) (area_frac_thresh : Q)
    (st : list obj_image * Z * Z) (iimg : nat * obj_image)
  : result (list obj_image * Z * Z) :=
  let '(data, thresh_count, all_count) := st in
  let '(i, img) := iimg in
  h ← getindex heights i;
  w ← getindex widths i;
  area ← to_float fl (times h w);
  filtered_obj ← filter_objects area area_frac_thresh (objects img);
  mret (<[i := ObjImage (image_id img) filtered_obj (id_to_idx img)]> data,
        thresh_count + Z.of_nat (length filtered_obj),
        all_count + Z.of_nat (length (objects img))).

(** Lines 401-416; the result is the data as the function leaves it and
    the two counts that it prints. *)
Definition filter_object_boxes (data : list obj_image)
    (heights widths : list Z) (area_frac_thresh : Q)
  : result (list obj_image * Z * Z) :=
  for_each (filter_image heights widths area_frac_thresh)
    (imap pair data) (data, 0, 0).

End box_filter.

(** [data[i]] on a Python list: a negative index counts from the end. *)
Definition py_index {A : Type} (data : list A) (i : Z) : result A :=
  let n := Z.of_nat (length data) in
  if (0 <=? i) && (i <? n) then getindex data (Z.to_nat i)
  else if (- n <=? i) && (i <? 0) then getindex data (Z.to_nat (n + i))
  else raise IndexError.

(** Lines 419-420: [[data[i] for i in valid_list]]. *)
Definition filter_by_idx {A : Type} (data : list A) (valid_list : list Z)
  : result (list A) :=
  for_each (λ out i, x ← py_index data i; mret (out ++ [x])) valid_list [].

(** The area test of line 411 on a box, once both areas are floats. *)
Definition passes (fl : Q → Q) (area area_frac_thresh : Q) (o : obj) : bool :=
  gt_product fl (float fl (Obj.h o * Obj.w o)) (area * area_frac_thresh)%Q.

(** What [filter_object_boxes] makes of the image at position [i]; the
    entries of the two arrays are read with a default that is never used
    when the arrays are long enough. *)
Definition filtered_image (fl : Q → Q) (times : Z → Z → Z)
    (heights widths : list Z) (area_frac_thresh : Q) (i : nat)
    (img : obj_image) : obj_image :=
  let area :=
    float fl (times (default 0 (heights !! i)) (default 0 (widths !! i))) in
  ObjImage (image_id img)
    (filter (λ o, passes fl area area_frac_thresh o = true) (objects img))
    (id_to_idx img).

(** The integer has a float: its magnitude is below [float_limit]. *)
Definition has_float (z : Z) : Prop := Z.abs z < float_limit.

(** The number of objects of a corpus. *)
Definition num_objects (data : list obj_image) : Z :=
  Z.of_nat (length (concat (objects <$> data))).

(** ** Further predicates used in the statements *)

(** The sum of the three counts printed under
    ['# merged boxes per merging type']. *)
Definition merged_total (num_merged : gmap Z Z) : Z :=
  default 0 (num_merged !! 1) + default 0 (num_merged !! 2)
  + default 0 (num_merged !! 3).

(** The seeds before position [i] have category 0 with every later object
    that is still unmarked. *)
Definition apart (fl : Q → Q) (orig : list obj) (i : nat) (S : list obj)
  : Prop :=
  ∀ (k j : nat) ok oj sk sj, (k < i)%nat → (k < j)%nat →
    orig !! k = Some ok → orig !! j = Some oj →
    S !! k = Some sk → S !! j = Some sj →
    Obj.M_TYPE sk = None → Obj.M_TYPE sj = None →
    overlap fl ok oj = inr 0.

(** The same for the seed [i] and the positions below [b] that its inner
    loop has visited. *)
Definition apart_seed (fl : Q → Q) (orig : list obj) (i b : nat)
    (S : list obj) : Prop :=
  ∀ (j : nat) oi oj sj, (i < j < b)%nat →
    orig !! i = Some oi → orig !! j = Some oj → S !! j = Some sj →
    Obj.M_TYPE sj = None → overlap fl oi oj = inr 0.

(** The objects of the input at the positions that the marking pass left
    unmarked. *)
Definition seeds_of (orig S : list obj) : list obj :=
  omap (λ p : obj * obj, match Obj.M_TYPE p.2 with
                         | None => Some p.1
                         | Some _ => None
                         end) (zip orig S).

(** Marking only adds marks: what is unmarked in [S'] was unmarked in
    [S]. *)
Definition still_unmarked (S S' : list obj) : Prop :=
  ∀ (j : nat) s', S' !! j = Some s' → Obj.M_TYPE s' = None →
    ∃ s, S !! j = Some s ∧ Obj.M_TYPE s = None.

(** Every box array that belongs to one of [sizes] has as many rows as
    there are labels. *)
Definition aligned (sizes : list Z) (labels : list Z)
    (boxes : gmap Z (list (vec4 Z))) : Prop :=
  ∀ size,
    (size ∈ sizes →
     ∃ rows, boxes !! size = Some rows ∧ length rows = length labels) ∧
    (size ∉ sizes → boxes !! size = None).

(** The object gets a label: one of its names is picked. *)
Definition labelled (token_to_idx token_counter : gmap string Z) (o : obj)
  : Prop :=
  ∃ name, pick_label token_to_idx token_counter (Obj.names o) = inr (Some name).

(** No name of the object is in the vocabulary. *)
Definition out_of_vocabulary (token_to_idx : gmap string Z) (o : obj) : Prop :=
  Forall (λ n, token_to_idx !! n = None) (Obj.names o).

(** An upper-case ASCII letter. *)
Definition is_upper (b : N) : bool := ((65 <=? b) && (b <=? 90))%N.

(** Strip the blanks at both ends, lower the case, drop the punctuation:
    what the normalizer does to a phrase of ASCII characters. *)
Definition ascii_normal_form (s : string) : list N :=
  filter (λ b, is_punctuation b = false)
    (lower_byte <$> codes (rstrip (lstrip s))).

(** A byte string of ASCII characters. *)
Definition is_ascii (s : string) : Prop := Forall (λ b, b < 128)%N (codes s).

(** The first byte of the key is not an ASCII character. *)
Definition non_ascii_key (kv : string * string) : Prop :=
  match fst kv with
  | EmptyString => False
  | String a _ => (128 ≤ N_of_ascii a)%N
  end.

(** The exceptions of a failed lookup: a key that a dictionary lacks, an
    index beyond the end of an array. *)
Definition lookup_error (e : exn) : Prop := e = KeyError ∨ e = IndexError.

(** [P] holds of the result when there is one, and the exception is not a
    lookup error when there is none. *)
Definition no_lookup_error {A : Type} (P : A → Prop) (r : result A) : Prop :=
  match r with
  | inl e => ¬ lookup_error e
  | inr a => P a
  end.

(** * Properties *)

(** ** The order on tokens *)

Lemma ascii_compare_N a b :
  Ascii.compare a b = N.compare (N_of_ascii a) (N_of_ascii b).
Proof. reflexivity. Qed.

Lemma N_of_ascii_inj a b : N_of_ascii a = N_of_ascii b → a = b.
Proof.
  intros E. rewrite <- (ascii_N_embedding a), <- (ascii_N_embedding b).
  by rewrite E.
Qed.

Lemma string_compare_trans c s1 s2 s3 :
  String.compare s1 s2 = c → String.compare s2 s3 = c →
  String.compare s1 s3 = c.
Proof.
  revert s2 s3. induction s1 as [|a s1 IH]; intros [|b s2] [|d s3]; simpl;
    try congruence.
  rewrite !ascii_compare_N.
  destruct (N.compare_spec (N_of_ascii a) (N_of_ascii b)) as [E1|L1|L1];
    destruct (N.compare_spec (N_of_ascii b) (N_of_ascii d)) as [E2|L2|L2];
    destruct (N.compare_spec (N_of_ascii a) (N_of_ascii d)) as [E3|L3|L3];
    try lia; try congruence; eauto.
Qed.

Lemma string_compare_refl s : String.compare s s = Eq.
Proof.
  induction s as [|a s IH]; simpl; [done|].
  by rewrite ascii_compare_N, N.compare_refl.
Qed.

Lemma string_compare_eq s1 s2 : String.compare s1 s2 = Eq ↔ s1 = s2.
Proof.
  split; [apply String.compare_eq_iff|intros ->; apply string_compare_refl].
Qed.

#[global] Instance str_le_refl : Reflexive str_le.
Proof. intros s. unfold str_le, String.leb. by rewrite string_compare_refl. Qed.

#[global] Instance str_le_trans : Transitive str_le.
Proof.
  intros s1 s2 s3. unfold str_le, String.leb.
  destruct (String.compare s1 s2) eqn:E1; [|
    destruct (String.compare s2 s3) eqn:E2 |done].
  - apply string_compare_eq in E1 as ->. done.
  - apply string_compare_eq in E2 as <-. by rewrite E1.
  - by rewrite (string_compare_trans Lt s1 s2 s3).
  - done.
Qed.

#[global] Instance str_le_antisymm : AntiSymm (=) str_le.
Proof. intros s1 s2. apply String.leb_antisym. Qed.

#[global] Instance str_le_total : Total str_le.
Proof. intros s1 s2. apply String.leb_total. Qed.

Lemma str_lt_le_ne s t : str_lt s t ↔ str_le s t ∧ s ≠ t.
Proof.
  unfold str_lt, str_le, String.ltb, String.leb.
  destruct (String.compare s t) eqn:E.
  - apply string_compare_eq in E. naive_solver.
  - split; [|done]. intros _. split; [done|]. intros ->.
    by rewrite string_compare_refl in E.
  - naive_solver.
Qed.

(** ** Vocabulary Builder *)

Lemma sorted_Permutation l : sorted l ≡ₚ l.
Proof. apply merge_sort_Permutation. Qed.

Lemma sorted_Sorted l : StronglySorted str_le (sorted l).
Proof. apply StronglySorted_merge_sort; apply _. Qed.

Lemma sorted_perm_eq l1 l2 : l1 ≡ₚ l2 → sorted l1 = sorted l2.
Proof.
  intros P. apply (Sorted_unique str_le).
  - apply Sorted_merge_sort, _.
  - apply Sorted_merge_sort, _.
  - by rewrite !sorted_Permutation.
Qed.

(** The loop of [build_token_dict] after a prefix [l] without repetition:
    the token at position [k] has index [1 + k], in both tables. *)
Lemma token_dict_loop (l : list string) :
  NoDup l →
  ∃ t2i i2t,
    foldl token_dict_step (∅, ∅, 1) l = (t2i, i2t, 1 + Z.of_nat (length l)) ∧
    (∀ t i, t2i !! t = Some i ↔ ∃ k : nat, l !! k = Some t ∧ i = 1 + Z.of_nat k) ∧
    (∀ t i, i2t !! i = Some t ↔ ∃ k : nat, l !! k = Some t ∧ i = 1 + Z.of_nat k).
Proof.
  induction l as [|a l IH] using rev_ind; intros ND.
  - exists ∅, ∅. simpl. split_and!; [done| |];
      intros t i; rewrite lookup_empty; naive_solver.
  - apply NoDup_app in ND as (ND & Hal & _).
    destruct (IH ND) as (t2i & i2t & E & H1 & H2).
    rewrite foldl_snoc, E. simpl.
    eexists _, _. split_and!.
    + f_equal. rewrite length_app. simpl. lia.
    + intros t i. rewrite lookup_insert. case_decide as Ht.
      * subst t. split.
        -- intros [= <-]. exists (length l).
           by rewrite list_lookup_middle.
        -- intros (k & Hk & ->). f_equal.
           apply lookup_snoc_Some in Hk as [[Hlt Hk]|[-> _]]; [|done].
           exfalso. apply (Hal a); [by eapply list_elem_of_lookup_2|set_solver].
      * rewrite H1. split; intros (k & Hk & ->); exists k; split; try done.
        -- by apply lookup_app_l_Some.
        -- apply lookup_snoc_Some in Hk as [[_ Hk]|[_ ?]]; [done|congruence].
    + intros t i. rewrite lookup_insert. case_decide as Hi.
      * subst i. split.
        -- intros [= <-]. exists (length l). by rewrite list_lookup_middle.
        -- intros (k & Hk & Ek). assert (k = length l) as -> by lia.
           rewrite list_lookup_middle in Hk by done. congruence.
      * rewrite H2. split; intros (k & Hk & ->); exists k; split; try done.
        -- by apply lookup_app_l_Some.
        -- apply lookup_snoc_Some in Hk as [[_ Hk]|[-> _]]; [done|lia].
Qed.

Lemma filter_none {A} (P : A → Prop) `{∀ a, Decision (P a)} (l : list A) :
  Forall (λ a, ¬ P a) l → filter P l = [].
Proof.
  induction 1 as [|a l Ha _ IH]; [done|]. by rewrite filter_cons_False.
Qed.

(** In a sorted list without repetition the number of entries below the
    entry at position [k] is [k]. *)
Lemma sorted_rank (l : list string) (k : nat) (t : string) :
  StronglySorted str_le l → NoDup l → l !! k = Some t →
  length (filter (λ s, str_lt s t) l) = k.
Proof.
  intros HS. revert k. induction HS as [|a l HS IH Ha]; intros k ND Hk; [done|].
  apply NoDup_cons in ND as [Hnotin ND].
  rewrite filter_cons. destruct k as [|k]; simpl in Hk.
  - injection Hk as ->. rewrite decide_False.
    2:{ rewrite str_lt_le_ne. naive_solver. }
    rewrite filter_none; [done|].
    apply Forall_forall. intros b Hb Hlt. apply str_lt_le_ne in Hlt as [Hle Hne].
    rewrite Forall_forall in Ha. apply Hne, (anti_symm str_le); auto.
  - rewrite decide_True.
    2:{ apply str_lt_le_ne. rewrite Forall_forall in Ha. split.
        - apply Ha. by eapply list_elem_of_lookup_2.
        - intros ->. apply Hnotin. by eapply list_elem_of_lookup_2. }
    simpl. f_equal. by apply IH.
Qed.

(** C5: over a finite set of tokens, enumerated in any order,
    [build_token_dict] gives every token the index 1 + its rank in the
    lexicographic order; the indices in use are exactly 1 .. n; the two
    tables are inverse to each other; and any other enumeration of the same
    set yields the same two tables. *)
Theorem build_token_dict_rank (vocab : gset string) (vocab_list : list string) :
  vocab_list ≡ₚ elements vocab →
  (∀ t, t ∈ vocab →
        (build_token_dict vocab_list).1 !! t = Some (1 + rank vocab t)) ∧
  (∀ t, t ∉ vocab → (build_token_dict vocab_list).1 !! t = None) ∧
  (∀ i, is_Some ((build_token_dict vocab_list).2 !! i)
        ↔ 1 ≤ i ≤ Z.of_nat (size vocab)) ∧
  (∀ t i, (build_token_dict vocab_list).1 !! t = Some i
          ↔ (build_token_dict vocab_list).2 !! i = Some t) ∧
  (∀ vocab_list', vocab_list' ≡ₚ elements vocab →
        build_token_dict vocab_list' = build_token_dict vocab_list).
Proof.
  intros HP.
  assert (NoDup (sorted vocab_list)) as ND.
  { rewrite sorted_Permutation, HP. apply NoDup_elements. }
  assert (∀ t, t ∈ sorted vocab_list ↔ t ∈ vocab) as Hin.
  { intros t. rewrite sorted_Permutation, HP. apply elem_of_elements. }
  destruct (token_dict_loop _ ND) as (t2i & i2t & E & H1 & H2).
  unfold build_token_dict. rewrite E. simpl.
  assert (length (sorted vocab_list) = size vocab) as Hlen.
  { by rewrite sorted_Permutation, HP. }
  split_and!.
  - intros t Ht. apply H1. apply Hin, list_elem_of_lookup in Ht as [k Hk].
    exists k. split; [done|]. unfold rank. do 2 f_equal.
    rewrite <- HP, <- (sorted_Permutation vocab_list).
    apply sorted_rank; auto using sorted_Sorted.
  - intros t Ht. destruct (t2i !! t) as [i|] eqn:Ei; [|done].
    apply H1 in Ei as (k & Hk & _). exfalso.
    apply Ht, Hin. by eapply list_elem_of_lookup_2.
  - intros i. split.
    + intros [t Ht]. apply H2 in Ht as (k & Hk & ->).
      apply lookup_lt_Some in Hk. lia.
    + intros Hi.
      destruct (lookup_lt_is_Some_2 (sorted vocab_list) (Z.to_nat (i - 1)))
        as [t Ht]; [lia|].
      exists t. apply H2. exists (Z.to_nat (i - 1)). split; [done|lia].
  - intros t i. by rewrite H1, H2.
  - intros l' HP'. unfold build_token_dict.
    rewrite (sorted_perm_eq l' vocab_list); [by rewrite E|by rewrite HP].
Qed.

Lemma build_token_dict_rank_witness :
  (["cat"; "dog"; "ant"] ≡ₚ elements ({["ant"; "cat"; "dog"]} : gset string)) ∧
  (build_token_dict ["cat"; "dog"; "ant"]).1 !! "cat" = Some 2.
Proof.
  assert (["cat"; "dog"; "ant"] ≡ₚ elements ({["ant"; "cat"; "dog"]} : gset string))
    as HP.
  { apply NoDup_Permutation.
    - compute_done.
    - apply NoDup_elements.
    - intros t. rewrite elem_of_elements. set_solver. }
  split; [exact HP|].
  destruct (build_token_dict_rank _ _ HP) as (H1 & _).
  rewrite (H1 "cat") by set_solver. reflexivity.
Defined.

(** ** Box Geometry Encoder *)

Lemma int32_small z : - 2 ^ 31 ≤ z < 2 ^ 31 → int32 z = z.
Proof. intros Hz. unfold int32. rewrite Z.mod_small; lia. Qed.



Lemma clamp_box_extent_pos image_size x0 y0 w0 h0 x y w h :
  2 ≤ image_size → 1 ≤ w0 → 1 ≤ h0 →
  clamp_box image_size x0 y0 w0 h0 = (x, y, w, h) →
  1 ≤ w ≤ image_size ∧ 1 ≤ h ≤ image_size.
Proof.
  intros Hs Hw Hh. unfold clamp_box. intros [= <- <- <- <-].
  repeat match goal with
         | |- context [?a <? ?b] => destruct (Z.ltb_spec a b)
         | |- context [?a >? ?b] => rewrite (Z.gtb_ltb a b)
         | |- context [?a >=? ?b] => rewrite (Z.geb_leb a b)
         | |- context [?a <=? ?b] => destruct (Z.leb_spec a b)
         end; lia.
Qed.

Lemma center_box_ok x y w h :
  1 ≤ w < 2 ^ 31 → 1 ≤ h < 2 ^ 31 →
  ∃ box, center_box (x, y, w, h) = inr box ∧ v2 box = w ∧ v3 box = h.
Proof.
  intros Hw Hh. unfold center_box. simpl.
  rewrite !int32_small by lia.
  destruct (Z.gtb_spec w 0); [|lia]. destruct (Z.gtb_spec h 0); [|lia].
  simpl. eauto.
Qed.

Lemma Qceiling_pos q : (0 < q)%Q → 1 ≤ Qceiling q.
Proof.
  intros Hq. pose proof (Qle_ceiling q) as Hc.
  assert (0 < inject_Z (Qceiling q))%Q as H by (eapply Qlt_le_trans; eauto).
  change 0%Q with (inject_Z 0) in H. rewrite <- Zlt_Qlt in H. lia.
Qed.

Lemma no_rounding_model : float_model no_rounding.
Proof. by split. Qed.

Section float_model.
Variable fl : Q → Q.
Hypothesis fl_model : float_model fl.



End float_model.

(** *** Overflow and the rounding of binary64 *)

Lemma no_rounding_binary64 : binary64 no_rounding.
Proof.
  split; [done|]. intros q _ _. unfold no_rounding.
  assert (q - q == 0)%Q as -> by ring. simpl.
  apply Qmult_le_0_compat; [apply Qabs_nonneg|done].
Qed.

Lemma float_limit_large : 2 ^ 1023 ≤ float_limit.
Proof. apply Z.leb_le. by vm_compute. Qed.

Lemma overflows_false q :
  (Qabs q < inject_Z float_limit)%Q → overflows q = false.
Proof.
  intros Hq. unfold overflows.
  destruct (Qle_bool _ _) eqn:E; [|done].
  apply Qle_bool_iff in E. exfalso. by apply (Qlt_not_le _ _ Hq).
Qed.

Lemma overflows_true q :
  (inject_Z float_limit <= Qabs q)%Q → overflows q = true.
Proof. intros Hq. unfold overflows. by apply Qle_bool_iff. Qed.

Lemma Qabs_inject_Z z : Qabs (inject_Z z) = inject_Z (Z.abs z).
Proof. done. Qed.

Lemma to_float_has_float fl z :
  has_float z → to_float fl z = inr (float fl z).
Proof.
  unfold has_float, to_float. intros Hz. rewrite overflows_false; [done|].
  rewrite Qabs_inject_Z. by rewrite <- Zlt_Qlt.
Qed.

Lemma to_float_overflow fl z :
  ¬ has_float z → to_float fl z = inl OverflowError.
Proof.
  unfold has_float, to_float. intros Hz. rewrite overflows_true; [done|].
  rewrite Qabs_inject_Z. rewrite <- Zle_Qle. lia.
Qed.

(** Powers of two in rational bounds are replaced by their numerals. *)
Ltac pow_numerals :=
  repeat match goal with
         | |- context [Pos.pow ?a ?b] =>
             let v := eval vm_compute in (Pos.pow a b) in
             change (Pos.pow a b) with v
         | H : context [Pos.pow ?a ?b] |- _ =>
             let v := eval vm_compute in (Pos.pow a b) in
             change (Pos.pow a b) with v in H
         | |- context [inject_Z (Z.pow ?a ?b)] =>
             let v := eval vm_compute in (Z.pow a b) in
             change (inject_Z (Z.pow a b)) with (v # 1)%Q
         | H : context [inject_Z (Z.pow ?a ?b)] |- _ =>
             let v := eval vm_compute in (Z.pow a b) in
             change (inject_Z (Z.pow a b)) with (v # 1)%Q in H
         end.

Section binary64.
Variable fl : Q → Q.
Hypothesis fl_b64 : binary64 fl.

(** In the normal range a positive number rounds to a number between its
    half and its double. *)
Lemma b64_bounds q :
  (1 # 2 ^ 1022 <= q)%Q → (q <= inject_Z (2 ^ 1023))%Q →
  (q * (1 # 2) <= fl q)%Q ∧ (fl q <= q * 2)%Q.
Proof.
  intros Hlo Hhi.
  assert (0 <= q)%Q as H0 by (eapply Qle_trans; [|exact Hlo]; done).
  pose proof (b64_normal fl fl_b64 q) as H.
  rewrite (Qabs_pos q H0) in H. specialize (H Hlo Hhi).
  apply Qabs_Qle_condition in H as [H1 H2].
  clear Hlo Hhi. pow_numerals. split; lra.
Qed.

Lemma b64_abs q :
  (1 # 2 ^ 1022 <= Qabs q)%Q → (Qabs q <= inject_Z (2 ^ 1023))%Q →
  (Qabs (fl q) <= Qabs q * 2)%Q.
Proof.
  intros Hlo Hhi. pose proof (b64_normal fl fl_b64 q Hlo Hhi) as H.
  pose proof (Qabs_triangle (fl q - q) q) as Ht.
  assert (fl q - q + q == fl q)%Q as E by ring. rewrite E in Ht.
  pose proof (Qabs_nonneg q). pow_numerals. lra.
Qed.

Lemma float_bounds z :
  1 ≤ z ≤ 2 ^ 513 →
  (inject_Z z * (1 # 2) <= float fl z)%Q ∧ (float fl z <= inject_Z z * 2)%Q.
Proof.
  intros [Hlo Hhi]. apply b64_bounds.
  - apply Qle_trans with (inject_Z 1); [done|]. by rewrite <- Zle_Qle.
  - rewrite <- Zle_Qle. lia.
Qed.

Lemma float_abs_bound z :
  Z.abs z ≤ 2 ^ 513 → (Qabs (float fl z) <= inject_Z (2 ^ 514))%Q.
Proof.
  intros Hz. unfold float. destruct (decide (z = 0)) as [->|Hne].
  { rewrite (b64_int fl fl_b64 0) by done. done. }
  eapply Qle_trans; [apply b64_abs|].
  - rewrite Qabs_inject_Z. apply Qle_trans with (inject_Z 1); [done|].
    rewrite <- Zle_Qle. lia.
  - rewrite Qabs_inject_Z, <- Zle_Qle. lia.
  - rewrite Qabs_inject_Z.
    assert (inject_Z (Z.abs z) <= inject_Z (2 ^ 513))%Q as H
      by by rewrite <- Zle_Qle.
    pow_numerals. lra.
Qed.

(** The scale factor of a target size from 4 to the largest [int32] value
    and a longer side from 1 to 2^512. *)
Lemma scale_bounds size m :
  4 ≤ size < 2 ^ 31 → 1 ≤ m ≤ 2 ^ 512 →
  (1 # 2 ^ 513 <= fl (float fl size / float fl m))%Q ∧
  (fl (float fl size / float fl m) <= inject_Z (2 ^ 34))%Q.
Proof.
  intros [Hs1 Hs2] [Hm1 Hm2].
  destruct (float_bounds size) as [Hs3 Hs4]; [lia|].
  destruct (float_bounds m) as [Hm3 Hm4]; [lia|].
  assert (inject_Z 4 <= inject_Z size)%Q as Hs5 by by rewrite <- Zle_Qle.
  assert (inject_Z size <= inject_Z (2 ^ 31))%Q as Hs6
    by (rewrite <- Zle_Qle; lia).
  assert (inject_Z 1 <= inject_Z m)%Q as Hm5 by by rewrite <- Zle_Qle.
  assert (inject_Z m <= inject_Z (2 ^ 512))%Q as Hm6 by by rewrite <- Zle_Qle.
  change (inject_Z 4) with 4%Q in Hs5. change (inject_Z 1) with 1%Q in Hm5.
  pow_numerals.
  assert (0 < float fl m)%Q as Hmpos by lra.
  destruct (b64_bounds (float fl size / float fl m)) as [H1 H2].
  - apply Qle_shift_div_l; [done|]. pow_numerals. lra.
  - apply Qle_shift_div_r; [done|]. pow_numerals. lra.
  - assert (1 # 2 ^ 512 <= float fl size / float fl m)%Q as H3.
    { apply Qle_shift_div_l; [done|]. pow_numerals. lra. }
    assert (float fl size / float fl m <= inject_Z (2 ^ 33))%Q as H4.
    { apply Qle_shift_div_r; [done|]. pow_numerals. lra. }
    pow_numerals. split; lra.
Qed.

Lemma ceil_times_pos scale z :
  (1 # 2 ^ 513 <= scale)%Q → (scale <= inject_Z (2 ^ 34))%Q →
  1 ≤ z ≤ 2 ^ 512 →
  ∃ c, ceil_times fl scale z = inr c ∧ 1 ≤ c.
Proof.
  intros Hlo Hhi [Hz1 Hz2]. unfold ceil_times.
  rewrite to_float_has_float
    by (unfold has_float; pose proof float_limit_large; lia).
  cbn [mbind result_bind].
  destruct (float_bounds z) as [Hb1 Hb2]; [lia|].
  assert (inject_Z 1 <= inject_Z z)%Q as Hz3 by by rewrite <- Zle_Qle.
  assert (inject_Z z <= inject_Z (2 ^ 512))%Q as Hz4 by by rewrite <- Zle_Qle.
  change (inject_Z 1) with 1%Q in Hz3.
  assert ((1 # 2 ^ 513) * (1 # 2) <= scale * float fl z)%Q as Hp1.
  { apply Qmult_le_compat_nonneg; (split; [done|]); [done|lra]. }
  assert (scale * float fl z <= inject_Z (2 ^ 34) * inject_Z (2 ^ 513))%Q
    as Hp2.
  { apply Qmult_le_compat_nonneg; split; try done.
    - eapply Qle_trans; [|exact Hlo]. done.
    - lra.
    - pow_numerals. lra. }
  assert (0 <= scale * float fl z)%Q as Hp0
    by (eapply Qle_trans; [|exact Hp1]; done).
  rewrite overflows_false.
  2:{ rewrite (Qabs_pos _ Hp0). eapply Qle_lt_trans; [exact Hp2|].
      rewrite <- inject_Z_mult, <- Zlt_Qlt. pose proof float_limit_large.
      lia. }
  eexists. split; [done|]. apply Qceiling_pos.
  destruct (b64_bounds (scale * float fl z)) as [H1 _].
  - eapply Qle_trans; [|exact Hp1]. done.
  - eapply Qle_trans; [exact Hp2|].
    rewrite <- inject_Z_mult, <- Zle_Qle. lia.
  - eapply Qlt_le_trans; [|exact H1].
    apply Qmult_lt_0_compat; [|done].
    eapply Qlt_le_trans; [|exact Hp1]. done.
Qed.

Lemma floor_times_returns scale z :
  (0 <= scale)%Q → (scale <= inject_Z (2 ^ 34))%Q →
  Z.abs z ≤ 2 ^ 513 →
  ∃ c, floor_times fl scale z = inr c.
Proof.
  intros Hlo Hhi Hz. unfold floor_times.
  rewrite to_float_has_float
    by (unfold has_float; pose proof float_limit_large; lia).
  cbn [mbind result_bind].
  rewrite overflows_false; [by eexists|].
  rewrite Qabs_Qmult, (Qabs_pos _ Hlo).
  apply Qle_lt_trans with (inject_Z (2 ^ 34) * inject_Z (2 ^ 514))%Q.
  - apply Qmult_le_compat_nonneg; split; try done.
    + apply Qabs_nonneg.
    + by apply float_abs_bound.
  - rewrite <- inject_Z_mult, <- Zlt_Qlt. pose proof float_limit_large. lia.
Qed.

End binary64.

(** What the float computations of [encode_box] can raise. *)
Lemma to_float_cases fl z :
  to_float fl z = inl OverflowError ∨ to_float fl z = inr (float fl z).
Proof. unfold to_float. destruct (overflows _); [by left|by right]. Qed.

Lemma floor_times_cases fl a z :
  floor_times fl a z = inl OverflowError ∨ ∃ c, floor_times fl a z = inr c.
Proof.
  unfold floor_times. destruct (to_float_cases fl z) as [->| ->]; [by left|].
  cbn [mbind result_bind]. destruct (overflows _); [by left|right; by eexists].
Qed.

Lemma ceil_times_cases fl a z :
  ceil_times fl a z = inl OverflowError
  ∨ ∃ b, to_float fl z = inr b ∧ overflows (a * b)%Q = false
         ∧ ceil_times fl a z = inr (Qceiling (fl (a * b)%Q)).
Proof.
  unfold ceil_times. destruct (to_float_cases fl z) as [->| ->]; [by left|].
  cbn [mbind result_bind]. destruct (overflows _) eqn:E; [by left|].
  right. by eexists.
Qed.

Lemma scale_box_cases fl region org_h org_w size :
  scale_box fl region org_h org_w size = inl OverflowError
  ∨ scale_box fl region org_h org_w size = inl ZeroDivisionError
  ∨ ∃ xywh, scale_box fl region org_h org_w size = inr xywh.
Proof.
  unfold scale_box.
  destruct (to_float_cases fl size) as [->| ->]; [by left|].
  cbn [mbind result_bind].
  destruct (to_float_cases fl (Z.max org_h org_w)) as [->| ->]; [by left|].
  cbn [mbind result_bind].
  destruct (Z.max org_h org_w =? 0); [right; by left|].
  destruct (floor_times_cases fl
              (fl (float fl size / float fl (Z.max org_h org_w))%Q)
              (Obj.x region - 1)) as [->|[x ->]]; [by left|].
  cbn [mbind result_bind].
  destruct (floor_times_cases fl
              (fl (float fl size / float fl (Z.max org_h org_w))%Q)
              (Obj.y region - 1)) as [->|[y ->]]; [by left|].
  cbn [mbind result_bind].
  destruct (ceil_times_cases fl
              (fl (float fl size / float fl (Z.max org_h org_w))%Q)
              (Obj.w region)) as [->|(bw & _ & _ & ->)]; [by left|].
  cbn [mbind result_bind].
  destruct (ceil_times_cases fl
              (fl (float fl size / float fl (Z.max org_h org_w))%Q)
              (Obj.h region)) as [->|(bh & _ & _ & ->)]; [by left|].
  cbn [mbind result_bind]. right. right. by eexists.
Qed.


Section encode_box.
Variable fl : Q → Q.


Hypothesis fl_b64 : binary64 fl.

Lemma scale_box_extent_pos region org_h org_w size :
  Z.abs (Obj.x region) ≤ 2 ^ 512 → Z.abs (Obj.y region) ≤ 2 ^ 512 →
  0 < Obj.w region ≤ 2 ^ 512 → 0 < Obj.h region ≤ 2 ^ 512 →
  0 < org_h ≤ 2 ^ 512 → 0 < org_w ≤ 2 ^ 512 → 4 ≤ size < 2 ^ 31 →
  ∃ x y w h, scale_box fl region org_h org_w size = inr (x, y, w, h)
             ∧ 1 ≤ w ∧ 1 ≤ h.
Proof.
  intros Hx Hy Hw Hh Hoh How Hs. unfold scale_box.
  pose proof float_limit_large as Hlimit.
  rewrite !to_float_has_float by (unfold has_float; lia).
  cbn [mbind result_bind].
  destruct (Z.eqb_spec (Z.max org_h org_w) 0) as [E|_]; [lia|].
  destruct (scale_bounds fl fl_b64 size (Z.max org_h org_w))
    as [Hlo Hhi]; [lia..|].
  assert (0 <= fl (float fl size / float fl (Z.max org_h org_w)))%Q as H0
    by (eapply Qle_trans; [|exact Hlo]; done).
  destruct (floor_times_returns fl fl_b64 _ (Obj.x region - 1) H0 Hhi)
    as [x ->]; [lia|].
  destruct (floor_times_returns fl fl_b64 _ (Obj.y region - 1) H0 Hhi)
    as [y ->]; [lia|].
  destruct (ceil_times_pos fl fl_b64 _ (Obj.w region) Hlo Hhi)
    as (w & -> & Hw1); [lia|].
  destruct (ceil_times_pos fl fl_b64 _ (Obj.h region) Hlo Hhi)
    as (h & -> & Hh1); [lia|].
  cbn [mbind result_bind]. by exists x, y, w, h.
Qed.

(** C6, as the code has it: for a box of positive width and height, an
    image of positive height and width, all of these and the position of
    the box of magnitude at most 2^512, and a target size from 4 up to the
    largest [int32] value, [encode_box] returns a box (no conversion
    overflows and neither assertion fails) whose width and height are
    strictly positive. *)
Theorem encode_box_positive region org_h org_w im_long_size :
  Z.abs (Obj.x region) ≤ 2 ^ 512 → Z.abs (Obj.y region) ≤ 2 ^ 512 →
  0 < Obj.w region ≤ 2 ^ 512 → 0 < Obj.h region ≤ 2 ^ 512 →
  0 < org_h ≤ 2 ^ 512 → 0 < org_w ≤ 2 ^ 512 →
  4 ≤ im_long_size < 2 ^ 31 →
  ∃ box, encode_box fl region org_h org_w im_long_size = inr box
         ∧ 0 < v2 box ∧ 0 < v3 box.
Proof.
  intros Hx Hy Hw Hh Hoh How Hs. unfold encode_box, encode_box_clamped.
  destruct (scale_box_extent_pos region org_h org_w im_long_size)
    as (x0 & y0 & w0 & h0 & -> & Hw0 & Hh0); try done.
  cbn -[clamp_box center_box].
  destruct (clamp_box im_long_size x0 y0 w0 h0) as [[[x y] w] h] eqn:E.
  apply clamp_box_extent_pos in E as [Hw' Hh']; try done; [|lia].
  destruct (center_box_ok x y w h) as (box & -> & E2 & E3); [lia..|].
  exists box. rewrite E2, E3. split; [done|lia].
Qed.

End encode_box.



Lemma encode_box_positive_witness :
  ∃ box,
    encode_box no_rounding
      (Obj.mk 30 40 50 20 7 ["cat"] None None None) 300 400 512
      = inr box ∧ 0 < v2 box ∧ 0 < v3 box.
Proof.
  apply (encode_box_positive no_rounding no_rounding_binary64
           (Obj.mk 30 40 50 20 7 ["cat"] None None None) 300 400 512);
    simpl; lia.
Defined.

(** C6 as stated fails: at a target size of 2^32 the extent 2^32 does not
    fit the [int32] box array and the first assertion fails.  (The scale
    factor 2^32 and the products are exact in binary64.) *)
Lemma encode_box_assertion_fails :
  0 < 1 ∧ 4 ≤ 2 ^ 32 ∧
  encode_box no_rounding (Obj.mk 1 1 1 1 0 ["cat"] None None None) 1 1 (2 ^ 32)
    = inl AssertionError.
Proof. split_and!; [lia|lia|vm_compute; reflexivity]. Qed.

(** It fails in a second way: a width or an image height of 2^1024 is a
    Python integer with no float, and the conversion raises
    [OverflowError], at line 210 for the width and at line 206 for the
    image height, whatever the rounding. *)
Lemma encode_box_overflow_error :
  encode_box no_rounding
    (Obj.mk 1 1 (2 ^ 1024) 1 0 ["cat"] None None None) 1 1 4
  = inl OverflowError
  ∧ ∀ fl region, encode_box fl region (2 ^ 1024) 1 4 = inl OverflowError.
Proof.
  split; [vm_compute; reflexivity|]. intros fl region.
  unfold encode_box, encode_box_clamped, scale_box.
  rewrite (to_float_has_float fl 4)
    by (unfold has_float; pose proof float_limit_large; lia).
  cbn [mbind result_bind].
  rewrite to_float_overflow; [done|].
  unfold has_float, float_limit. lia.
Qed.

(** ** Object Index Encoder: the label of an object *)

Section pick_label.
Variables token_to_idx token_counter : gmap string Z.

#[local] Abbreviation counts_positive := (counts_positive token_to_idx token_counter).
#[local] Abbreviation in_vocab := (in_vocab token_to_idx).

Lemma pick_label_step_out obj_label max_occur name :
  ¬ in_vocab name →
  pick_label_step token_to_idx token_counter (obj_label, max_occur) name
  = inr (obj_label, max_occur).
Proof. intros H. unfold pick_label_step. by rewrite decide_False. Qed.

Lemma pick_label_step_in obj_label max_occur name c :
  in_vocab name → token_counter !! name = Some c →
  pick_label_step token_to_idx token_counter (obj_label, max_occur) name
  = inr (if c >? max_occur then (Some name, c) else (obj_label, max_occur)).
Proof.
  intros H Hc. unfold pick_label_step, getitem. rewrite decide_True, Hc by done.
  simpl. by destruct (c >? max_occur).
Qed.

(** The state of the label loop after [names], started from
    [(obj_label, max_occur)]: either no name beat [max_occur] and the state
    is unchanged, or the label is the name at some position [k] whose count
    is the new [max_occur], every name of the vocabulary has at most that
    count, and those before position [k] have less. *)
Lemma pick_label_loop (names : list string) (obj_label : option string)
    (max_occur : Z) :
  counts_positive →
  ∃ obj_label' max_occur',
    for_each (pick_label_step token_to_idx token_counter) names
      (obj_label, max_occur) = inr (obj_label', max_occur') ∧
    (∀ n c, n ∈ names → in_vocab n → token_counter !! n = Some c →
            c ≤ max_occur') ∧
    ((obj_label' = obj_label ∧ max_occur' = max_occur) ∨
     (∃ (k : nat) name,
        names !! k = Some name ∧ in_vocab name ∧
        token_counter !! name = Some max_occur' ∧
        obj_label' = Some name ∧ max_occur < max_occur' ∧
        ∀ (j : nat) n c, (j < k)%nat → names !! j = Some n → in_vocab n →
                         token_counter !! n = Some c → c < max_occur')).
Proof.
  intros Hpos. revert obj_label max_occur.
  induction names as [|a names IH]; intros obj_label max_occur.
  { exists obj_label, max_occur. split_and!; [done| |by left].
    intros n c Hn. by apply elem_of_nil in Hn. }
  cbn [for_each].
  destruct (decide (in_vocab a)) as [Ha|Ha].
  - destruct (Hpos a Ha) as (c & Hc & Hcpos).
    rewrite (pick_label_step_in _ _ _ c) by done.
    destruct (Z.gtb_spec c max_occur) as [Hgt|Hle]; cbn [mbind result_bind mret result_ret].
    + destruct (IH (Some a) c) as (l' & m' & -> & Hmax & Hcase).
      exists l', m'. split; [done|].
      destruct Hcase as [[-> ->]|(k & name & Hk & Hv & Hcnt & -> & Hlt & Hbefore)].
      * split.
        { intros n c' [->|Hn]%elem_of_cons Hv Hn'; [|by eauto].
          assert (c' = c) by congruence. lia. }
        right. exists 0%nat, a. split_and!; try done. intros j n c' Hj. lia.
      * split.
        { intros n c' [->|Hn]%elem_of_cons Hv' Hn'; [|by eauto].
          assert (c' = c) by congruence. lia. }
        right. exists (S k), name. split_and!; try done; [lia|].
        intros [|j] n c' Hj Hn Hv' Hn'; simpl in Hn.
        -- assert (c' = c) by congruence. lia.
        -- eapply Hbefore; eauto. lia.
    + destruct (IH obj_label max_occur) as (l' & m' & -> & Hmax & Hcase).
      exists l', m'. split; [done|].
      destruct Hcase as [[-> ->]|(k & name & Hk & Hv & Hcnt & -> & Hlt & Hbefore)].
      * split; [|by left].
        intros n c' [->|Hn]%elem_of_cons Hv Hn'; [|by eauto].
        assert (c' = c) by congruence. lia.
      * split.
        { intros n c' [->|Hn]%elem_of_cons Hv' Hn'; [|by eauto].
          assert (c' = c) by congruence. lia. }
        right. exists (S k), name. split_and!; try done.
        intros [|j] n c' Hj Hn Hv' Hn'; simpl in Hn.
        -- assert (c' = c) by congruence. lia.
        -- eapply Hbefore; eauto. lia.
  - rewrite pick_label_step_out by done.
    cbn [mbind result_bind mret result_ret].
    destruct (IH obj_label max_occur) as (l' & m' & -> & Hmax & Hcase).
    exists l', m'. split; [done|].
    split.
    { intros n c' [->|Hn]%elem_of_cons Hv' Hn'; [done|by eauto]. }
    destruct Hcase as [?|(k & name & Hk & Hv & Hcnt & -> & Hlt & Hbefore)];
      [by left|].
    right. exists (S k), name. split_and!; try done.
    intros [|j] n c' Hj Hn Hv' Hn'; simpl in Hn.
    -- congruence.
    -- eapply Hbefore; eauto. lia.
Qed.

(** Without a name in the vocabulary no label is chosen, whatever the
    counts are. *)
Lemma pick_label_none (names : list string) :
  Forall (λ n, ¬ in_vocab n) names →
  pick_label token_to_idx token_counter names = inr None.
Proof.
  intros Hn. unfold pick_label.
  assert (∀ st, for_each (pick_label_step token_to_idx token_counter) names st
                = inr st) as ->; [|done].
  induction Hn as [|a names Ha _ IH]; intros [l m]; [done|].
  cbn [for_each]. rewrite pick_label_step_out by done. apply IH.
Qed.

(** The chosen label: a name of the vocabulary with the largest count, and
    the first of the list among those. *)
Lemma pick_label_some (names : list string) :
  counts_positive →
  Exists in_vocab names →
  ∃ (k : nat) name c,
    pick_label token_to_idx token_counter names = inr (Some name) ∧
    names !! k = Some name ∧ in_vocab name ∧
    token_counter !! name = Some c ∧
    (∀ n c', n ∈ names → in_vocab n → token_counter !! n = Some c' → c' ≤ c) ∧
    (∀ (j : nat) n c', (j < k)%nat → names !! j = Some n → in_vocab n →
                       token_counter !! n = Some c' → c' < c).
Proof.
  intros Hpos Hex. unfold pick_label.
  destruct (pick_label_loop names None 0 Hpos)
    as (l' & m' & -> & Hmax & Hcase).
  cbn [mbind result_bind mret result_ret fst].
  destruct Hcase as [[-> ->]|(k & name & Hk & Hv & Hcnt & -> & Hlt & Hbefore)].
  - exfalso. apply Exists_exists in Hex as (n & Hn & Hv).
    destruct (Hpos n Hv) as (c & Hc & Hcpos).
    specialize (Hmax n c Hn Hv Hc). lia.
  - exists k, name, m'. split_and!; done.
Qed.

End pick_label.

(** C4: let the vocabulary give every token a positive count.  An object
    none of whose names is in the vocabulary leaves the encoder state as it
    is (no label, no box, no table entry, no exception).  Otherwise a name
    of the object that is in the vocabulary and has the largest count among
    those is chosen, and the object is encoded with the index of that name
    as its label as soon as its boxes and its ids can be read. *)
Theorem encode_object_label (fl : Q → Q)
    (token_to_idx token_counter : gmap string Z)
    (org_h org_w : list Z) (i : nat) (im_long_sizes : list Z)
    (labels : list Z) (boxes : gmap Z (list (vec4 Z))) (table : gmap Z Z)
    (counter : Z) (o : obj) :
  counts_positive token_to_idx token_counter →
  (Forall (λ n, ¬ in_vocab token_to_idx n) (Obj.names o) →
   encode_object fl token_to_idx token_counter org_h org_w i im_long_sizes
     (labels, boxes, table, counter) o
   = inr (labels, boxes, table, counter)) ∧
  (Exists (in_vocab token_to_idx) (Obj.names o) →
   ∃ name idx c,
     name ∈ Obj.names o ∧ token_to_idx !! name = Some idx ∧
     token_counter !! name = Some c ∧
     (∀ n c', n ∈ Obj.names o → in_vocab token_to_idx n →
              token_counter !! n = Some c' → c' ≤ c) ∧
     encode_object fl token_to_idx token_counter org_h org_w i im_long_sizes
       (labels, boxes, table, counter) o
     = (boxes' ← for_each (append_box fl o org_h org_w i) im_long_sizes boxes;
        obj_ids ← getkey (Obj.ids o);
        mret (labels ++ [idx], boxes',
              foldl (λ t obj_id, <[obj_id := counter]> t) table obj_ids,
              counter + 1))).
Proof.
  intros Hpos. split.
  - intros Hnone. unfold encode_object.
    by rewrite (pick_label_none _ _ _ Hnone).
  - intros Hsome.
    destruct (pick_label_some _ _ _ Hpos Hsome)
      as (k & name & c & Hpick & Hk & [idx Hidx] & Hc & Hmax & _).
    exists name, idx, c. split_and!; try done.
    { by eapply list_elem_of_lookup_2. }
    unfold encode_object. rewrite Hpick. cbn [mbind result_bind].
    destruct (for_each _ im_long_sizes boxes) as [e|boxes']; [done|].
    unfold getitem. by rewrite Hidx.
Qed.

Lemma encode_object_label_witness :
  let token_to_idx : gmap string Z := <["cat" := 1]> (<["dog" := 2]> ∅) in
  let token_counter : gmap string Z := <["cat" := 3]> (<["dog" := 8]> ∅) in
  counts_positive token_to_idx token_counter ∧
  encode_object no_rounding token_to_idx token_counter [300] [400] 0 []
    ([], ∅, ∅, 0) (Obj.mk 30 40 50 20 7 ["puppy"] (Some [7]) None None)
  = inr ([], ∅, ∅, 0).
Proof.
  intros token_to_idx token_counter.
  assert (counts_positive token_to_idx token_counter) as Hpos.
  { intros t [idx Ht]. subst token_to_idx token_counter.
    destruct (decide (t = "cat")) as [->|]; [exists 3; by split|].
    destruct (decide (t = "dog")) as [->|]; [exists 8; by split|].
    by rewrite !lookup_insert_ne, lookup_empty in Ht. }
  split; [exact Hpos|].
  apply (encode_object_label no_rounding token_to_idx token_counter
           [300] [400] 0 []
           [] ∅ ∅ 0 (Obj.mk 30 40 50 20 7 ["puppy"] (Some [7]) None None) Hpos).
  repeat constructor. intros [idx Hidx]. by vm_compute in Hidx.
Defined.

(** C10: let the vocabulary give every token a positive count and distinct
    tokens distinct indices.  If [name], at position [k] of the names of an
    object, has the largest count among the names in the vocabulary and no
    earlier name has the same count, then [name] is the label, however many
    later names tie with it; and if a different name ties with it, the same
    names in another order give that other name, with another index. *)
Theorem pick_label_earliest_tie (token_to_idx token_counter : gmap string Z)
    (names : list string) (k : nat) (name : string) (c : Z) :
  counts_positive token_to_idx token_counter →
  (∀ a b idx, token_to_idx !! a = Some idx → token_to_idx !! b = Some idx →
              a = b) →
  names !! k = Some name → in_vocab token_to_idx name →
  token_counter !! name = Some c →
  (∀ n c', n ∈ names → in_vocab token_to_idx n →
           token_counter !! n = Some c' → c' ≤ c) →
  (∀ (j : nat) n, (j < k)%nat → names !! j = Some n →
                  in_vocab token_to_idx n → token_counter !! n ≠ Some c) →
  pick_label token_to_idx token_counter names = inr (Some name) ∧
  ∀ name', name' ∈ names → name' ≠ name → in_vocab token_to_idx name' →
           token_counter !! name' = Some c →
    ∃ names', names' ≡ₚ names ∧
      pick_label token_to_idx token_counter names' = inr (Some name') ∧
      token_to_idx !! name' ≠ token_to_idx !! name.
Proof.
  intros Hpos Hinj.
  assert (∀ names k name c,
    names !! k = Some name → in_vocab token_to_idx name →
    token_counter !! name = Some c →
    (∀ n c', n ∈ names → in_vocab token_to_idx n →
             token_counter !! n = Some c' → c' ≤ c) →
    (∀ (j : nat) n, (j < k)%nat → names !! j = Some n →
                    in_vocab token_to_idx n → token_counter !! n ≠ Some c) →
    pick_label token_to_idx token_counter names = inr (Some name)) as Hfirst.
  { clear names k name c. intros names k name c Hk Hv Hc Hmax Hearly.
    destruct (pick_label_some token_to_idx token_counter names Hpos)
      as (k0 & name0 & c0 & -> & Hk0 & Hv0 & Hc0 & Hmax0 & Hbefore0).
    { apply Exists_exists. exists name. split; [|done].
      by eapply list_elem_of_lookup_2. }
    assert (c0 = c) as ->.
    { apply Z.le_antisymm.
      - apply (Hmax name0 c0); [by eapply list_elem_of_lookup_2|done..].
      - apply (Hmax0 name c); [by eapply list_elem_of_lookup_2|done..]. }
    destruct (lt_eq_lt_dec k0 k) as [[Hlt| ->]|Hlt].
    - by destruct (Hearly k0 name0 Hlt Hk0 Hv0).
    - do 2 f_equal. congruence.
    - specialize (Hbefore0 k name c Hlt Hk Hv Hc). lia. }
  intros Hk Hv Hc Hmax Hearly. split; [by eapply Hfirst|].
  intros name' Hin' Hne Hv' Hc'.
  apply list_elem_of_lookup in Hin' as [k' Hk'].
  exists (name' :: delete k' names).
  assert (name' :: delete k' names ≡ₚ names) as HP
    by (symmetry; by apply delete_Permutation).
  split_and!; [done| |].
  - apply (Hfirst _ 0%nat name' c); try done.
    + intros n c'' Hn. apply Hmax. by rewrite <- HP.
    + intros j n Hj. lia.
  - intros Heq. destruct Hv as [idx Hidx]. rewrite Hidx in Heq.
    apply Hne. by eapply Hinj.
Qed.

Lemma pick_label_earliest_tie_witness :
  let token_to_idx : gmap string Z := <["cat" := 1]> (<["dog" := 2]> ∅) in
  let token_counter : gmap string Z := <["cat" := 5]> (<["dog" := 5]> ∅) in
  pick_label token_to_idx token_counter ["dog"; "cat"] = inr (Some "dog") ∧
  ∃ names', names' ≡ₚ ["dog"; "cat"] ∧
    pick_label token_to_idx token_counter names' = inr (Some "cat") ∧
    token_to_idx !! "cat" ≠ token_to_idx !! "dog".
Proof.
  intros token_to_idx token_counter.
  assert (∀ t, is_Some (token_to_idx !! t) → t = "cat" ∨ t = "dog") as Hdom.
  { intros t [idx Ht]. subst token_to_idx.
    destruct (decide (t = "cat")) as [->|]; [by left|].
    destruct (decide (t = "dog")) as [->|]; [by right|].
    by rewrite !lookup_insert_ne, lookup_empty in Ht. }
  assert (counts_positive token_to_idx token_counter) as Hpos.
  { intros t Ht. exists 5. by destruct (Hdom t Ht) as [-> | ->]. }
  assert (∀ a b idx, token_to_idx !! a = Some idx →
                     token_to_idx !! b = Some idx → a = b) as Hinj.
  { intros a b idx Ha Hb.
    destruct (Hdom a (mk_is_Some _ _ Ha)) as [-> | ->],
             (Hdom b (mk_is_Some _ _ Hb)) as [-> | ->];
      vm_compute in Ha, Hb; congruence. }
  assert (∀ n c', n ∈ ["dog"; "cat"] → in_vocab token_to_idx n →
                  token_counter !! n = Some c' → c' ≤ 5) as Hmax.
  { intros n c' _ Hn Hc.
    destruct (Hdom n Hn) as [-> | ->]; vm_compute in Hc;
      injection Hc as <-; lia. }
  destruct (pick_label_earliest_tie token_to_idx token_counter
              ["dog"; "cat"] 0 "dog" 5 Hpos Hinj eq_refl
              (mk_is_Some _ _ eq_refl) eq_refl Hmax) as [H1 H2].
  { intros j n Hj. lia. }
  split; [exact H1|]. apply (H2 "cat"); try done.
  - set_solver.
  - by exists 1.
Defined.

(** ** Loops *)

(** Equality of loop states, component by component. *)
Ltac tuple_eq :=
  repeat match goal with
         | |- inr _ = inr _ => apply (f_equal inr)
         | |- (_, _) = (_, _) => apply (f_equal2 pair)
         end.

Lemma for_each_app {S A} (body : S → A → result S) l1 l2 s :
  for_each body (l1 ++ l2) s = for_each body l1 s ≫= for_each body l2.
Proof.
  revert s. induction l1 as [|a l1 IH]; intros s; simpl; [done|].
  destruct (body s a); simpl; [done|apply IH].
Qed.

Lemma for_each_snoc {S A} (body : S → A → result S) l a s :
  for_each body (l ++ [a]) s = for_each body l s ≫= λ s', body s' a.
Proof.
  rewrite for_each_app. destruct (for_each body l s) as [e|s']; simpl; [done|].
  by destruct (body s' a).
Qed.

Lemma getindex_Some {A} (l : list A) i v : l !! i = Some v → getindex l i = inr v.
Proof. intros H. unfold getindex. by rewrite H. Qed.

Lemma getindex_inv {A} (l : list A) i v : getindex l i = inr v → l !! i = Some v.
Proof. unfold getindex. destruct (l !! i); [by intros [= ->]|done]. Qed.

Lemma imap_pair_snoc {A} (l : list A) a :
  imap pair (l ++ [a]) = imap pair l ++ [(length l, a)].
Proof. rewrite imap_app. simpl. by rewrite Nat.add_0_r. Qed.

(** ** Relationship Index Encoder *)

(** One relationship: the loop body never raises and does what the
    verdict of the specification says. *)
Lemma encode_relation_verdict token_to_idx table preds rels counter
    objf predf dupf r :
  encode_relation token_to_idx table
    (preds, rels, counter, objf, predf, dupf) r
  = inr (match spec_verdict token_to_idx table r with
         | FilteredByObject => (preds, rels, counter, objf + 1, predf, dupf)
         | FilteredByPredicate => (preds, rels, counter, objf, predf + 1, dupf)
         | FilteredByDuplicate => (preds, rels, counter, objf, predf, dupf + 1)
         | Emitted p s o =>
             (preds ++ [p], rels ++ [(int32 s, int32 o)], counter + 1,
              objf, predf, dupf)
         end).
Proof.
  unfold encode_relation, spec_verdict, encode_relationship, getitem.
  destruct (table !! Rel.subject_id r) as [s|] eqn:Es.
  2:{ rewrite decide_True by auto. done. }
  destruct (table !! Rel.object_id r) as [o|] eqn:Eo.
  2:{ rewrite decide_True by auto. done. }
  rewrite decide_False by (intros [?|?]; done).
  destruct (token_to_idx !! Rel.predicate r) as [p|] eqn:Ep.
  2:{ rewrite decide_True by done. done. }
  rewrite decide_False by done. simpl.
  destruct (Z.eqb_spec s o) as [->|Hne].
  - by rewrite decide_True.
  - by rewrite decide_False.
Qed.

Lemma count_verdict_cons v v' vs :
  count_verdict v (v' :: vs)
  = (if decide (v' = v) then 1 else 0) + count_verdict v vs.
Proof.
  unfold count_verdict. rewrite filter_cons.
  destruct (decide (v' = v)); simpl; lia.
Qed.

Lemma count_verdict_app v vs1 vs2 :
  count_verdict v (vs1 ++ vs2) = count_verdict v vs1 + count_verdict v vs2.
Proof. unfold count_verdict. rewrite filter_app, length_app. lia. Qed.

(** The relationships of one image. *)
Lemma encode_relation_loop token_to_idx table rs preds rels counter
    objf predf dupf :
  for_each (encode_relation token_to_idx table) rs
    (preds, rels, counter, objf, predf, dupf)
  = inr (preds ++ omap emitted_pred (spec_verdict token_to_idx table <$> rs),
         rels ++ omap emitted_pair (spec_verdict token_to_idx table <$> rs),
         counter + Z.of_nat (length (omap emitted_pair
                                       (spec_verdict token_to_idx table <$> rs))),
         objf + count_verdict FilteredByObject
                  (spec_verdict token_to_idx table <$> rs),
         predf + count_verdict FilteredByPredicate
                   (spec_verdict token_to_idx table <$> rs),
         dupf + count_verdict FilteredByDuplicate
                  (spec_verdict token_to_idx table <$> rs)).
Proof.
  revert preds rels counter objf predf dupf.
  induction rs as [|r rs IH]; intros preds rels counter objf predf dupf.
  { unfold count_verdict. simpl. rewrite !app_nil_r, !Z.add_0_r. done. }
  cbn [for_each]. rewrite encode_relation_verdict. cbn [mbind result_bind].
  rewrite fmap_cons, !count_verdict_cons.
  destruct (spec_verdict token_to_idx table r) eqn:Ev; rewrite IH;
    cbn [omap list_omap emitted_pred emitted_pair length];
    repeat case_decide; try congruence;
    rewrite <- ?app_assoc; cbn [app]; tuple_eq; try done; lia.
Qed.

(** ** CSR range arrays *)

Lemma int32_m1 : int32 (-1) = -1.
Proof. reflexivity. Qed.

Lemma csr_end_app c r1 r2 :
  csr_end c (r1 ++ r2) = csr_end c r1 ≫= λ c', csr_end c' r2.
Proof.
  revert c. induction r1 as [|[f l] r1 IH]; intros c; simpl; [done|].
  destruct ((f =? -1) && (l =? -1)); [apply IH|].
  destruct ((f =? c) && (f <=? l)); [apply IH|done].
Qed.

Lemma insert_at_length {A} (n : nat) (l1 l2 : list A) a b :
  n = length l1 → <[n := b]> (l1 ++ a :: l2) = l1 ++ b :: l2.
Proof. intros ->. induction l1 as [|a' l1 IH]; simpl; [done|by f_equal]. Qed.

(** The bookkeeping at the end of an image, lines 268-272 and 324-330:
    [F] and [L] are the ranges of the images done so far, [c] is the
    counter before the image and [c'] the counter after it. *)
Lemma csr_close (F L : list Z) (m : nat) (c c' : Z) :
  length F = length L →
  csr_end 0 (zip F L) = Some c →
  0 ≤ c → c ≤ c' → c' < 2 ^ 31 →
  let i := length F in
  let first := <[i := int32 c]> (F ++ replicate (S m) 0) in
  let last := L ++ replicate (S m) 0 in
  getindex first i = inr c ∧
  (c = c' →
   <[i := int32 (-1)]> first = (F ++ [-1]) ++ replicate m 0 ∧
   <[i := int32 (-1)]> last = (L ++ [-1]) ++ replicate m 0 ∧
   csr_end 0 (zip (F ++ [-1]) (L ++ [-1])) = Some c') ∧
  (c ≠ c' →
   first = (F ++ [c]) ++ replicate m 0 ∧
   <[i := int32 (c' - 1)]> last = (L ++ [c' - 1]) ++ replicate m 0 ∧
   csr_end 0 (zip (F ++ [c]) (L ++ [c' - 1])) = Some c').
Proof.
  intros Hlen Hend Hc Hcc Hc' i first last. subst first last i.
  assert (2 ^ 31 = 2147483648) as Hpow by reflexivity.
  rewrite !(int32_small c), !(int32_small (c' - 1)), !int32_m1 by lia.
  cbn [replicate].
  rewrite !(insert_at_length (length F) F) by done.
  rewrite !(insert_at_length (length F) L) by done.
  split_and!.
  - unfold getindex. by rewrite list_lookup_middle.
  - intros <-. rewrite <- !app_assoc. split_and!; try done.
    rewrite zip_with_app by done. rewrite csr_end_app, Hend. done.
  - intros Hne. rewrite <- !app_assoc. split_and!; try done.
    rewrite zip_with_app by done. rewrite csr_end_app, Hend. simpl.
    destruct (Z.eqb_spec c (-1)); [lia|]. simpl.
    rewrite Z.eqb_refl. destruct (Z.leb_spec c (c' - 1)); [|lia]. simpl.
    f_equal. lia.
Qed.

(** A walk through the ranges that ends at [c_end] is a partition of the
    rows from [c] up to [c_end]. *)
Lemma csr_end_rows (first last : list Z) (c c_end : Z) :
  length first = length last → 0 ≤ c →
  csr_end c (zip first last) = Some c_end →
  c ≤ c_end ∧
  (∀ (i : nat) f l, first !! i = Some f → last !! i = Some l →
     (f = -1 ∧ l = -1) ∨ (c ≤ f ∧ f ≤ l ∧ l < c_end)) ∧
  (∀ (i j : nat) fi li fj lj, (i < j)%nat →
     first !! i = Some fi → last !! i = Some li →
     first !! j = Some fj → last !! j = Some lj →
     fi ≠ -1 → fj ≠ -1 → li < fj) ∧
  csr_rows first last = seqZ c (c_end - c).
Proof.
  revert last c. induction first as [|f first IH]; intros [|l last] c Hlen Hc;
    try done.
  { simpl. intros [= <-]. split_and!.
    - lia.
    - intros i f l Hf. by rewrite lookup_nil in Hf.
    - intros i j fi li fj lj _ Hf. by rewrite lookup_nil in Hf.
    - by rewrite Z.sub_diag. }
  cbn [zip zip_with csr_end]. injection Hlen as Hlen.
  destruct ((f =? -1) && (l =? -1)) eqn:Esent.
  - intros Hend. destruct (IH last c Hlen Hc Hend) as (Hle & Hr & Hord & Hrows).
    apply andb_true_iff in Esent as [->%Z.eqb_eq ->%Z.eqb_eq].
    split_and!; [done| | |].
    + intros [|i] f l; simpl; [intros [= <-] [= <-]; by left|apply Hr].
    + intros [|i] [|j] fi li fj lj Hij; simpl; try lia.
      * intros [= <-]. done.
      * apply Hord. lia.
    + unfold csr_rows. cbn [zip_with concat]. simpl. apply Hrows.
  - destruct ((f =? c) && (f <=? l)) eqn:Estart; [|done].
    apply andb_true_iff in Estart as [->%Z.eqb_eq Hfl%Z.leb_le].
    intros Hend.
    destruct (IH last (l + 1) Hlen ltac:(lia) Hend) as (Hle & Hr & Hord & Hrows).
    split_and!; [lia| | |].
    + intros [|i] f' l'; simpl.
      * intros [= <-] [= <-]. right. lia.
      * intros Hf Hl. destruct (Hr i f' l' Hf Hl); [by left|right; lia].
    + intros [|i] [|j] fi li fj lj Hij; simpl; try lia.
      * intros [= <-] [= <-] Hfj Hlj _ Hne.
        destruct (Hr j fj lj Hfj Hlj); lia.
      * apply Hord. lia.
    + unfold csr_rows. cbn [zip_with concat]. rewrite Esent.
      fold (csr_rows first last). rewrite Hrows.
      replace (c_end - c) with ((l - c + 1) + (c_end - (l + 1))) by lia.
      rewrite (seqZ_app c (l - c + 1) (c_end - (l + 1))) by lia.
      do 2 f_equal. lia.
Qed.

Lemma csr_end_partition (first last : list Z) (n : Z) :
  length first = length last →
  csr_end 0 (zip first last) = Some n →
  csr_partition (length first) first last n.
Proof.
  intros Hlen Hend.
  destruct (csr_end_rows first last 0 n Hlen ltac:(done) Hend)
    as (Hle & Hr & Hord & Hrows).
  unfold csr_partition. split_and!; try done.
  by rewrite Hrows, Z.sub_0_r.
Qed.

Lemma csr_close_step (F L : list Z) (m : nat) (c c' fi : Z)
    (first' last' : list Z) :
  length F = length L →
  csr_end 0 (zip F L) = Some c →
  0 ≤ c → c ≤ c' → c' < 2 ^ 31 →
  getindex (<[length F := int32 c]> (F ++ replicate (S m) 0)) (length F)
    = inr fi →
  (first', last')
  = (if fi =? c'
     then (<[length F := int32 (-1)]>
             (<[length F := int32 c]> (F ++ replicate (S m) 0)),
           <[length F := int32 (-1)]> (L ++ replicate (S m) 0))
     else (<[length F := int32 c]> (F ++ replicate (S m) 0),
           <[length F := int32 (c' - 1)]> (L ++ replicate (S m) 0))) →
  ∃ F' L',
    length F' = S (length F) ∧ length L' = S (length F) ∧
    first' = F' ++ replicate m 0 ∧ last' = L' ++ replicate m 0 ∧
    csr_end 0 (zip F' L') = Some c'.
Proof.
  intros Hlen Hend Hc Hcc Hc' Hfi Hout.
  destruct (csr_close F L m c c' Hlen Hend Hc Hcc Hc') as (Hget & Heq & Hne).
  rewrite Hget in Hfi. injection Hfi as <-.
  destruct (Z.eqb_spec c c') as [E|E].
  - destruct (Heq E) as (E1 & E2 & Hend'). rewrite E1, E2 in Hout.
    injection Hout as -> ->.
    exists (F ++ [-1]), (L ++ [-1]). rewrite !length_app. simpl.
    split_and!; try done; lia.
  - destruct (Hne E) as (E1 & E2 & Hend'). rewrite E1, E2 in Hout.
    injection Hout as -> ->.
    exists (F ++ [c]), (L ++ [c' - 1]). rewrite !length_app. simpl.
    split_and!; try done; lia.
Qed.

(** *** The relationship encoder, image by image *)

Lemma encode_relationships_image_eq token_to_idx obj_data st i img oimg table :
  obj_data !! i = Some oimg → id_to_idx oimg = Some table →
  encode_relationships_image token_to_idx obj_data st (i, img)
  = (let vs := spec_verdict token_to_idx table <$> relationships img in
     let c' := rel_idx_counter st + Z.of_nat (length (omap emitted_pair vs)) in
     let first := <[i := int32 (rel_idx_counter st)]> (im_to_first_rel st) in
     first_i ← getindex first i;
     let '(first', last', no_rel) :=
       if first_i =? c'
       then (<[i := int32 (-1)]> first,
             <[i := int32 (-1)]> (im_to_last_rel st), no_rel_counter st + 1)
       else (first, <[i := int32 (c' - 1)]> (im_to_last_rel st),
             no_rel_counter st) in
     mret (RelEnc (encoded_pred st ++ omap emitted_pred vs)
                  (encoded_rel st ++ omap emitted_pair vs)
                  first' last' c' no_rel
                  (obj_filtered st + count_verdict FilteredByObject vs)
                  (predicate_filtered st
                   + count_verdict FilteredByPredicate vs)
                  (duplicate_filtered st
                   + count_verdict FilteredByDuplicate vs))).
Proof.
  intros Hobj Htable. unfold encode_relationships_image.
  rewrite (getindex_Some _ _ _ Hobj).
  cbn [mbind result_bind mret result_ret]. rewrite Htable.
  cbn [getkey mbind result_bind mret result_ret].
  rewrite encode_relation_loop. cbn [mbind result_bind mret result_ret].
  destruct (getindex _ i) as [e|fi]; [done|]. cbn [mbind result_bind].
  by destruct (fi =? _).
Qed.

Lemma encode_relationships_image_inv token_to_idx obj_data st i img st' :
  encode_relationships_image token_to_idx obj_data st (i, img) = inr st' →
  ∃ oimg table, obj_data !! i = Some oimg ∧ id_to_idx oimg = Some table.
Proof.
  unfold encode_relationships_image.
  destruct (getindex obj_data i) as [e|oimg] eqn:Ho; [done|].
  apply getindex_inv in Ho.
  cbn [mbind result_bind mret result_ret].
  destruct (id_to_idx oimg) as [table|] eqn:Et; [|done]. eauto.
Qed.

Lemma spec_verdicts_snoc token_to_idx tables rel_data img table :
  tables !! length rel_data = Some table →
  spec_verdicts token_to_idx tables (rel_data ++ [img])
  = spec_verdicts token_to_idx tables rel_data
    ++ (spec_verdict token_to_idx table <$> relationships img).
Proof.
  unfold spec_verdicts. revert tables.
  induction rel_data as [|a rel_data IH]; intros [|t tables] Ht; try done.
  - simpl in Ht. injection Ht as ->. simpl.
    destruct tables; simpl; by rewrite app_nil_r.
  - simpl in Ht. cbn [app zip_with concat]. rewrite (IH _ Ht).
    by rewrite app_assoc.
Qed.

(** With an id-to-index table on every image the loop over the images
    cannot fail, and its output is the list of verdicts, filtered. *)
Lemma encode_relationships_loop_content token_to_idx obj_data tables
    rel_data (n : nat) :
  Forall2 (λ oimg table, id_to_idx oimg = Some table) obj_data tables →
  (length rel_data ≤ length obj_data)%nat → (length rel_data ≤ n)%nat →
  ∃ st,
    for_each (encode_relationships_image token_to_idx obj_data)
      (imap pair rel_data)
      (RelEnc [] [] (replicate n 0) (replicate n 0) 0 0 0 0 0) = inr st ∧
    length (im_to_first_rel st) = n ∧
    encoded_pred st
    = omap emitted_pred (spec_verdicts token_to_idx tables rel_data) ∧
    encoded_rel st
    = omap emitted_pair (spec_verdicts token_to_idx tables rel_data) ∧
    obj_filtered st
    = count_verdict FilteredByObject
        (spec_verdicts token_to_idx tables rel_data) ∧
    predicate_filtered st
    = count_verdict FilteredByPredicate
        (spec_verdicts token_to_idx tables rel_data) ∧
    duplicate_filtered st
    = count_verdict FilteredByDuplicate
        (spec_verdicts token_to_idx tables rel_data).
Proof.
  intros Htables. induction rel_data as [|img rel_data IH] using rev_ind;
    intros Hlen Hn.
  { eexists. split; [reflexivity|]. unfold spec_verdicts.
    rewrite zip_with_nil_r. simpl. by rewrite length_replicate. }
  rewrite length_app in Hlen, Hn. simpl in Hlen, Hn.
  destruct IH as (st & Hst & Hfirst & Hpred & Hrel & Hobj & Hpr & Hdup);
    [lia..|].
  rewrite imap_pair_snoc, for_each_snoc, Hst. cbn [mbind result_bind].
  destruct (lookup_lt_is_Some_2 obj_data (length rel_data)) as [oimg Hoimg];
    [lia|].
  destruct (Forall2_lookup_l _ _ _ _ _ Htables Hoimg) as (table & Ht & Htab).
  rewrite (encode_relationships_image_eq _ _ _ _ _ oimg table) by done.
  cbv zeta. unfold getindex.
  rewrite list_lookup_insert_eq by lia.
  cbn [mbind result_bind mret result_ret].
  rewrite (spec_verdicts_snoc _ _ _ _ table Ht).
  rewrite !omap_app, !count_verdict_app.
  match goal with |- context [if ?b then _ else _] => destruct b end;
    eexists; (split; [reflexivity|]);
    cbn [im_to_first_rel encoded_pred encoded_rel obj_filtered
         predicate_filtered duplicate_filtered];
    rewrite ?length_insert; split_and!; congruence.
Qed.

Lemma spec_verdicts_elem token_to_idx tables rel_data v :
  v ∈ spec_verdicts token_to_idx tables rel_data →
  ∃ table r, table ∈ tables ∧ v = spec_verdict token_to_idx table r.
Proof.
  unfold spec_verdicts. revert rel_data.
  induction tables as [|t tables IH]; intros [|img rel_data]; simpl;
    try (intros H; by apply elem_of_nil in H).
  rewrite elem_of_app. intros [H|H].
  - apply list_elem_of_fmap in H as (r & -> & _). exists t, r. split; [left|done].
  - destruct (IH _ H) as (table & r & Ht & ->). exists table, r.
    split; [by right|done].
Qed.

Lemma spec_verdict_emitted token_to_idx table r p s o :
  spec_verdict token_to_idx table r = Emitted p s o →
  table !! Rel.subject_id r = Some s ∧ table !! Rel.object_id r = Some o ∧
  token_to_idx !! Rel.predicate r = Some p ∧ s ≠ o.
Proof.
  unfold spec_verdict.
  destruct (table !! Rel.subject_id r) as [s'|]; [|done].
  destruct (table !! Rel.object_id r) as [o'|]; [|done].
  destruct (token_to_idx !! Rel.predicate r) as [p'|]; [|done].
  case_decide; [done|]. by intros [= <- <- <-].
Qed.

Lemma emitted_same_length (vs : list verdict) :
  length (omap emitted_pred vs) = length (omap emitted_pair vs).
Proof.
  induction vs as [|[] vs IH]; simpl; first [done|exact IH|f_equal; exact IH].
Qed.

(** C3: let every image have its id-to-index table.  Then
    [encode_relationships] treats each relationship by the rule of the
    specification, tested in its order (endpoint absent from the table,
    then predicate absent from the vocabulary, then both endpoints on the
    same index): the predicate and pair arrays hold exactly the
    relationships that pass the three tests, in order, and the three
    counters hold the numbers of relationships rejected by each test.  A
    result is returned as soon as one relationship passes.  With indices in
    the [int32] range no emitted pair has equal components. *)
Theorem encode_relationships_filter (token_to_idx : gmap string Z)
    (obj_data : list obj_image) (tables : list (gmap Z Z))
    (rel_data : list rel_image) :
  Forall2 (λ oimg table, id_to_idx oimg = Some table) obj_data tables →
  (length rel_data ≤ length obj_data)%nat →
  (omap emitted_pair (spec_verdicts token_to_idx tables rel_data) ≠ [] →
   ∃ st, encode_relationships rel_data token_to_idx obj_data = inr st) ∧
  ∀ st, encode_relationships rel_data token_to_idx obj_data = inr st →
    encoded_pred st
    = omap emitted_pred (spec_verdicts token_to_idx tables rel_data) ∧
    encoded_rel st
    = omap emitted_pair (spec_verdicts token_to_idx tables rel_data) ∧
    obj_filtered st
    = count_verdict FilteredByObject
        (spec_verdicts token_to_idx tables rel_data) ∧
    predicate_filtered st
    = count_verdict FilteredByPredicate
        (spec_verdicts token_to_idx tables rel_data) ∧
    duplicate_filtered st
    = count_verdict FilteredByDuplicate
        (spec_verdicts token_to_idx tables rel_data) ∧
    ((∀ table id idx, table ∈ tables → table !! id = Some idx →
                      - 2 ^ 31 ≤ idx < 2 ^ 31) →
     ∀ s o, (s, o) ∈ encoded_rel st → s ≠ o).
Proof.
  intros Htables Hlen.
  destruct (encode_relationships_loop_content token_to_idx obj_data tables
              rel_data (length rel_data) Htables Hlen (le_n _))
    as (st & Hst & _ & Hpred & Hrel & Hobj & Hpr & Hdup).
  pose proof (emitted_same_length
                (spec_verdicts token_to_idx tables rel_data)) as Hsame.
  unfold encode_relationships. rewrite Hst. cbn [mbind result_bind].
  split.
  - intros Hne. rewrite Hpred, Hrel.
    destruct (omap emitted_pair _) as [|pr prs]; [done|].
    destruct (omap emitted_pred _) as [|p ps]; [done|]. simpl. eauto.
  - intros st'. destruct (vstack (encoded_pred st)) as [e|?]; [done|].
    cbn [mbind result_bind]. destruct (vstack (encoded_rel st)) as [e|?]; [done|].
    cbn [mbind result_bind mret result_ret]. intros [= <-].
    split_and!; try done.
    intros Hrange s o Hso. rewrite Hrel in Hso.
    apply list_elem_of_omap in Hso as (v & Hv & Hpair).
    destruct v as [| | |p s0 o0]; try done. injection Hpair as <- <-.
    apply spec_verdicts_elem in Hv as (table & r & Ht & Hv).
    symmetry in Hv. apply spec_verdict_emitted in Hv as (Hs & Ho & _ & Hne).
    rewrite !int32_small by eauto. done.
Qed.

Lemma encode_relationships_filter_witness :
  let token_to_idx : gmap string Z := <["on" := 1]> ∅ in
  let table : gmap Z Z := <[10 := 0]> (<[11 := 0]> (<[12 := 1]> ∅)) in
  let obj_data := [ObjImage 1 [] (Some table)] in
  let rel_data :=
    [RelImage 1 [Rel.mk 10 12 "on"; Rel.mk 10 99 "on"; Rel.mk 10 12 "under";
                 Rel.mk 10 11 "on"]] in
  ∃ st, encode_relationships rel_data token_to_idx obj_data = inr st ∧
        encoded_pred st = [1] ∧ encoded_rel st = [(0, 1)] ∧
        obj_filtered st = 1 ∧ predicate_filtered st = 1 ∧
        duplicate_filtered st = 1.
Proof.
  intros token_to_idx table obj_data rel_data.
  assert (Forall2 (λ oimg t, id_to_idx oimg = Some t) obj_data [table]) as HF
    by (repeat constructor).
  assert (length rel_data ≤ length obj_data)%nat as Hlen by (simpl; lia).
  destruct (encode_relationships_filter token_to_idx obj_data [table] rel_data
              HF Hlen) as [Hex Hall].
  destruct Hex as [st Hst]; [by vm_compute|].
  exists st. split; [exact Hst|].
  destruct (Hall st Hst) as (H1 & H2 & H3 & H4 & H5 & _).
  rewrite H1, H2, H3, H4, H5. by vm_compute.
Defined.

(** *** The range arrays of the relationship encoder *)

Lemma encode_relationships_loop_csr token_to_idx obj_data rel_data (n : nat) st :
  (length rel_data ≤ n)%nat →
  for_each (encode_relationships_image token_to_idx obj_data)
    (imap pair rel_data)
    (RelEnc [] [] (replicate n 0) (replicate n 0) 0 0 0 0 0) = inr st →
  rel_idx_counter st < 2 ^ 31 →
  0 ≤ rel_idx_counter st ∧
  ∃ F L,
    length F = length rel_data ∧ length L = length rel_data ∧
    im_to_first_rel st = F ++ replicate (n - length rel_data) 0 ∧
    im_to_last_rel st = L ++ replicate (n - length rel_data) 0 ∧
    csr_end 0 (zip F L) = Some (rel_idx_counter st).
Proof.
  revert st. induction rel_data as [|img rel_data IH] using rev_ind;
    intros st Hn Hst Hbound.
  { injection Hst as <-. simpl. split; [done|]. exists [], [].
    by rewrite Nat.sub_0_r. }
  rewrite length_app in Hn. simpl in Hn.
  rewrite imap_pair_snoc, for_each_snoc in Hst.
  destruct (for_each _ (imap pair rel_data) _) as [e|st1] eqn:Hst1; [done|].
  cbn [mbind result_bind] in Hst.
  destruct (encode_relationships_image_inv _ _ _ _ _ _ Hst)
    as (oimg & table & Hoimg & Htable).
  rewrite (encode_relationships_image_eq _ _ _ _ _ oimg table) in Hst by done.
  cbv zeta in Hst.
  set (c' := rel_idx_counter st1 + _) in Hst.
  assert (rel_idx_counter st1 ≤ c') as Hmono by (subst c'; lia).
  destruct (getindex _ (length rel_data)) as [e|fi] eqn:Hfi; [done|].
  cbn [mbind result_bind mret result_ret] in Hst.
  destruct (if fi =? c' then _ else _) as [[first' last'] no_rel] eqn:Hif.
  injection Hst as <-. cbn [rel_idx_counter encoded_pred im_to_first_rel
                            im_to_last_rel] in *.
  destruct (IH st1) as (Hcount & F & L & HF & HL & Hfirst & Hlast & Hend);
    [lia|done|lia|].
  rewrite Hfirst in Hif, Hfi. rewrite Hlast in Hif.
  replace (n - length rel_data)%nat with (S (n - length (rel_data ++ [img])))
    in Hif, Hfi by (rewrite length_app; simpl; lia).
  rewrite <- HF in Hif, Hfi.
  destruct (csr_close_step F L (n - length (rel_data ++ [img]))
              (rel_idx_counter st1) c' fi first' last')
    as (F' & L' & HF' & HL' & -> & -> & Hend'); try done; try lia.
  { by destruct (fi =? c'); injection Hif as <- <- _. }
  split; [lia|].
  exists F', L'. rewrite length_app. simpl. split_and!; try done; lia.
Qed.

Lemma encode_relationships_loop_count token_to_idx obj_data rel_data st0 st :
  rel_idx_counter st0 = Z.of_nat (length (encoded_pred st0)) →
  for_each (encode_relationships_image token_to_idx obj_data)
    (imap pair rel_data) st0 = inr st →
  rel_idx_counter st = Z.of_nat (length (encoded_pred st)).
Proof.
  intros H0. revert st.
  induction rel_data as [|img rel_data IH] using rev_ind; intros st Hst.
  { by injection Hst as <-. }
  rewrite imap_pair_snoc, for_each_snoc in Hst.
  destruct (for_each _ (imap pair rel_data) _) as [e|st1] eqn:Hst1; [done|].
  cbn [mbind result_bind] in Hst. specialize (IH st1 eq_refl).
  destruct (encode_relationships_image_inv _ _ _ _ _ _ Hst)
    as (oimg & table & Hoimg & Htable).
  rewrite (encode_relationships_image_eq _ _ _ _ _ oimg table) in Hst by done.
  cbv zeta in Hst.
  destruct (getindex _ (length rel_data)) as [e|fi]; [done|].
  cbn [mbind result_bind mret result_ret] in Hst.
  destruct (fi =? _); injection Hst as <-; simpl;
    rewrite length_app, <- emitted_same_length; lia.
Qed.

(** *** The range arrays of the object encoder *)

Lemma encode_object_counter fl token_to_idx token_counter org_h org_w i sizes
    labels boxes table c o labels' boxes' table' c' :
  encode_object fl token_to_idx token_counter org_h org_w i sizes
    (labels, boxes, table, c) o = inr (labels', boxes', table', c') →
  c ≤ c' ∧ Z.of_nat (length labels') = Z.of_nat (length labels) + (c' - c).
Proof.
  unfold encode_object.
  destruct (pick_label _ _ _) as [e|[name|]]; cbn [mbind result_bind];
    [done| |intros [= <- <- <- <-]; lia].
  destruct (for_each _ sizes boxes) as [e|b]; cbn [mbind result_bind]; [done|].
  destruct (getitem token_to_idx name) as [e|idx]; cbn [mbind result_bind];
    [done|].
  destruct (getkey (Obj.ids o)) as [e|ids]; cbn [mbind result_bind]; [done|].
  intros [= <- <- <- <-]. rewrite length_app. simpl. lia.
Qed.

Lemma encode_object_loop_counter fl token_to_idx token_counter org_h org_w i
    sizes objs labels boxes table c labels' boxes' table' c' :
  for_each (encode_object fl token_to_idx token_counter org_h org_w i sizes) objs
    (labels, boxes, table, c) = inr (labels', boxes', table', c') →
  c ≤ c' ∧ Z.of_nat (length labels') = Z.of_nat (length labels) + (c' - c).
Proof.
  revert labels boxes table c.
  induction objs as [|o objs IH]; intros labels boxes table c.
  { intros [= <- <- <- <-]. lia. }
  cbn [for_each].
  destruct (encode_object _ _ _ _ _ _ _ _ o) as [e|[[[l1 b1] t1] c1]] eqn:Ho;
    cbn [mbind result_bind]; [done|].
  intros Hrest. apply encode_object_counter in Ho. apply IH in Hrest. lia.
Qed.

Lemma encode_objects_image_inv fl token_to_idx token_counter org_h org_w sizes
    st i img st' :
  encode_objects_image fl token_to_idx token_counter org_h org_w sizes st
    (i, img) = inr st' →
  ∃ fi,
    obj_counter st ≤ obj_counter st' ∧
    Z.of_nat (length (encoded_labels st'))
    = Z.of_nat (length (encoded_labels st))
      + (obj_counter st' - obj_counter st) ∧
    getindex (<[i := int32 (obj_counter st)]> (im_to_first_obj st)) i
      = inr fi ∧
    (im_to_first_obj st', im_to_last_obj st')
    = (if fi =? obj_counter st'
       then (<[i := int32 (-1)]>
               (<[i := int32 (obj_counter st)]> (im_to_first_obj st)),
             <[i := int32 (-1)]> (im_to_last_obj st))
       else (<[i := int32 (obj_counter st)]> (im_to_first_obj st),
             <[i := int32 (obj_counter st' - 1)]> (im_to_last_obj st))).
Proof.
  unfold encode_objects_image. intros H.
  destruct (for_each _ (objects img) _) as [e|[[[labels boxes] table] c]]
    eqn:Hloop; cbn [mbind result_bind] in H; [done|].
  apply encode_object_loop_counter in Hloop as [Hle Hlen].
  destruct (getindex _ i) as [e|fi]; cbn [mbind result_bind] in H; [done|].
  exists fi. destruct (fi =? c) eqn:E; injection H as <-; simpl;
    rewrite ?E; split_and!; done.
Qed.

Lemma encode_objects_loop_csr fl token_to_idx token_counter org_h org_w sizes
    boxes0 obj_data0 obj_data (n : nat) st :
  (length obj_data ≤ n)%nat →
  for_each
    (encode_objects_image fl token_to_idx token_counter org_h org_w sizes)
    (imap pair obj_data)
    (ObjEnc [] boxes0 (replicate n 0) (replicate n 0) 0 obj_data0) = inr st →
  obj_counter st < 2 ^ 31 →
  0 ≤ obj_counter st ∧
  ∃ F L,
    length F = length obj_data ∧ length L = length obj_data ∧
    im_to_first_obj st = F ++ replicate (n - length obj_data) 0 ∧
    im_to_last_obj st = L ++ replicate (n - length obj_data) 0 ∧
    csr_end 0 (zip F L) = Some (obj_counter st).
Proof.
  revert st. induction obj_data as [|img obj_data IH] using rev_ind;
    intros st Hn Hst Hbound.
  { injection Hst as <-. simpl. split; [done|]. exists [], [].
    by rewrite Nat.sub_0_r. }
  rewrite length_app in Hn. simpl in Hn.
  rewrite imap_pair_snoc, for_each_snoc in Hst.
  destruct (for_each _ (imap pair obj_data) _) as [e|st1] eqn:Hst1; [done|].
  cbn [mbind result_bind] in Hst.
  apply encode_objects_image_inv in Hst as (fi & Hmono & Hlen & Hfi & Hif).
  destruct (IH st1) as (Hcount & F & L & HF & HL & Hfirst & Hlast & Hend);
    [lia|done|lia|].
  rewrite Hfirst in Hif, Hfi. rewrite Hlast in Hif.
  replace (n - length obj_data)%nat with (S (n - length (obj_data ++ [img])))
    in Hif, Hfi by (rewrite length_app; simpl; lia).
  rewrite <- HF in Hif, Hfi.
  destruct (csr_close_step F L (n - length (obj_data ++ [img]))
              (obj_counter st1) (obj_counter st) fi
              (im_to_first_obj st) (im_to_last_obj st))
    as (F' & L' & HF' & HL' & HF'' & HL'' & Hend'); try done; try lia.
  split; [lia|]. rewrite HF'', HL''.
  exists F', L'. rewrite length_app. simpl. split_and!; try done; lia.
Qed.

Lemma encode_objects_loop_count fl token_to_idx token_counter org_h org_w sizes
    obj_data st0 st :
  obj_counter st0 = Z.of_nat (length (encoded_labels st0)) →
  for_each
    (encode_objects_image fl token_to_idx token_counter org_h org_w sizes)
    (imap pair obj_data) st0 = inr st →
  obj_counter st = Z.of_nat (length (encoded_labels st)).
Proof.
  intros H0. revert st.
  induction obj_data as [|img obj_data IH] using rev_ind; intros st Hst.
  { by injection Hst as <-. }
  rewrite imap_pair_snoc, for_each_snoc in Hst.
  destruct (for_each _ (imap pair obj_data) _) as [e|st1] eqn:Hst1; [done|].
  cbn [mbind result_bind] in Hst. specialize (IH st1 eq_refl).
  apply encode_objects_image_inv in Hst as (fi & Hmono & Hlen & _). lia.
Qed.

(** C2: whenever [encode_objects] or [encode_relationships] returns, and
    the flat array has fewer than 2^31 rows (the range arrays are [int32]),
    the two range arrays have one entry per image; each image has the
    sentinel (-1, -1) or a range with first <= last; a later range starts
    after an earlier one ends; and the ranges, taken in image order,
    enumerate the rows 0, 1, .., n-1 of the flat array, each once. *)
Theorem csr_ranges_partition :
  (∀ fl obj_data token_to_idx token_counter org_h org_w im_long_sizes st,
     encode_objects fl obj_data token_to_idx token_counter org_h org_w
       im_long_sizes = inr st →
     Z.of_nat (length (encoded_labels st)) < 2 ^ 31 →
     csr_partition (length obj_data) (im_to_first_obj st) (im_to_last_obj st)
       (Z.of_nat (length (encoded_labels st)))) ∧
  (∀ rel_data token_to_idx obj_data st,
     encode_relationships rel_data token_to_idx obj_data = inr st →
     Z.of_nat (length (encoded_pred st)) < 2 ^ 31 →
     csr_partition (length rel_data) (im_to_first_rel st) (im_to_last_rel st)
       (Z.of_nat (length (encoded_pred st)))).
Proof.
  split.
  - intros fl obj_data token_to_idx token_counter org_h org_w sizes st.
    unfold encode_objects.
    destruct (for_each _ (imap pair obj_data) _) as [e|st1] eqn:Hloop;
      cbn [mbind result_bind]; [done|].
    destruct (for_each _ (map_to_list _) tt) as [e|?];
      cbn [mbind result_bind]; [done|].
    destruct (vstack (encoded_labels st1)) as [e|?];
      cbn [mbind result_bind mret result_ret]; [done|].
    intros [= <-] Hbound.
    assert (obj_counter st1 = Z.of_nat (length (encoded_labels st1)))
      as Hcount
      by (eapply encode_objects_loop_count; [|exact Hloop]; reflexivity).
    destruct (encode_objects_loop_csr _ _ _ _ _ _ _ _ _ _ _ (le_n _) Hloop)
      as (_ & F & L & HF & HL & Hfirst & Hlast & Hend); [lia|].
    rewrite Nat.sub_diag in Hfirst, Hlast. simpl in Hfirst, Hlast.
    rewrite app_nil_r in Hfirst, Hlast. rewrite Hfirst, Hlast, <- Hcount, <- HF.
    apply csr_end_partition; [lia|done].
  - intros rel_data token_to_idx obj_data st.
    unfold encode_relationships.
    destruct (for_each _ (imap pair rel_data) _) as [e|st1] eqn:Hloop;
      cbn [mbind result_bind]; [done|].
    destruct (vstack (encoded_pred st1)) as [e|?];
      cbn [mbind result_bind]; [done|].
    destruct (vstack (encoded_rel st1)) as [e|?];
      cbn [mbind result_bind mret result_ret]; [done|].
    intros [= <-] Hbound.
    assert (rel_idx_counter st1 = Z.of_nat (length (encoded_pred st1)))
      as Hcount
      by (eapply encode_relationships_loop_count; [|exact Hloop]; reflexivity).
    destruct (encode_relationships_loop_csr _ _ _ _ _ (le_n _) Hloop)
      as (_ & F & L & HF & HL & Hfirst & Hlast & Hend); [lia|].
    rewrite Nat.sub_diag in Hfirst, Hlast. simpl in Hfirst, Hlast.
    rewrite app_nil_r in Hfirst, Hlast. rewrite Hfirst, Hlast, <- Hcount, <- HF.
    apply csr_end_partition; [lia|done].
Qed.

Lemma csr_ranges_partition_witness :
  let token_to_idx : gmap string Z := <["cat" := 1]> (<["dog" := 2]> ∅) in
  let token_counter : gmap string Z := <["cat" := 3]> (<["dog" := 8]> ∅) in
  let obj_data :=
    [ObjImage 1 [Obj.mk 10 10 20 20 1 ["cat"] (Some [1; 7]) None None;
                 Obj.mk 30 10 20 20 2 ["tree"] (Some [2]) None None;
                 Obj.mk 50 10 20 20 3 ["dog"] (Some [3]) None None] None;
     ObjImage 2 [] None;
     ObjImage 3 [Obj.mk 10 10 20 20 4 ["dog"] (Some [4]) None None] None] in
  ∃ st, encode_objects no_rounding obj_data token_to_idx token_counter
          [100; 100; 100] [100; 100; 100] [512; 1024] = inr st ∧
        im_to_first_obj st = [0; -1; 2] ∧ im_to_last_obj st = [1; -1; 2] ∧
        csr_partition 3 (im_to_first_obj st) (im_to_last_obj st) 3.
Proof.
  intros token_to_idx token_counter obj_data.
  destruct (encode_objects no_rounding obj_data token_to_idx token_counter
              [100; 100; 100] [100; 100; 100] [512; 1024]) as [e|st] eqn:E;
    [by vm_compute in E|].
  exists st. split; [done|].
  assert (encoded_labels st = [1; 2; 2]
          ∧ im_to_first_obj st = [0; -1; 2] ∧ im_to_last_obj st = [1; -1; 2])
    as (Hl & Hf & Hla).
  { vm_compute in E. injection E as <-. by vm_compute. }
  split_and!; [done..|].
  destruct csr_ranges_partition as [Hobj _].
  specialize (Hobj _ _ _ _ _ _ _ _ E). rewrite Hl in Hobj. apply Hobj.
  simpl. lia.
Defined.

(** ** Box Merge Engine *)

Lemma concat_fmap_insert {A B} (f : A → list B) (l : list A) (j : nat) (y x : A) :
  l !! j = Some y →
  concat (f <$> <[j := x]> l) ++ f y ≡ₚ concat (f <$> l) ++ f x.
Proof.
  revert j. induction l as [|a l IH]; intros [|j] Hj; simpl in *; try done.
  - injection Hj as ->. rewrite <- !app_assoc.
    rewrite (Permutation_app_comm (concat _) (f y)).
    rewrite (Permutation_app_comm (concat _) (f x)). 
    rewrite !app_assoc. apply Permutation_app_tail, Permutation_app_comm.
  - rewrite <- !app_assoc. apply Permutation_app_head. by apply IH.
Qed.

Lemma Forall2_insert_right {A B} (P : A → B → Prop) l k (j : nat) x y :
  Forall2 P l k → l !! j = Some x → P x y → Forall2 P l (<[j := y]> k).
Proof.
  intros HF Hj HP. rewrite <- (list_insert_id l j x) by done.
  by apply Forall2_insert.
Qed.

Lemma for_each_no_exn {S A} (e : exn) (body : S → A → result S) l s :
  (∀ s a, body s a ≠ inl e) → for_each body l s ≠ inl e.
Proof.
  intros Hbody. revert s. induction l as [|a l IH]; intros s; simpl; [done|].
  destruct (body s a) as [e'|s'] eqn:E; simpl; [|apply IH].
  intros [= ->]. by apply (Hbody s a).
Qed.

Section merge.
Variable fl : Q → Q.
Variable orig : list obj.
Hypothesis orig_fresh : Forall fresh orig.

#[local] Abbreviation slot := (slot fl orig).
#[local] Abbreviation mark_inv := (mark_inv fl orig).
#[local] Abbreviation inner_inv := (inner_inv fl orig).

Lemma slot_unmarked_absent o s :
  fresh o → slot o s → Obj.M_TYPE s = None → Obj.mobjs s = None → s = o.
Proof. intros [Hm Hl] [] ??; simpl in *; congruence. Qed.

Lemma slot_object_id o s : slot o s → Obj.object_id s = Obj.object_id o.
Proof. by intros []. Qed.

Lemma slot_marked_absent o s :
  fresh o → slot o s → is_Some (Obj.M_TYPE s) → Obj.mobjs s = None.
Proof.
  intros [Hm Hl] Hs [t' Ht]. destruct Hs; simpl in *; congruence.
Qed.

Lemma orig_lookup_fresh (k : nat) o : orig !! k = Some o → fresh o.
Proof. intros H. eapply Forall_lookup_1; eauto. Qed.

Lemma mark_step_inv (i j : nat) oi S merged S' merged' :
  (i < j)%nat → inner_inv i oi S merged →
  mark_step fl i (S, merged) j = inr (S', merged') →
  inner_inv i oi S' merged'.
Proof.
  intros Hij [Hslots Hbelow Habove [HSi Hoi] Hmerged Hperm]. unfold mark_step.
  destruct (getindex S j) as [e|oj] eqn:Hj; cbn [mbind result_bind]; [done|].
  apply getindex_inv in Hj.
  destruct (decide (is_Some (Obj.M_TYPE oj))) as [Hm|Hm].
  { intros [= <- <-]. by split. }
  rewrite (getindex_Some _ _ _ HSi). cbn [mbind result_bind].
  destruct (overlap fl oi oj) as [e|t] eqn:Hov; cbn [mbind result_bind];
    [done|].
  destruct (Z.gtb_spec t 0) as [Ht|Ht]; [|intros [= <- <-]; by split].
  intros [= <- <-].
  destruct (Forall2_lookup_r _ _ _ _ _ Hslots Hj) as (o & Ho & Hslot).
  assert (Obj.M_TYPE oj = None) as Hmn.
  { destruct (Obj.M_TYPE oj); [by destruct Hm|done]. }
  assert (oj = o) as ->.
  { eapply slot_unmarked_absent; eauto using orig_lookup_fresh.
    eapply Habove; eauto. lia. }
  split.
  - eapply Forall2_insert_right; [done..|].
    eapply slot_absorbed; eauto. by eapply list_elem_of_lookup_2.
  - intros k s Hk Hlt Hs. destruct (decide (k = j)) as [->|Hne]; [lia|].
    rewrite list_lookup_insert_ne in Hk by done. eauto.
  - intros k s Hk Hle. destruct (decide (k = j)) as [->|Hne].
    + rewrite list_lookup_insert_eq in Hk by (by eapply lookup_lt_Some).
      injection Hk as <-. simpl. eapply Habove; eauto; lia.
    + rewrite list_lookup_insert_ne in Hk by done. eauto.
  - split; [by rewrite list_lookup_insert_ne by lia|done].
  - apply Forall_app. split; [done|]. constructor; [|done].
    exists o, t. split_and!; try done. by eapply list_elem_of_lookup_2.
  - pose proof (concat_fmap_insert marked_id S j o (Obj.set_M_TYPE o t) Hj)
      as P1.
    pose proof (concat_fmap_insert absorbed_ids S j o (Obj.set_M_TYPE o t) Hj)
      as P2.
    unfold marked_id at 2 4 in P1. unfold absorbed_ids at 2 4 in P2.
    rewrite Hmn in P1, P2. simpl in P1, P2.
    assert (Obj.mobjs o = None) as Hl by (eapply Habove; eauto; lia).
    rewrite Hl in P2. rewrite !app_nil_r in P1, P2.
    rewrite app_nil_r in P2.
    rewrite P1, P2, Hperm, fmap_app. simpl. by rewrite app_assoc.
Qed.

Lemma mark_inner_inv (i : nat) oi (js : list nat) S merged S' merged' :
  Forall (λ j, i < j)%nat js → inner_inv i oi S merged →
  for_each (mark_step fl i) js (S, merged) = inr (S', merged') →
  inner_inv i oi S' merged'.
Proof.
  intros Hjs. revert S merged.
  induction Hjs as [|j js Hj _ IH]; intros S merged Hinv.
  { by intros [= <- <-]. }
  cbn [for_each].
  destruct (mark_step fl i (S, merged) j) as [e|[S1 merged1]] eqn:Hstep;
    cbn [mbind result_bind]; [done|].
  apply IH. by eapply mark_step_inv.
Qed.

Lemma fresh_contrib l :
  Forall fresh l →
  concat (marked_id <$> l) = [] ∧ concat (absorbed_ids <$> l) = [].
Proof.
  induction 1 as [|o l [Hm Hl] _ [IH1 IH2]]; [done|].
  rewrite !fmap_cons. cbn [concat]. rewrite IH1, IH2.
  unfold marked_id, absorbed_ids. by rewrite Hm, Hl.
Qed.

Lemma mark_seed_inv (n i : nat) S S' :
  mark_inv i S → mark_seed fl n S i = inr S' → mark_inv (Datatypes.S i) S'.
Proof.
  intros [Hslots Hbelow Habove Hperm]. unfold mark_seed.
  destruct (getindex S i) as [e|oi] eqn:Hi; cbn [mbind result_bind]; [done|].
  apply getindex_inv in Hi.
  destruct (decide (is_Some (Obj.M_TYPE oi))) as [Hm|Hm].
  { intros [= <-]. split; try done.
    - intros k s Hk Hlt Hs. destruct (decide (k = i)) as [->|Hne].
      + rewrite Hi in Hk. injection Hk as <-. rewrite Hs in Hm.
        by destruct Hm.
      + eapply Hbelow; eauto. lia.
    - intros k s Hk Hle. eapply Habove; eauto. lia. }
  assert (Obj.M_TYPE oi = None) as Hmn.
  { destruct (Obj.M_TYPE oi); [by destruct Hm|done]. }
  destruct (Forall2_lookup_r _ _ _ _ _ Hslots Hi) as (o & Ho & Hslot).
  assert (oi = o) as ->.
  { eapply slot_unmarked_absent; eauto using orig_lookup_fresh. }
  assert (inner_inv i o S []) as Hinner.
  { split; try done. by rewrite app_nil_r. }
  destruct (for_each _ _ (S, [])) as [e|[S1 merged]] eqn:Hloop;
    cbn [mbind result_bind]; [done|].
  apply mark_inner_inv with (oi := o) in Hloop; [|by apply Forall_seq; lia|done].
  destruct Hloop as [Hslots1 Hbelow1 Habove1 [HSi Hoi] Hmerged Hperm1].
  rewrite (getindex_Some _ _ _ HSi). cbn [mbind result_bind mret result_ret].
  intros [= <-]. split.
  - eapply Forall2_insert_right; [done..|]. by apply slot_seed.
  - intros k s Hk Hlt Hs. destruct (decide (k = i)) as [->|Hne].
    + rewrite list_lookup_insert_eq in Hk by (by eapply lookup_lt_Some).
      injection Hk as <-. simpl. eauto.
    + rewrite list_lookup_insert_ne in Hk by done.
      eapply Hbelow1; eauto. lia.
  - intros k s Hk Hle. rewrite list_lookup_insert_ne in Hk by lia.
    eapply Habove1; eauto. lia.
  - pose proof (concat_fmap_insert marked_id S1 i o
                  (Obj.set_mobjs o (Some merged)) HSi) as P1.
    pose proof (concat_fmap_insert absorbed_ids S1 i o
                  (Obj.set_mobjs o (Some merged)) HSi) as P2.
    unfold marked_id at 2 4 in P1. unfold absorbed_ids at 2 4 in P2.
    simpl in P1, P2. rewrite Hmn in P1, P2.
    assert (Obj.mobjs o = None) as Hl by (eapply Habove; eauto).
    rewrite Hl in P2. rewrite !app_nil_r in P1, P2.
    by rewrite P1, P2, app_nil_r, Hperm1.
Qed.

Lemma mark_loop_inv (n i len : nat) S S' :
  mark_inv i S →
  for_each (mark_seed fl n) (seq i len) S = inr S' →
  mark_inv (i + len) S'.
Proof.
  revert i S. induction len as [|len IH]; intros i S Hinv.
  { intros [= <-]. by rewrite Nat.add_0_r. }
  cbn [seq for_each].
  destruct (mark_seed fl n S i) as [e|S1] eqn:Hseed; cbn [mbind result_bind];
    [done|].
  intros Hrest. apply mark_seed_inv in Hseed; [|done].
  replace (i + Datatypes.S len)%nat with (Datatypes.S i + len)%nat by lia.
  by eapply IH.
Qed.

(** After the marking pass every object is either marked, without a list
    of its own, or a seed with its list of partners; and the marked objects
    are, up to order, the partners of the seeds. *)
Lemma mark_objects_inv S :
  mark_objects fl orig = inr S → mark_inv (length orig) S.
Proof.
  unfold mark_objects. intros H.
  apply (mark_loop_inv _ 0) in H; [done|].
  destruct (fresh_contrib orig orig_fresh) as [E1 E2].
  split.
  - apply Forall2_same_length_lookup_2; [done|].
    intros k o o' Ho Ho'. assert (o' = o) as -> by congruence. constructor.
  - intros k s Hk Hlt. lia.
  - intros k s Hk _. by destruct (orig_lookup_fresh k s Hk).
  - by rewrite E1, E2.
Qed.

Lemma mark_inv_settled S : mark_inv (length orig) S → Forall settled S.
Proof.
  intros [Hslots Hbelow Habove Hperm]. apply Forall_lookup_2. intros k s Hk.
  destruct (Forall2_lookup_r _ _ _ _ _ Hslots Hk) as (o & Ho & Hslot).
  pose proof (orig_lookup_fresh k o Ho) as Hfresh.
  destruct (Obj.M_TYPE s) as [t|] eqn:Hm.
  - left. split; [done|]. eapply slot_marked_absent; eauto; by rewrite Hm.
  - right. split; [done|].
    destruct (Hbelow k s Hk) as [l Hl]; [by eapply lookup_lt_Some|done|].
    exists l. split; [done|].
    destruct Hslot as [|seed t|l' Hl']; destruct Hfresh; simpl in *;
      try congruence.
    assert (l' = l) as -> by congruence.
    eapply Forall_impl; [exact Hl'|]. intros mo (oj & t & _ & _ & _ & ->).
    by eexists.
Qed.

Lemma mark_inv_ids S :
  mark_inv (length orig) S →
  concat ((λ s, seed_id s ++ absorbed_ids s) <$> S) ≡ₚ Obj.object_id <$> orig.
Proof.
  intros [Hslots Hbelow Habove Hperm].
  assert (∀ l : list obj,
            concat ((λ s, seed_id s ++ absorbed_ids s) <$> l)
            ≡ₚ concat (seed_id <$> l) ++ concat (absorbed_ids <$> l)) as Hsplit.
  { induction l as [|a l IH]; [done|]. rewrite !fmap_cons. cbn [concat].
    rewrite IH, <- !app_assoc. apply Permutation_app_head.
    rewrite !app_assoc. apply Permutation_app_tail, Permutation_app_comm. }
  assert (∀ l : list obj,
            concat (seed_id <$> l) ++ concat (marked_id <$> l)
            ≡ₚ Obj.object_id <$> l) as Hall.
  { induction l as [|a l IH]; [done|]. rewrite !fmap_cons. cbn [concat].
    rewrite <- IH. unfold seed_id at 1, marked_id at 1.
    destruct (Obj.M_TYPE a); simpl; [|done].
    by rewrite <- Permutation_middle. }
  rewrite Hsplit, <- Hperm, Hall.
  assert (Obj.object_id <$> S = Obj.object_id <$> orig) as ->; [|done].
  clear -Hslots. induction Hslots as [|o s l1 l2 Hs _ IH]; [done|].
  rewrite !fmap_cons, IH. f_equal. by apply slot_object_id.
Qed.

End merge.

(** *** The merge pass *)

Section merge_pass.
Variable fl : Q → Q.

Lemma absorb_marked ids names dims pt mo t :
  Obj.M_TYPE mo = Some t →
  absorb (ids, names, dims, pt) mo
  = inr (ids ++ [Obj.object_id mo], names ++ Obj.names mo,
         dims ++ [to_x1y1x2y2 mo], if t >? pt then t else pt).
Proof. intros Ht. unfold absorb. by rewrite Ht. Qed.

Lemma absorb_loop l ids names dims pt :
  Forall (λ mo, is_Some (Obj.M_TYPE mo)) l →
  for_each absorb l (ids, names, dims, pt)
  = inr (ids ++ (Obj.object_id <$> l), names ++ concat (Obj.names <$> l),
         dims ++ (to_x1y1x2y2 <$> l),
         foldl (λ p mo, match Obj.M_TYPE mo with
                        | Some t => if t >? p then t else p
                        | None => p
                        end) pt l).
Proof.
  intros Hl. revert ids names dims pt.
  induction Hl as [|mo l [t Ht] _ IH]; intros ids names dims pt.
  { simpl. by rewrite !app_nil_r. }
  cbn [for_each]. rewrite (absorb_marked _ _ _ _ _ t Ht).
  cbn [mbind result_bind]. rewrite IH.
  rewrite !fmap_cons. cbn [concat foldl]. rewrite Ht.
  by rewrite <- !app_assoc.
Qed.

Lemma merge_object_seed filtered c nm s l :
  Obj.M_TYPE s = None → Obj.mobjs s = Some (Some l) →
  Forall (λ mo, is_Some (Obj.M_TYPE mo)) l →
  merge_object fl (filtered, c, nm) s
  = (n ← getitem nm (prominent l);
     mret (filtered ++ [merged_seed fl s l],
           c + Z.of_nat (length (Obj.object_id s :: (Obj.object_id <$> l))),
           <[prominent l := n + Z.of_nat (length l)]> nm)).
Proof.
  intros Hm Hl Hmarked. unfold merge_object. rewrite Hm, Hl.
  cbn [getkey mbind result_bind mret result_ret].
  rewrite absorb_loop by done. cbn [mbind result_bind]. done.
Qed.

Lemma merge_object_absorbed st s :
  is_Some (Obj.M_TYPE s) → Obj.mobjs s = None →
  merge_object fl st s = inr st.
Proof.
  intros [t Hm] Hl. unfold merge_object. destruct st as [[f c] nm].
  rewrite Hm, Hl. by rewrite decide_False by (by intros [??]).
Qed.

Lemma merge_object_settled st s :
  settled s →
  merge_object fl st s ≠ inl AssertionError ∧
  ∀ f c nm f' c' nm', st = (f, c, nm) →
    merge_object fl st s = inr (f', c', nm') →
    f' = f ++ survivor fl s ∧
    c' = c + Z.of_nat (length (seed_id s ++ absorbed_ids s)).
Proof.
  intros [[Hm Hl]|(Hm & l & Hl & Hmarked)].
  - rewrite merge_object_absorbed by done. split; [done|].
    intros f c nm f' c' nm' -> [= <- <- <-].
    unfold survivor, seed_id, absorbed_ids. destruct Hm as [t ->].
    simpl. rewrite app_nil_r. split; [done|lia].
  - destruct st as [[f c] nm]. rewrite (merge_object_seed _ _ _ _ l) by done.
    unfold getitem. destruct (nm !! prominent l) as [n|]; [|done].
    cbn [mbind result_bind mret result_ret]. split; [done|].
    intros f0 c0 nm0 f' c' nm' [= <- <- <-] [= <- <- <-].
    unfold survivor, seed_id, absorbed_ids. rewrite Hm, Hl. done.
Qed.

Lemma merge_loop S f c nm :
  Forall settled S →
  for_each (merge_object fl) S (f, c, nm) ≠ inl AssertionError ∧
  ∀ f' c' nm',
    for_each (merge_object fl) S (f, c, nm) = inr (f', c', nm') →
    f' = f ++ concat (survivor fl <$> S) ∧
    c' = c + Z.of_nat (length (concat ((λ s, seed_id s ++ absorbed_ids s)
                                         <$> S))).
Proof.
  intros HS. revert f c nm. induction HS as [|s S Hs _ IH]; intros f c nm.
  { split; [done|]. intros f' c' nm' [= <- <- <-]. simpl.
    rewrite app_nil_r. split; [done|lia]. }
  cbn [for_each].
  destruct (merge_object_settled (f, c, nm) s Hs) as [Hno Hstep].
  destruct (merge_object fl (f, c, nm) s) as [e|[[f1 c1] nm1]] eqn:E;
    cbn [mbind result_bind].
  { split; [congruence|done]. }
  destruct (Hstep f c nm f1 c1 nm1 eq_refl eq_refl) as [-> ->].
  destruct (IH (f ++ survivor fl s)
               (c + Z.of_nat (length (seed_id s ++ absorbed_ids s))) nm1)
    as [Hno' Hrest].
  split; [done|]. intros f' c' nm' H. destruct (Hrest _ _ _ H) as [-> ->].
  rewrite !fmap_cons. cbn [concat]. rewrite <- app_assoc, (length_app (_ ++ _)).
  split; [done|lia].
Qed.

Lemma survivors_ids S :
  Forall settled S →
  concat (ids_of <$> concat (survivor fl <$> S))
  = concat ((λ s, seed_id s ++ absorbed_ids s) <$> S).
Proof.
  induction 1 as [|s S Hs _ IH]; [done|].
  rewrite !fmap_cons. cbn [concat]. rewrite fmap_app, concat_app, IH. f_equal.
  unfold survivor, seed_id, absorbed_ids.
  destruct Hs as [[[t Hm] Hl]|(Hm & l & Hl & _)]; rewrite Hm; [done|].
  rewrite Hl. simpl. by rewrite app_nil_r.
Qed.

End merge_pass.

(** *** No assertion fails *)

Section merge_image.
Variable fl : Q → Q.

Lemma IoU_no_assert b1 b2 : IoU fl b1 b2 ≠ inl AssertionError.
Proof.
  unfold IoU. destruct (_ || _); [done|]. by destruct (_ =? 0).
Qed.

Lemma same_primary_name_no_assert o1 o2 :
  same_primary_name o1 o2 ≠ inl AssertionError.
Proof.
  unfold same_primary_name, getindex.
  destruct (Obj.names o1 !! 0%nat); [|done].
  by destruct (Obj.names o2 !! 0%nat).
Qed.

Lemma overlap_no_assert o1 o2 : overlap fl o1 o2 ≠ inl AssertionError.
Proof.
  unfold overlap.
  pose proof (IoU_no_assert (to_x1y1x2y2 o1) (to_x1y1x2y2 o2)) as HI.
  pose proof (same_primary_name_no_assert o1 o2) as HN.
  destruct (IoU fl _ _) as [e|iou]; cbn [mbind result_bind]; [congruence|].
  destruct (_ || Qgtb iou _); [done|].
  destruct (inside _ _ || inside _ _), (Qgtb iou _),
    (same_primary_name o1 o2) as [e|[]];
    cbn [mbind result_bind mret result_ret];
    first [by inversion 1|intros [= ->]; by apply HN].
Qed.

Lemma mark_step_no_assert i st j : mark_step fl i st j ≠ inl AssertionError.
Proof.
  unfold mark_step, getindex. destruct st as [S merged].
  destruct (S !! j) as [oj|]; cbn [mbind result_bind mret result_ret]; [|done].
  destruct (decide _); [done|].
  destruct (S !! i) as [oi|]; cbn [mbind result_bind mret result_ret]; [|done].
  pose proof (overlap_no_assert oi oj) as HO.
  destruct (overlap fl oi oj) as [e|t]; cbn [mbind result_bind]; [congruence|].
  by destruct (t >? 0).
Qed.

Lemma mark_seed_no_assert n S i : mark_seed fl n S i ≠ inl AssertionError.
Proof.
  unfold mark_seed, getindex.
  destruct (S !! i) as [oi|]; cbn [mbind result_bind mret result_ret]; [|done].
  destruct (decide _); [done|].
  pose proof (for_each_no_exn AssertionError (mark_step fl i)
                (seq (Datatypes.S i) (n - Datatypes.S i)) (S, [])
                (mark_step_no_assert i)) as HL.
  destruct (for_each _ _ _) as [e|[S1 merged]]; cbn [mbind result_bind];
    [congruence|].
  by destruct (S1 !! i).
Qed.

Lemma mark_objects_no_assert objs : mark_objects fl objs ≠ inl AssertionError.
Proof. apply for_each_no_exn, mark_seed_no_assert. Qed.

(** One image: no assertion fails, and the merged list is made of the
    survivors of the marked list, whose ids are those of the input. *)
Lemma merge_image_survivors num_merged objs :
  Forall fresh objs →
  merge_image fl num_merged objs ≠ inl AssertionError ∧
  ∀ filtered num_merged',
    merge_image fl num_merged objs = inr (filtered, num_merged') →
    ∃ S, mark_objects fl objs = inr S ∧
         mark_inv fl objs (length objs) S ∧
         filtered = concat (survivor fl <$> S).
Proof.
  intros Hfresh. unfold merge_image.
  pose proof (mark_objects_no_assert objs) as HM.
  destruct (mark_objects fl objs) as [e|S] eqn:Hmark; cbn [mbind result_bind].
  { split; [congruence|done]. }
  pose proof (mark_objects_inv fl objs Hfresh S Hmark) as Hinv.
  pose proof (mark_inv_settled fl objs Hfresh S Hinv) as Hsettled.
  pose proof (mark_inv_ids fl objs S Hinv) as Hids.
  destruct (merge_loop fl S [] 0 num_merged Hsettled) as [Hno Hloop].
  destruct (for_each (merge_object fl) S _) as [e|[[f c] nm]];
    cbn [mbind result_bind].
  { split; [congruence|done]. }
  destruct (Hloop f c nm eq_refl) as [Hf Hc]. subst f c.
  assert (0 + Z.of_nat (length (concat ((λ s, seed_id s ++ absorbed_ids s)
                                         <$> S)))
          = Z.of_nat (length objs)) as ->
    by (rewrite Hids, length_fmap; lia).
  rewrite Z.eqb_refl.
  split; [done|]. intros filtered nm' H.
  unfold mret, result_ret in H. injection H as <- <-. eauto.
Qed.

End merge_image.

(** *** Conservation of the objects *)

Lemma survivor_has_ids fl S :
  Forall (λ o, is_Some (Obj.ids o)) (concat (survivor fl <$> S)).
Proof.
  induction S as [|s S IH]; [constructor|].
  rewrite fmap_cons. cbn [concat]. apply Forall_app. split; [|done].
  unfold survivor. destruct (Obj.M_TYPE s); [constructor|].
  destruct (Obj.mobjs s) as [[l|]|]; repeat constructor. by eexists.
Qed.

(** C1: on images whose objects are as ingestion leaves them (no
    ['M_TYPE'], no ['mobjs']), neither assertion of [merge_duplicate_boxes]
    fails; and when it returns, every image keeps its id, every surviving
    object has its ['ids'], the ids of the surviving objects are, taken
    together, the object ids of the image before merging, each as often as
    it occurred there, and so the lengths of the ['ids'] lists add up to the
    number of objects before merging. *)
Theorem merge_duplicate_boxes_conservation (fl : Q → Q)
    (data : list obj_image) :
  Forall (λ img, Forall fresh (objects img)) data →
  merge_duplicate_boxes fl data ≠ inl AssertionError ∧
  ∀ data' num_merged,
    merge_duplicate_boxes fl data = inr (data', num_merged) →
    Forall2 (λ img img',
               image_id img' = image_id img ∧
               Forall (λ o, is_Some (Obj.ids o)) (objects img') ∧
               concat (ids_of <$> objects img')
               ≡ₚ Obj.object_id <$> objects img ∧
               sum_list (length ∘ ids_of <$> objects img')
               = length (objects img))
      data data'.
Proof.
  unfold merge_duplicate_boxes. generalize (<[1:=0]> (<[2:=0]> (<[3:=0]> (∅ : gmap Z Z)))).
  intros nm Hdata.
  assert (∀ done,
    for_each (merge_duplicate_boxes_step fl) data (done, nm)
      ≠ inl AssertionError ∧
    ∀ data' nm',
      for_each (merge_duplicate_boxes_step fl) data (done, nm)
        = inr (data', nm') →
      ∃ new, data' = done ++ new ∧
        Forall2 (λ img img',
                   image_id img' = image_id img ∧
                   Forall (λ o, is_Some (Obj.ids o)) (objects img') ∧
                   concat (ids_of <$> objects img')
                   ≡ₚ Obj.object_id <$> objects img ∧
                   sum_list (length ∘ ids_of <$> objects img')
                   = length (objects img))
          data new) as Hgen.
  { revert nm. induction Hdata as [|img data Himg _ IH]; intros nm done.
    { split; [done|]. intros data' nm' [= <- <-]. exists [].
      by rewrite app_nil_r. }
    cbn [for_each].
    change (merge_duplicate_boxes_step fl (done, nm) img)
      with (merge_image fl nm (objects img)
            ≫= λ '(filtered_objs, num_merged'),
                 mret (done ++ [ObjImage (image_id img) filtered_objs
                                  (id_to_idx img)], num_merged')).
    destruct (merge_image_survivors fl nm (objects img) Himg) as [Hno Hsurv].
    destruct (merge_image fl nm (objects img)) as [e|[filtered nm1]] eqn:E;
      cbn [mbind result_bind mret result_ret].
    { split; [|done]. intros [= ->]. by apply Hno. }
    destruct (Hsurv filtered nm1 eq_refl) as (S & Hmark & Hinv & ->).
    destruct (IH nm1 (done ++ [ObjImage (image_id img)
                                 (concat (survivor fl <$> S)) (id_to_idx img)]))
      as [Hno' Hrest].
    split; [done|]. intros data' nm' H.
    destruct (Hrest data' nm' H) as (new & -> & HF).
    eexists (_ :: new). rewrite <- app_assoc. split; [done|].
    constructor; [|done]. cbn [image_id objects].
    pose proof (mark_inv_settled fl _ Himg S Hinv) as Hsettled.
    assert (concat (ids_of <$> concat (survivor fl <$> S))
            ≡ₚ Obj.object_id <$> objects img) as Hperm.
    { rewrite survivors_ids by done. by apply (mark_inv_ids fl). }
    split_and!; [done|apply survivor_has_ids|done|].
    rewrite list_fmap_compose, <- length_concat, Hperm. apply length_fmap. }
  destruct (Hgen []) as [Hno Hall]. split; [done|].
  intros data' nm' H. destruct (Hall data' nm' H) as (new & -> & HF). done.
Qed.

Lemma merge_duplicate_boxes_conservation_witness :
  let data :=
    [ObjImage 1 [Obj.mk 10 10 20 20 1 ["cat"] None None None;
                 Obj.mk 12 12 18 18 2 ["cat"] None None None;
                 Obj.mk 0 0 100 100 3 ["dog"] None None None;
                 Obj.mk 0 0 101 100 4 ["rug"] None None None;
                 Obj.mk 200 200 10 10 5 ["cup"] None None None] None] in
  ∃ data' num_merged,
    merge_duplicate_boxes no_rounding data = inr (data', num_merged) ∧
    (ids_of <$> concat (objects <$> data')) = [[1; 2]; [3; 4]; [5]] ∧
    Forall2 (λ img img',
               sum_list (length ∘ ids_of <$> objects img')
               = length (objects img)) data data'.
Proof.
  intros data.
  destruct (merge_duplicate_boxes no_rounding data) as [e|[data' nm]] eqn:E;
    [by vm_compute in E|].
  exists data', nm. split; [done|]. split.
  { vm_compute in E. injection E as <- <-. reflexivity. }
  destruct (merge_duplicate_boxes_conservation no_rounding data) as [_ H].
  { repeat constructor. }
  eapply Forall2_impl; [exact (H data' nm E)|]. simpl. tauto.
Defined.

(** *** The rectangle of a merge group *)






Section rectangle.
Variable fl : Q → Q.
Hypothesis fl_model : float_model fl.




End rectangle.

Lemma overlap_range fl o1 o2 t :
  overlap fl o1 o2 = inr t → t = 0 ∨ t = 1 ∨ t = 2 ∨ t = 3.
Proof.
  unfold overlap.
  destruct (IoU fl _ _) as [e|iou]; cbn [mbind result_bind]; [done|].
  destruct (_ || Qgtb iou _); [intros [= <-]; auto|].
  destruct (inside _ _ || inside _ _), (Qgtb iou _),
    (same_primary_name o1 o2) as [e|[]];
    cbn [mbind result_bind mret result_ret]; intros [= <-]; auto.
Qed.

Lemma survivors_groups fl orig L S :
  Forall fresh L → (∀ o, o ∈ L → o ∈ orig) → Forall2 (slot fl orig) L S →
  ∃ groups : list (obj * list obj),
    Forall2 (λ g o',
               g.1 ∈ orig ∧
               Forall (λ mo, ∃ oj t, oj ∈ orig ∧ overlap fl g.1 oj = inr t
                                     ∧ 0 < t ∧ mo = Obj.set_M_TYPE oj t) g.2 ∧
               o' = merged_seed fl g.1 g.2)
      groups (concat (survivor fl <$> S)).
Proof.
  intros Hfresh Hsub HF. revert Hfresh Hsub.
  induction HF as [|o s L S Hslot _ IH]; intros Hfresh Hsub.
  { exists []. constructor. }
  apply Forall_cons in Hfresh as [[Hm Hl] Hfresh].
  destruct IH as [groups Hgroups]; [done|by intros; apply Hsub; right|].
  rewrite fmap_cons. cbn [concat].
  destruct Hslot as [|seed t Hseed Hov Ht|l Hpartners].
  - exists groups. unfold survivor. by rewrite Hm, Hl.
  - exists groups. unfold survivor. done.
  - exists ((o, l) :: groups). unfold survivor. simpl. rewrite Hm.
    constructor; [|done]. simpl. split_and!; [apply Hsub; left|done|done].
Qed.




(** *** The merge engine returns *)

Lemma span_range lo1 lo2 hi1 hi2 :
  Z.abs lo1 ≤ 16384 → Z.abs lo2 ≤ 16384 →
  Z.abs hi1 ≤ 16384 → Z.abs hi2 ≤ 16384 → lo2 < hi1 →
  0 < Z.max hi1 hi2 - Z.min lo1 lo2 ≤ 32768.
Proof. lia. Qed.

Lemma small_product w h :
  0 < w ≤ 32768 → 0 < h ≤ 32768 → 0 < w * h < 2 ^ 31.
Proof. intros Hw Hh. change (2 ^ 31) with 2147483648. nia. Qed.

Section merge_returns.
Variable fl : Q → Q.

Lemma IoU_regular o1 o2 :
  regular o1 → regular o2 →
  ∃ q, IoU fl (to_x1y1x2y2 o1) (to_x1y1x2y2 o2) = inr q.
Proof.
  intros (_ & Hx1 & Hy1 & Hx1' & Hy1') (_ & Hx2 & Hy2 & Hx2' & Hy2').
  assert (2 ^ 14 = 16384) as E14 by reflexivity.
  assert (2 ^ 31 = 2147483648) as E31 by reflexivity.
  unfold to_x1y1x2y2, IoU.
  rewrite !(int32_small (Obj.x _)), !(int32_small (Obj.y _)),
    !(int32_small (Obj.x _ + _)), !(int32_small (Obj.y _ + _)) by lia.
  cbn [v0 v1 v2 v3]. clear E31.
  generalize dependent (Obj.x o1 + Obj.w o1). intros a2 Ha2.
  generalize dependent (Obj.y o1 + Obj.h o1). intros a3 Ha3.
  generalize dependent (Obj.x o2 + Obj.w o2). intros b2 Hb2.
  generalize dependent (Obj.y o2 + Obj.h o2). intros b3 Hb3.
  generalize dependent (Obj.x o1). intros a0 Ha0.
  generalize dependent (Obj.y o1). intros a1 Ha1.
  generalize dependent (Obj.x o2). intros b0 Hb0.
  generalize dependent (Obj.y o2). intros b1 Hb1.
  destruct (Z.leb_spec a2 b0); [simpl; eauto|].
  destruct (Z.leb_spec a3 b1); [simpl; eauto|].
  rewrite !Z.geb_leb.
  destruct (Z.leb_spec b2 a0); [simpl; eauto|].
  destruct (Z.leb_spec b3 a1); [simpl; eauto|].
  cbn [orb].
  assert (2 ^ 31 = 2147483648) as E31 by reflexivity.
  assert (0 < Z.max a2 b2 - Z.min a0 b0 ≤ 32768) as Hw
    by (apply span_range; lia).
  assert (0 < Z.max a3 b3 - Z.min a1 b1 ≤ 32768) as Hh
    by (apply span_range; lia).
  rewrite (int32_small (Z.max a2 b2 - Z.min a0 b0)) by lia.
  rewrite (int32_small (Z.max a3 b3 - Z.min a1 b1)) by lia.
  pose proof (small_product _ _ Hw Hh) as Hwh.
  rewrite (int32_small ((Z.max a2 b2 - Z.min a0 b0)
                        * (Z.max a3 b3 - Z.min a1 b1))) by lia.
  destruct (Z.eqb_spec ((Z.max a2 b2 - Z.min a0 b0)
                        * (Z.max a3 b3 - Z.min a1 b1)) 0) as [E|_]; [lia|].
  eauto.
Qed.

Lemma same_primary_name_regular o1 o2 :
  regular o1 → regular o2 → ∃ b, same_primary_name o1 o2 = inr b.
Proof.
  intros [H1 _] [H2 _]. unfold same_primary_name, getindex.
  destruct (Obj.names o1) as [|n1 ?]; [done|].
  destruct (Obj.names o2) as [|n2 ?]; [done|]. simpl. eauto.
Qed.

Lemma overlap_regular o1 o2 :
  regular o1 → regular o2 → ∃ t, overlap fl o1 o2 = inr t.
Proof.
  intros H1 H2. unfold overlap.
  destruct (IoU_regular o1 o2 H1 H2) as [iou ->].
  destruct (same_primary_name_regular o1 o2 H1 H2) as [b ->].
  cbn [mbind result_bind].
  destruct (_ || Qgtb iou _); [eauto|].
  destruct (inside _ _ || inside _ _), (Qgtb iou _), b;
    cbn [mbind result_bind mret result_ret]; eauto.
Qed.

Variable orig : list obj.
Hypothesis orig_fresh : Forall fresh orig.
Hypothesis orig_regular : Forall regular orig.

Lemma mark_step_returns (i j : nat) oi S merged :
  (i < j < length orig)%nat → inner_inv fl orig i oi S merged →
  ∃ st', mark_step fl i (S, merged) j = inr st'.
Proof.
  intros Hij [Hslots Hbelow Habove [HSi Hoi] Hmerged Hperm].
  pose proof (Forall2_length _ _ _ Hslots) as Hlen.
  destruct (lookup_lt_is_Some_2 S j) as [oj Hj]; [lia|].
  unfold mark_step. rewrite (getindex_Some _ _ _ Hj). cbn [mbind result_bind].
  destruct (decide (is_Some (Obj.M_TYPE oj))) as [Hm|Hm]; [eauto|].
  rewrite (getindex_Some _ _ _ HSi). cbn [mbind result_bind].
  destruct (Forall2_lookup_r _ _ _ _ _ Hslots Hj) as (o & Ho & Hslot).
  assert (oj = o) as ->.
  { eapply slot_unmarked_absent; eauto.
    - eapply Forall_lookup_1; eauto.
    - destruct (Obj.M_TYPE oj); [by destruct Hm|done].
    - eapply Habove; eauto. lia. }
  destruct (overlap_regular oi o) as [t ->].
  { eapply Forall_lookup_1; eauto. }
  { eapply Forall_lookup_1; eauto. }
  cbn [mbind result_bind]. destruct (t >? 0); eauto.
Qed.

Lemma mark_inner_returns (i : nat) oi (js : list nat) S merged :
  Forall (λ j, i < j < length orig)%nat js →
  inner_inv fl orig i oi S merged →
  ∃ st', for_each (mark_step fl i) js (S, merged) = inr st'.
Proof.
  intros Hjs. revert S merged.
  induction Hjs as [|j js Hj _ IH]; intros S merged Hinv; [simpl; eauto|].
  cbn [for_each].
  destruct (mark_step_returns i j oi S merged Hj Hinv) as [[S1 merged1] Hstep].
  rewrite Hstep. cbn [mbind result_bind]. apply IH.
  eapply mark_step_inv; [done| |done|exact Hstep]. simpl in Hj. lia.
Qed.

Lemma mark_seed_returns (i : nat) S :
  (i < length orig)%nat → mark_inv fl orig i S →
  ∃ S', mark_seed fl (length orig) S i = inr S'.
Proof.
  intros Hi Hinv. pose proof Hinv as [Hslots Hbelow Habove Hperm].
  pose proof (Forall2_length _ _ _ Hslots) as Hlen.
  destruct (lookup_lt_is_Some_2 S i) as [oi HSi]; [lia|].
  unfold mark_seed. rewrite (getindex_Some _ _ _ HSi). cbn [mbind result_bind].
  destruct (decide (is_Some (Obj.M_TYPE oi))) as [Hm|Hm]; [eauto|].
  destruct (Forall2_lookup_r _ _ _ _ _ Hslots HSi) as (o & Ho & Hslot).
  assert (oi = o) as ->.
  { eapply slot_unmarked_absent; eauto.
    - eapply Forall_lookup_1; eauto.
    - destruct (Obj.M_TYPE oi); [by destruct Hm|done]. }
  assert (inner_inv fl orig i o S []) as Hinner.
  { split; try done. by rewrite app_nil_r. }
  destruct (mark_inner_returns i o
              (seq (Datatypes.S i) (length orig - Datatypes.S i)) S [])
    as [[S1 merged] Hloop]; [|done|].
  { apply Forall_seq. lia. }
  rewrite Hloop. cbn [mbind result_bind].
  apply (mark_inner_inv fl orig orig_fresh i o) in Hloop;
    [|by apply Forall_seq; lia|done].
  destruct Hloop as [_ _ _ [HS1 _] _ _].
  rewrite (getindex_Some _ _ _ HS1). simpl. eauto.
Qed.

Lemma mark_loop_returns (i len : nat) S :
  (i + len ≤ length orig)%nat → mark_inv fl orig i S →
  ∃ S', for_each (mark_seed fl (length orig)) (seq i len) S = inr S'.
Proof.
  revert i S. induction len as [|len IH]; intros i S Hlen Hinv; [simpl; eauto|].
  cbn [seq for_each].
  destruct (mark_seed_returns i S ltac:(lia) Hinv) as [S1 Hseed].
  rewrite Hseed. cbn [mbind result_bind]. apply IH; [lia|].
  by eapply mark_seed_inv.
Qed.

Lemma mark_inv_init : mark_inv fl orig 0 orig.
Proof.
  destruct (fresh_contrib orig orig_fresh) as [E1 E2].
  split.
  - apply Forall2_same_length_lookup_2; [done|].
    intros k o o' Ho Ho'. assert (o' = o) as -> by congruence. constructor.
  - intros k s Hk Hlt. lia.
  - intros k s Hk _. by destruct (orig_lookup_fresh orig orig_fresh k s Hk).
  - by rewrite E1, E2.
Qed.

Lemma mark_objects_returns : ∃ S, mark_objects fl orig = inr S.
Proof. apply (mark_loop_returns 0); [lia|apply mark_inv_init]. Qed.

(** The partners of a seed carry a category from 1 to 3. *)
Lemma mark_inv_categories S :
  mark_inv fl orig (length orig) S →
  Forall (λ s, ∀ l, Obj.M_TYPE s = None → Obj.mobjs s = Some (Some l) →
               Forall (λ mo, ∃ t, Obj.M_TYPE mo = Some t ∧ 1 ≤ t ≤ 3) l) S.
Proof.
  intros [Hslots _ _ _]. apply Forall_lookup_2. intros k s Hk l Hm Hl.
  destruct (Forall2_lookup_r _ _ _ _ _ Hslots Hk) as (o & Ho & Hslot).
  destruct (orig_lookup_fresh orig orig_fresh k o Ho) as [Hom Hol].
  destruct Hslot as [|seed t|l' Hl']; simpl in *; try congruence.
  assert (l' = l) as -> by congruence.
  eapply Forall_impl; [exact Hl'|]. intros mo (oj & t & _ & Hov & Ht & ->).
  exists t. split; [done|].
  destruct (overlap_range _ _ _ _ Hov) as [?|[?|[?|?]]]; lia.
Qed.

End merge_returns.

Lemma prominent_range l :
  Forall (λ mo, ∃ t, Obj.M_TYPE mo = Some t ∧ 1 ≤ t ≤ 3) l →
  prominent l = 1 ∨ prominent l = 2 ∨ prominent l = 3.
Proof.
  intros Hl. unfold prominent.
  assert (∀ p, 1 ≤ p ≤ 3 →
    1 ≤ foldl (λ p mo, match Obj.M_TYPE mo with
                       | Some t => if t >? p then t else p
                       | None => p
                       end) p l ≤ 3) as H; [|specialize (H 1); lia].
  induction Hl as [|mo l (t & Ht & Hr) _ IH]; intros p Hp; [done|].
  cbn [foldl]. rewrite Ht. apply IH. destruct (t >? p); lia.
Qed.

Lemma merge_loop_returns fl S f c nm :
  Forall settled S →
  Forall (λ s, ∀ l, Obj.M_TYPE s = None → Obj.mobjs s = Some (Some l) →
               Forall (λ mo, ∃ t, Obj.M_TYPE mo = Some t ∧ 1 ≤ t ≤ 3) l) S →
  has_keys nm →
  ∃ f' c' nm',
    for_each (merge_object fl) S (f, c, nm) = inr (f', c', nm') ∧
    has_keys nm'.
Proof.
  intros HS. revert f c nm.
  induction HS as [|s S Hs _ IH]; intros f c nm Hcat Hkeys.
  { simpl. eauto. }
  apply Forall_cons in Hcat as [Hcs Hcat]. cbn [for_each].
  destruct Hs as [[Hm Hl]|(Hm & l & Hl & Hmarked)].
  - rewrite merge_object_absorbed by done. cbn [mbind result_bind]. by apply IH.
  - rewrite (merge_object_seed _ _ _ _ _ l) by done.
    assert (∃ n, nm !! prominent l = Some n) as [n Hn].
    { destruct Hkeys as ([??] & [??] & [??]).
      destruct (prominent_range l (Hcs l Hm Hl)) as [-> | [-> | ->]]; eauto. }
    unfold getitem. rewrite Hn. cbn [mbind result_bind mret result_ret].
    apply IH; [done|].
    destruct Hkeys as (H1 & H2 & H3). unfold has_keys.
    rewrite !lookup_insert. repeat case_decide; eauto.
Qed.

(** With a name and small corners on every object, and the three keys in
    [num_merged], one image is merged without an exception. *)
Lemma merge_image_returns fl num_merged objs :
  Forall fresh objs → Forall regular objs → has_keys num_merged →
  ∃ filtered num_merged',
    merge_image fl num_merged objs = inr (filtered, num_merged') ∧
    has_keys num_merged'.
Proof.
  intros Hfresh Hreg Hkeys.
  destruct (merge_image_survivors fl num_merged objs Hfresh) as [Hno _].
  destruct (mark_objects_returns fl objs Hfresh Hreg) as [S Hmark].
  pose proof (mark_objects_inv fl objs Hfresh S Hmark) as Hinv.
  destruct (merge_loop_returns fl S [] 0 num_merged) as (f & c & nm & Hloop & Hk).
  { by apply (mark_inv_settled fl objs). }
  { by apply (mark_inv_categories fl objs). }
  { done. }
  unfold merge_image in *. rewrite Hmark in *. cbn [mbind result_bind] in *.
  rewrite Hloop in *. cbn [mbind result_bind] in *.
  destruct (c =? Z.of_nat (length objs)); [|done].
  exists f, nm. by split.
Qed.

(** X1: [merge_duplicate_boxes] returns on a corpus whose objects are as
    ingestion leaves them (no ['M_TYPE'], no ['mobjs']) and regular: each
    has a name and corners of magnitude at most 2^14.  No name list is
    indexed when empty, no [int32] area wraps to zero under the division
    of [IoU], [num_merged] has every key that is read, and no assertion
    fails. *)
Lemma merge_duplicate_boxes_returns fl data :
  Forall (λ img, Forall fresh (objects img)) data →
  Forall (λ img, Forall regular (objects img)) data →
  ∃ data' num_merged, merge_duplicate_boxes fl data = inr (data', num_merged).
Proof.
  intros Hfresh Hreg. unfold merge_duplicate_boxes.
  assert (has_keys (<[1:=0]> (<[2:=0]> (<[3:=0]> (∅ : gmap Z Z))))) as Hkeys.
  { unfold has_keys. rewrite !lookup_insert.
    repeat case_decide; try done; eauto. }
  revert Hkeys. generalize (<[1:=0]> (<[2:=0]> (<[3:=0]> (∅ : gmap Z Z)))).
  generalize (@nil obj_image). revert Hreg.
  induction Hfresh as [|img data Himg _ IH]; intros Hreg done nm Hkeys.
  { simpl. eauto. }
  apply Forall_cons in Hreg as [Hr Hreg]. cbn [for_each].
  change (merge_duplicate_boxes_step fl (done, nm) img)
    with (merge_image fl nm (objects img)
          ≫= λ '(filtered_objs, num_merged'),
               mret (done ++ [ObjImage (image_id img) filtered_objs
                                (id_to_idx img)], num_merged')).
  destruct (merge_image_returns fl nm (objects img) Himg Hr Hkeys)
    as (filtered & nm1 & -> & Hk1).
  cbn [mbind result_bind mret result_ret]. by apply IH.
Qed.

Lemma merge_duplicate_boxes_returns_witness :
  ∃ data' num_merged,
    merge_duplicate_boxes no_rounding
      [ObjImage 1 [Obj.mk 10 10 20 20 1 ["cat"] None None None;
                   Obj.mk 12 12 18 18 2 ["cat"] None None None;
                   Obj.mk 200 200 10 10 5 ["cup"] None None None] None]
    = inr (data', num_merged).
Proof.
  apply merge_duplicate_boxes_returns.
  - repeat constructor.
  - repeat constructor; simpl; first [done|lia].
Defined.

(** ** Text Normalizer *)

(** On a [unicode] string no step of [sentence_preprocess] can raise,
    whatever the code points and the iteration order of [replacements]. *)
Lemma sentence_preprocess_unicode_total items (u : list N) :
  ∃ out, sentence_preprocess items (PyUnicode u) = inr out.
Proof. unfold sentence_preprocess. simpl. eauto. Qed.

(** Nor on a byte string of ASCII characters. *)
Lemma sentence_preprocess_ascii_total items (s : string) :
  Forall (λ b, b < 128)%N (codes s) →
  ∃ out, sentence_preprocess items (PyStr s) = inr out.
Proof.
  intros Hs. unfold sentence_preprocess, encode_utf8.
  assert (forallb (λ b, b <? 128)%N (codes s) = true) as ->.
  { apply forallb_forall. intros b Hb.
    rewrite Forall_forall in Hs. apply N.ltb_lt, Hs.
    by apply list_elem_of_In. }
  simpl. eauto.
Qed.

(** A byte string with a byte above 127 makes the first statement raise:
    the bytes are never reached by [decode('utf-8', 'ignore')]. *)
Lemma sentence_preprocess_bytes_raise items (s : string) :
  Exists (λ b, 128 ≤ b)%N (codes s) →
  sentence_preprocess items (PyStr s) = inl UnicodeDecodeError.
Proof.
  intros Hs. unfold sentence_preprocess, encode_utf8.
  assert (forallb (λ b, b <? 128)%N (codes s) = false) as ->; [|done].
  apply not_true_is_false. intros Hall.
  rewrite forallb_forall in Hall. apply Exists_exists in Hs as (b & Hb & Hge).
  apply list_elem_of_In, Hall, N.ltb_lt in Hb. lia.
Qed.

(** C9 fails on the code: the byte string ['caf\xc3\xa9'], the UTF-8
    bytes of "café", raises [UnicodeDecodeError] instead of being
    normalised, for every iteration order of [replacements]. *)
Theorem sentence_preprocess_cafe_raises (items : list (string * string)) :
  sentence_preprocess items (PyStr (bytes [99; 97; 102; 195; 169]%N))
  = inl UnicodeDecodeError.
Proof. reflexivity. Qed.

(** The same word as a [unicode] string is normalised. *)
Example sentence_preprocess_cafe_unicode :
  sentence_preprocess replacements (PyUnicode [67; 97; 102; 233; 33]%N)
  = inr [99; 97; 102; 101]%N.
Proof. reflexivity. Qed.

(** ** Box Merge Engine: further properties *)

Lemma IoU_sym fl b1 b2 : IoU fl b1 b2 = IoU fl b2 b1.
Proof.
  unfold IoU. rewrite !Z.geb_leb.
  assert ((v2 b1 <=? v0 b2) || (v3 b1 <=? v1 b2) || (v2 b2 <=? v0 b1)
          || (v3 b2 <=? v1 b1)
          = (v2 b2 <=? v0 b1) || (v3 b2 <=? v1 b1) || (v2 b1 <=? v0 b2)
            || (v3 b1 <=? v1 b2)) as ->.
  { destruct (v2 b1 <=? v0 b2), (v3 b1 <=? v1 b2), (v2 b2 <=? v0 b1),
      (v3 b2 <=? v1 b1); reflexivity. }
  cbn [v0 v1 v2 v3].
  by rewrite (Z.min_comm (v0 b1)), (Z.min_comm (v1 b1)), (Z.min_comm (v2 b1)),
    (Z.min_comm (v3 b1)), (Z.max_comm (v0 b1)), (Z.max_comm (v1 b1)),
    (Z.max_comm (v2 b1)), (Z.max_comm (v3 b1)).
Qed.

Lemma vec4_eqb_sym b1 b2 : vec4_eqb b1 b2 = vec4_eqb b2 b1.
Proof.
  unfold vec4_eqb.
  by rewrite (Z.eqb_sym (v0 b1)), (Z.eqb_sym (v1 b1)), (Z.eqb_sym (v2 b1)),
    (Z.eqb_sym (v3 b1)).
Qed.

Lemma same_primary_name_sym o1 o2 :
  same_primary_name o1 o2 = same_primary_name o2 o1.
Proof.
  unfold same_primary_name.
  destruct (getindex (Obj.names o1) 0) as [e1|n1] eqn:E1,
    (getindex (Obj.names o2) 0) as [e2|n2] eqn:E2; cbn [mbind result_bind].
  - unfold getindex in E1, E2.
    destruct (Obj.names o1 !! 0%nat), (Obj.names o2 !! 0%nat); try done.
    by injection E1 as <-; injection E2 as <-.
  - done.
  - done.
  - unfold mret, result_ret. f_equal. apply bool_decide_ext. naive_solver.
Qed.

(** X2: [overlap] is symmetric: the category of two objects, or the
    exception that is raised, is the same whichever of the two is passed
    first. *)
Theorem overlap_sym fl o1 o2 : overlap fl o1 o2 = overlap fl o2 o1.
Proof.
  unfold overlap.
  rewrite (IoU_sym fl (to_x1y1x2y2 o1)), (vec4_eqb_sym (to_x1y1x2y2 o1)),
    (same_primary_name_sym o1), (orb_comm (inside (to_x1y1x2y2 o1) _)).
  done.
Qed.

Lemma merged_total_insert nm p n k :
  p = 1 ∨ p = 2 ∨ p = 3 → nm !! p = Some n →
  merged_total (<[p := n + k]> nm) = merged_total nm + k.
Proof.
  intros Hp Hn. unfold merged_total.
  destruct Hp as [-> | [-> | ->]];
    rewrite !lookup_insert; repeat case_decide; try done; rewrite Hn; simpl; lia.
Qed.

Lemma merge_loop_total fl S f c nm f' c' nm' :
  Forall settled S →
  Forall (λ s, ∀ l, Obj.M_TYPE s = None → Obj.mobjs s = Some (Some l) →
               Forall (λ mo, ∃ t, Obj.M_TYPE mo = Some t ∧ 1 ≤ t ≤ 3) l) S →
  for_each (merge_object fl) S (f, c, nm) = inr (f', c', nm') →
  dom nm' = dom nm ∧
  merged_total nm' + Z.of_nat (length (concat (survivor fl <$> S)))
  = merged_total nm
    + Z.of_nat (length (concat ((λ s, seed_id s ++ absorbed_ids s) <$> S))).
Proof.
  intros HS. revert f c nm.
  induction HS as [|s S Hs _ IH]; intros f c nm Hcat.
  { intros [= <- <- <-]. simpl. split; [done|lia]. }
  apply Forall_cons in Hcat as [Hcs Hcat]. cbn [for_each].
  rewrite !fmap_cons. cbn [concat]. rewrite !length_app.
  destruct Hs as [[Hm Hl]|(Hm & l & Hl & Hmarked)].
  - rewrite merge_object_absorbed by done. cbn [mbind result_bind].
    intros H. destruct (IH _ _ _ Hcat H) as [Hd Ht]. split; [done|].
    destruct Hm as [t Hm].
    unfold survivor, seed_id, absorbed_ids in *. rewrite Hm in *.
    simpl. simpl in Ht. lia.
  - rewrite (merge_object_seed _ _ _ _ _ l) by done.
    destruct (getitem nm (prominent l)) as [e|n] eqn:Hn;
      cbn [mbind result_bind mret result_ret]; [done|].
    unfold getitem in Hn.
    destruct (nm !! prominent l) as [n'|] eqn:Hn'; [|done].
    injection Hn as ->.
    intros H. destruct (IH _ _ _ Hcat H) as [Hd Ht].
    rewrite (merged_total_insert nm (prominent l) n) in Ht
      by eauto using prominent_range.
    split.
    { rewrite Hd, dom_insert_L. apply elem_of_dom_2 in Hn'. set_solver. }
    unfold survivor, seed_id, absorbed_ids in *. rewrite Hm, Hl in *.
    simpl. rewrite length_fmap. simpl in Ht. lia.
Qed.

Lemma merge_image_total fl nm objs filtered nm' :
  Forall fresh objs →
  merge_image fl nm objs = inr (filtered, nm') →
  dom nm' = dom nm ∧
  merged_total nm' + Z.of_nat (length filtered)
  = merged_total nm + Z.of_nat (length objs).
Proof.
  intros Hfresh H.
  destruct (merge_image_survivors fl nm objs Hfresh) as [_ HS].
  destruct (HS _ _ H) as (S & Hmark & Hinv & ->).
  unfold merge_image in H. rewrite Hmark in H. cbn [mbind result_bind] in H.
  destruct (for_each (merge_object fl) S _) as [e|[[f c] nm1]] eqn:Hloop;
    cbn [mbind result_bind] in H; [done|].
  destruct (c =? _); [|done].
  unfold mret, result_ret in H. injection H as Hf ->.
  destruct (merge_loop_total fl S [] 0 nm f c nm') as [Hd Ht].
  { by apply (mark_inv_settled fl objs). }
  { by apply (mark_inv_categories fl objs). }
  { done. }
  split; [done|].
  pose proof (mark_inv_ids fl objs S Hinv) as Hids.
  apply Permutation_length in Hids. rewrite length_fmap in Hids. lia.
Qed.

(** X4: when [merge_duplicate_boxes] returns, [num_merged] has the keys
    1, 2 and 3 and no other, and its three counts add up to the number of
    objects before merging minus the number of objects after it: every
    object that disappears is counted under exactly one merging type. *)
Theorem merge_duplicate_boxes_num_merged fl data data' num_merged :
  Forall (λ img, Forall fresh (objects img)) data →
  merge_duplicate_boxes fl data = inr (data', num_merged) →
  dom num_merged = {[1; 2; 3]} ∧
  merged_total num_merged = num_objects data - num_objects data'.
Proof.
  unfold merge_duplicate_boxes.
  assert (dom (<[1:=0]> (<[2:=0]> (<[3:=0]> (∅ : gmap Z Z)))) = {[1; 2; 3]}
          ∧ merged_total (<[1:=0]> (<[2:=0]> (<[3:=0]> (∅ : gmap Z Z))))
            = num_objects [] - num_objects []) as H0.
  { split; [set_solver|done]. }
  revert H0. generalize (<[1:=0]> (<[2:=0]> (<[3:=0]> (∅ : gmap Z Z)))).
  intros nm H0 Hfresh.
  assert (∀ done nm,
    dom nm = {[1; 2; 3]} →
    for_each (merge_duplicate_boxes_step fl) data (done, nm)
      = inr (data', num_merged) →
    dom num_merged = {[1; 2; 3]} ∧
    merged_total num_merged + num_objects data'
    = merged_total nm + num_objects done + num_objects data) as Hloop.
  { clear nm H0. revert data'. 
    induction Hfresh as [|img data Himg _ IH]; intros data' done nm Hd.
    { intros [= <- <-]. split; [done|]. unfold num_objects. simpl. lia. }
    cbn [for_each].
    change (merge_duplicate_boxes_step fl (done, nm) img)
      with (merge_image fl nm (objects img)
            ≫= λ '(filtered_objs, num_merged'),
                 mret (done ++ [ObjImage (image_id img) filtered_objs
                                  (id_to_idx img)], num_merged')).
    destruct (merge_image fl nm (objects img)) as [e|[filtered nm1]] eqn:E;
      cbn [mbind result_bind mret result_ret]; [done|].
    destruct (merge_image_total fl nm (objects img) filtered nm1 Himg E)
      as [Hd1 Ht1].
    intros H. destruct (IH _ _ _ (eq_trans Hd1 Hd) H) as [Hd2 Ht2].
    split; [done|]. rewrite Ht2. unfold num_objects.
    rewrite !fmap_app, !concat_app, !fmap_cons, !length_app. simpl.
    rewrite !length_app. simpl. lia. }
  intros H. destruct H0 as [Hd0 Ht0].
  destruct (Hloop [] nm Hd0 H) as [Hd Ht]. split; [done|].
  unfold num_objects in *. simpl in *. lia.
Qed.

Lemma merge_duplicate_boxes_num_merged_witness :
  let data := [ObjImage 1 [Obj.mk 10 10 20 20 1 ["cat"] None None None;
                           Obj.mk 12 12 18 18 2 ["cat"] None None None;
                           Obj.mk 200 200 10 10 5 ["cup"] None None None]
                 None] in
  ∃ data' num_merged,
    merge_duplicate_boxes no_rounding data = inr (data', num_merged) ∧
    dom num_merged = {[1; 2; 3]} ∧
    merged_total num_merged = num_objects data - num_objects data'.
Proof.
  intros data.
  destruct (merge_duplicate_boxes no_rounding data) as [e|[data' nm]] eqn:E;
    [by vm_compute in E|].
  exists data', nm. split; [done|].
  apply (merge_duplicate_boxes_num_merged no_rounding data data' nm);
    [repeat constructor|exact E].
Defined.

Lemma elem_of_concat {A} (x : A) (ls : list (list A)) :
  x ∈ concat ls ↔ ∃ l, l ∈ ls ∧ x ∈ l.
Proof.
  rewrite list_elem_of_In, in_concat. setoid_rewrite list_elem_of_In. done.
Qed.

Lemma survivors_sublist fl orig L S :
  Forall2 (slot fl orig) L S →
  (Obj.object_id <$> concat (survivor fl <$> S))
    `sublist_of` (Obj.object_id <$> L).
Proof.
  induction 1 as [|o s L S Hs _ IH]; [done|].
  rewrite !fmap_cons. cbn [concat]. rewrite fmap_app.
  unfold survivor at 1.
  destruct (Obj.M_TYPE s); [by apply sublist_cons|].
  destruct (Obj.mobjs s) as [[l|]|]; try by apply sublist_cons.
  simpl. rewrite (slot_object_id fl orig o s Hs). by apply sublist_skip.
Qed.

(** X5: every object that the merge of an image returns has no
    ['M_TYPE'], has ['mobjs'] set to [None], has a list of names without
    repetition in which every name comes from an object of the input, and
    has an ['ids'] list that starts with its own id; and the ids of the
    returned objects are, in order, a sublist of the ids of the input. *)
Theorem merge_image_survivor_shape fl num_merged objs filtered num_merged' :
  Forall fresh objs →
  merge_image fl num_merged objs = inr (filtered, num_merged') →
  Forall (λ o', Obj.M_TYPE o' = None ∧ Obj.mobjs o' = Some None ∧
                NoDup (Obj.names o') ∧
                (∃ rest, Obj.ids o' = Some (Obj.object_id o' :: rest)) ∧
                ∀ n, n ∈ Obj.names o' → ∃ o, o ∈ objs ∧ n ∈ Obj.names o)
    filtered ∧
  (Obj.object_id <$> filtered) `sublist_of` (Obj.object_id <$> objs).
Proof.
  intros Hfresh H.
  destruct (merge_image_survivors fl num_merged objs Hfresh) as [_ HS].
  destruct (HS _ _ H) as (S & Hmark & Hinv & ->). split.
  - destruct (survivors_groups fl objs objs S Hfresh) as [groups Hg];
      [done|apply Hinv|].
    eapply Forall2_Forall_r; [exact Hg|]. apply Forall_forall.
    intros [seed partners] _ o' (Hseed & Hpartners & ->).
    cbn [fst snd] in *. unfold merged_seed.
    cbn [Obj.names Obj.M_TYPE Obj.mobjs Obj.ids Obj.object_id].
    split_and!; try done.
    + unfold list_set. apply NoDup_elements.
    + by eexists.
    + intros n Hn. unfold list_set in Hn. apply elem_of_elements in Hn.
      apply elem_of_list_to_set, elem_of_app in Hn as [Hn|Hn]; [by eauto|].
      apply elem_of_concat in Hn as (ns & Hns & Hn).
      apply list_elem_of_fmap in Hns as (mo & -> & Hmo).
      destruct (proj1 (Forall_forall _ _) Hpartners mo Hmo)
        as (oj & t & Hoj & _ & _ & Emo).
      subst mo. eauto.
  - eapply survivors_sublist. apply Hinv.
Qed.

Lemma merge_image_survivor_shape_witness :
  let objs := [Obj.mk 10 10 20 20 1 ["cat"] None None None;
               Obj.mk 12 12 18 18 2 ["cat"; "kitten"] None None None;
               Obj.mk 200 200 10 10 5 ["cup"] None None None] in
  ∃ filtered num_merged',
    merge_image no_rounding {[1 := 0; 2 := 0; 3 := 0]} objs
    = inr (filtered, num_merged') ∧
    Forall (λ o', Obj.M_TYPE o' = None ∧ Obj.mobjs o' = Some None ∧
                  NoDup (Obj.names o') ∧
                  (∃ rest, Obj.ids o' = Some (Obj.object_id o' :: rest)) ∧
                  ∀ n, n ∈ Obj.names o' → ∃ o, o ∈ objs ∧ n ∈ Obj.names o)
      filtered ∧
    (Obj.object_id <$> filtered) `sublist_of` (Obj.object_id <$> objs).
Proof.
  intros objs.
  destruct (merge_image no_rounding {[1 := 0; 2 := 0; 3 := 0]} objs)
    as [e|[filtered nm']] eqn:E; [by vm_compute in E|].
  exists filtered, nm'. split; [done|].
  apply (merge_image_survivor_shape no_rounding {[1 := 0; 2 := 0; 3 := 0]} objs
           filtered nm'); [repeat constructor|exact E].
Defined.

Section apart.
Variable fl : Q → Q.
Variable orig : list obj.
Hypothesis orig_fresh : Forall fresh orig.

#[local] Abbreviation apart := (apart fl orig).
#[local] Abbreviation apart_seed := (apart_seed fl orig).

Lemma apart_mono i S S' : still_unmarked S S' → apart i S → apart i S'.
Proof.
  intros Hsub Ha k j ok oj sk sj Hk Hkj Hok Hoj Hsk Hsj Hmk Hmj.
  destruct (Hsub k sk Hsk Hmk) as (sk0 & Hsk0 & Hmk0).
  destruct (Hsub j sj Hsj Hmj) as (sj0 & Hsj0 & Hmj0).
  eapply Ha; eauto.
Qed.

Lemma apart_seed_mono i b S S' :
  still_unmarked S S' → apart_seed i b S → apart_seed i b S'.
Proof.
  intros Hsub Ha j oi oj sj Hj Hoi Hoj Hsj Hmj.
  destruct (Hsub j sj Hsj Hmj) as (sj0 & Hsj0 & Hmj0).
  eapply Ha; eauto.
Qed.

Lemma still_unmarked_insert S (j : nat) s s' :
  S !! j = Some s → (Obj.M_TYPE s' = None → Obj.M_TYPE s = None) →
  still_unmarked S (<[j := s']> S).
Proof.
  intros Hj Hm k sk Hk Hmk. destruct (decide (k = j)) as [->|Hne].
  - rewrite list_lookup_insert_eq in Hk by (by eapply lookup_lt_Some).
    injection Hk as <-. eauto.
  - rewrite list_lookup_insert_ne in Hk by done. eauto.
Qed.

Lemma mark_step_apart (i j : nat) oi S merged S' merged' :
  (i < j)%nat → inner_inv fl orig i oi S merged →
  mark_step fl i (S, merged) j = inr (S', merged') →
  apart i S → apart_seed i j S →
  apart i S' ∧ apart_seed i (Datatypes.S j) S'.
Proof.
  intros Hij [Hslots Hbelow Habove [HSi Hoi] Hmerged Hperm] Hstep Ha Hs.
  unfold mark_step in Hstep.
  destruct (getindex S j) as [e|oj] eqn:Hj; cbn [mbind result_bind] in Hstep;
    [done|].
  apply getindex_inv in Hj.
  assert (∀ S0, still_unmarked S S0 →
            (∀ sj, S0 !! j = Some sj → Obj.M_TYPE sj = None →
                   ∀ oi' oj', orig !! i = Some oi' → orig !! j = Some oj' →
                              overlap fl oi' oj' = inr 0) →
            apart i S0 ∧ apart_seed i (Datatypes.S j) S0) as Hgen.
  { intros S0 Hsub Hnew. split; [by eapply apart_mono|].
    intros j' oi' oj' sj' Hj' Hoi' Hoj' Hsj' Hmj'.
    destruct (decide (j' = j)) as [->|Hne]; [by eapply Hnew|].
    eapply apart_seed_mono; [exact Hsub|exact Hs| |done..]. lia. }
  destruct (decide (is_Some (Obj.M_TYPE oj))) as [Hm|Hm].
  { injection Hstep as <- <-. apply Hgen; [by intros ?; eauto|].
    intros sj Hsj Hmj. rewrite Hj in Hsj. injection Hsj as <-.
    rewrite Hmj in Hm. by destruct Hm. }
  rewrite (getindex_Some _ _ _ HSi) in Hstep. cbn [mbind result_bind] in Hstep.
  destruct (overlap fl oi oj) as [e|t] eqn:Hov; cbn [mbind result_bind] in Hstep;
    [done|].
  assert (Obj.M_TYPE oj = None) as Hmn.
  { destruct (Obj.M_TYPE oj); [by destruct Hm|done]. }
  destruct (Forall2_lookup_r _ _ _ _ _ Hslots Hj) as (o & Ho & Hslot).
  assert (oj = o) as ->.
  { eapply (slot_unmarked_absent fl orig); eauto using orig_lookup_fresh.
    eapply Habove; eauto. lia. }
  destruct (Z.gtb_spec t 0) as [Ht|Ht]; injection Hstep as <- <-.
  - apply Hgen; [by eapply still_unmarked_insert|].
    intros sj Hsj Hmj.
    rewrite list_lookup_insert_eq in Hsj by (by eapply lookup_lt_Some).
    by injection Hsj as <-.
  - apply Hgen; [by intros ?; eauto|].
    intros sj _ _ oi' oj' Hoi' Hoj'.
    assert (oi' = oi) as -> by congruence. assert (oj' = o) as -> by congruence.
    destruct (overlap_range _ _ _ _ Hov) as [-> | ?]; [done|lia].
Qed.

Lemma mark_inner_apart (i a len : nat) oi S merged S' merged' :
  (i < a)%nat → inner_inv fl orig i oi S merged →
  for_each (mark_step fl i) (seq a len) (S, merged) = inr (S', merged') →
  apart i S → apart_seed i a S →
  apart i S' ∧ apart_seed i (a + len) S'.
Proof.
  revert a S merged. induction len as [|len IH]; intros a S merged Hia Hinv.
  { intros [= <- <-]. by rewrite Nat.add_0_r. }
  cbn [seq for_each].
  destruct (mark_step fl i (S, merged) a) as [e|[S1 merged1]] eqn:Hstep;
    cbn [mbind result_bind]; [done|].
  intros Hrest Ha Hs.
  destruct (mark_step_apart i a oi S merged S1 merged1) as [Ha1 Hs1]; try done.
  replace (a + Datatypes.S len)%nat with (Datatypes.S a + len)%nat by lia.
  eapply IH; [lia| |done..].
  by eapply (mark_step_inv fl orig orig_fresh).
Qed.

Lemma mark_seed_apart (i : nat) S S' :
  mark_inv fl orig i S → mark_seed fl (length orig) S i = inr S' →
  apart i S → apart (Datatypes.S i) S'.
Proof.
  intros [Hslots Hbelow Habove Hperm] Hseed Ha. unfold mark_seed in Hseed.
  destruct (getindex S i) as [e|oi] eqn:Hi; cbn [mbind result_bind] in Hseed;
    [done|].
  apply getindex_inv in Hi.
  destruct (decide (is_Some (Obj.M_TYPE oi))) as [Hm|Hm].
  { injection Hseed as <-.
    intros k j ok oj sk sj Hk Hkj Hok Hoj Hsk Hsj Hmk Hmj.
    destruct (decide (k = i)) as [->|Hne].
    - rewrite Hi in Hsk. injection Hsk as <-. rewrite Hmk in Hm.
      by destruct Hm.
    - eapply (Ha k j); eauto. lia. }
  assert (Obj.M_TYPE oi = None) as Hmn.
  { destruct (Obj.M_TYPE oi); [by destruct Hm|done]. }
  destruct (Forall2_lookup_r _ _ _ _ _ Hslots Hi) as (o & Ho & Hslot).
  assert (oi = o) as ->.
  { eapply (slot_unmarked_absent fl orig); eauto using orig_lookup_fresh. }
  assert (inner_inv fl orig i o S []) as Hinner.
  { split; try done. by rewrite app_nil_r. }
  destruct (for_each _ _ (S, [])) as [e|[S1 merged]] eqn:Hloop;
    cbn [mbind result_bind] in Hseed; [done|].
  pose proof Hloop as Hloop'.
  apply (mark_inner_inv fl orig orig_fresh i o) in Hloop';
    [|by apply Forall_seq; lia|done].
  apply (mark_inner_apart i (Datatypes.S i) _ o) in Hloop as [Ha1 Hs1];
    [|lia|done|done|intros j ????; lia].
  destruct Hloop' as [Hslots1 Hbelow1 Habove1 [HSi Hoi] Hmerged Hperm1].
  rewrite (getindex_Some _ _ _ HSi) in Hseed.
  cbn [mbind result_bind mret result_ret] in Hseed. injection Hseed as <-.
  assert (still_unmarked S1 (<[i := Obj.set_mobjs o (Some merged)]> S1)) as Hsub.
  { by eapply still_unmarked_insert. }
  intros k j ok oj sk sj Hk Hkj Hok Hoj Hsk Hsj Hmk Hmj.
  destruct (decide (k = i)) as [->|Hne].
  - eapply (apart_seed_mono _ _ _ _ Hsub Hs1 j); eauto.
    apply lookup_lt_Some in Hoj. lia.
  - eapply (apart_mono _ _ _ Hsub Ha1 k j); eauto. lia.
Qed.

Lemma mark_loop_apart (i len : nat) S S' :
  mark_inv fl orig i S →
  for_each (mark_seed fl (length orig)) (seq i len) S = inr S' →
  apart i S → apart (i + len) S'.
Proof.
  revert i S. induction len as [|len IH]; intros i S Hinv.
  { intros [= <-]. by rewrite Nat.add_0_r. }
  cbn [seq for_each].
  destruct (mark_seed fl (length orig) S i) as [e|S1] eqn:Hseed;
    cbn [mbind result_bind]; [done|].
  intros Hrest Ha.
  replace (i + Datatypes.S len)%nat with (Datatypes.S i + len)%nat by lia.
  eapply IH; [|done|].
  - by eapply (mark_seed_inv fl orig orig_fresh).
  - by eapply mark_seed_apart.
Qed.

Lemma mark_objects_apart S :
  mark_objects fl orig = inr S → apart (length orig) S.
Proof.
  intros H. pose proof H as Hinv. unfold mark_objects in H.
  apply (mark_loop_apart 0) in H; [done| |intros k j ?????; lia].
  destruct (fresh_contrib orig orig_fresh) as [E1 E2].
  split.
  - apply Forall2_same_length_lookup_2; [done|].
    intros k o o' Ho Ho'. assert (o' = o) as -> by congruence. constructor.
  - intros k s Hk Hlt. lia.
  - intros k s Hk _. by destruct (orig_lookup_fresh orig orig_fresh k s Hk).
  - by rewrite E1, E2.
Qed.

End apart.

Lemma omap_cons {A B} (f : A → option B) x l :
  omap f (x :: l) = match f x with
                    | Some y => y :: omap f l
                    | None => omap f l
                    end.
Proof. reflexivity. Qed.

Lemma omap_lookup_pair {A B} (f : A → option B) (l : list A) (p q : nat) a b :
  (p < q)%nat → omap f l !! p = Some a → omap f l !! q = Some b →
  ∃ (k k' : nat) x y, (k < k')%nat ∧ l !! k = Some x ∧ f x = Some a
                      ∧ l !! k' = Some y ∧ f y = Some b.
Proof.
  assert (∀ (l : list A) (q : nat) b, omap f l !! q = Some b →
            ∃ (k : nat) y, l !! k = Some y ∧ f y = Some b) as Hone.
  { clear. induction l as [|x l IH]; intros q b; [done|].
    rewrite omap_cons. destruct (f x) as [c|] eqn:Hx.
    - destruct q as [|q]; simpl.
      + intros [= <-]. by exists 0%nat, x.
      + intros H. destruct (IH q b H) as (k & y & Hk & Hy).
        by exists (Datatypes.S k), y.
    - intros H. destruct (IH q b H) as (k & y & Hk & Hy).
      by exists (Datatypes.S k), y. }
  revert p q. induction l as [|x l IH]; intros p q Hpq; [done|].
  rewrite omap_cons. destruct (f x) as [c|] eqn:Hx.
  - destruct p as [|p], q as [|q]; simpl; try lia.
    + intros [= <-] Hq. destruct (Hone l q b Hq) as (k & y & Hk & Hy).
      exists 0%nat, (Datatypes.S k), x, y. split_and!; try done. lia.
    + intros Hp Hq.
      destruct (IH p q ltac:(lia) Hp Hq) as (k & k' & x' & y & ? & ? & ? & ? & ?).
      exists (Datatypes.S k), (Datatypes.S k'), x', y. split_and!; try done. lia.
  - intros Hp Hq.
    destruct (IH p q Hpq Hp Hq) as (k & k' & x' & y & ? & ? & ? & ? & ?).
    exists (Datatypes.S k), (Datatypes.S k'), x', y. split_and!; try done. lia.
Qed.

Lemma seeds_of_sublist orig S : seeds_of orig S `sublist_of` orig.
Proof.
  unfold seeds_of. revert S. induction orig as [|o orig IH]; intros [|s S];
    try done; [apply sublist_nil_l|].
  simpl. destruct (Obj.M_TYPE s); [by apply sublist_cons|by apply sublist_skip].
Qed.

Lemma seeds_of_survivors fl orig0 L S :
  Forall2 (slot fl orig0) L S → Forall settled S →
  Forall2 (λ a o', Obj.object_id o' = Obj.object_id a ∧
                   ∀ n, n ∈ Obj.names a → n ∈ Obj.names o')
    (seeds_of L S) (concat (survivor fl <$> S)).
Proof.
  unfold seeds_of.
  induction 1 as [|o s L S Hs _ IH]; intros Hset; [constructor|].
  apply Forall_cons in Hset as [Hss Hset].
  rewrite fmap_cons. cbn [concat].
  change (zip (o :: L) (s :: S)) with ((o, s) :: zip L S).
  rewrite omap_cons. cbn [fst snd]. unfold survivor at 1.
  destruct Hss as [[[t Hm] Hl]|(Hm & l & Hl & _)]; rewrite Hm, ?Hl.
  - by apply IH.
  - cbn [app]. constructor; [|by apply IH].
    unfold merged_seed. cbn [Obj.object_id Obj.names].
    split; [by apply (slot_object_id fl orig0)|].
    intros n Hn. unfold list_set. apply elem_of_elements, elem_of_list_to_set.
    apply elem_of_app. left.
    assert (Obj.names s = Obj.names o) as ->; [by destruct Hs|done].
Qed.

(** X3: when the merge of an image returns, the objects that survive
    come from seeds, which are objects of the input in their input order,
    one per surviving object, with the same id and with their names kept;
    and [overlap] gives category 0 for any two of the seeds: no two
    surviving objects were duplicates of each other before the merge. *)
Theorem merge_image_seeds_apart fl num_merged objs filtered num_merged' :
  Forall fresh objs →
  merge_image fl num_merged objs = inr (filtered, num_merged') →
  ∃ seeds,
    seeds `sublist_of` objs ∧
    Forall2 (λ a o', Obj.object_id o' = Obj.object_id a ∧
                     ∀ n, n ∈ Obj.names a → n ∈ Obj.names o') seeds filtered ∧
    ∀ (p q : nat) a b, (p < q)%nat → seeds !! p = Some a → seeds !! q = Some b →
                       overlap fl a b = inr 0.
Proof.
  intros Hfresh H.
  destruct (merge_image_survivors fl num_merged objs Hfresh) as [_ HS].
  destruct (HS _ _ H) as (S & Hmark & Hinv & ->).
  exists (seeds_of objs S). split_and!.
  - apply seeds_of_sublist.
  - apply (seeds_of_survivors fl objs); [apply Hinv|].
    by apply (mark_inv_settled fl objs).
  - intros p q a b Hpq Hp Hq.
    destruct (omap_lookup_pair _ _ p q a b Hpq Hp Hq)
      as (k & k' & [ok sk] & [ok' sk'] & Hk & Hx & Hfx & Hy & Hfy).
    simpl in Hfx, Hfy.
    destruct (Obj.M_TYPE sk) eqn:Hmk; [done|]. injection Hfx as ->.
    destruct (Obj.M_TYPE sk') eqn:Hmk'; [done|]. injection Hfy as ->.
    apply lookup_zip_with_Some in Hx as (? & ? & [= <- <-] & Hok & Hsk).
    apply lookup_zip_with_Some in Hy as (? & ? & [= <- <-] & Hok' & Hsk').
    eapply (mark_objects_apart fl objs Hfresh S Hmark k k'); eauto.
    by eapply lookup_lt_Some.
Qed.

Lemma merge_image_seeds_apart_witness :
  let objs := [Obj.mk 10 10 20 20 1 ["cat"] None None None;
               Obj.mk 12 12 18 18 2 ["cat"] None None None;
               Obj.mk 200 200 10 10 5 ["cup"] None None None] in
  ∃ filtered num_merged',
    merge_image no_rounding {[1 := 0; 2 := 0; 3 := 0]} objs
    = inr (filtered, num_merged') ∧
    ∃ seeds,
      seeds `sublist_of` objs ∧
      Forall2 (λ a o', Obj.object_id o' = Obj.object_id a ∧
                       ∀ n, n ∈ Obj.names a → n ∈ Obj.names o')
        seeds filtered ∧
      ∀ (p q : nat) a b, (p < q)%nat → seeds !! p = Some a →
                         seeds !! q = Some b →
                         overlap no_rounding a b = inr 0.
Proof.
  intros objs.
  destruct (merge_image no_rounding {[1 := 0; 2 := 0; 3 := 0]} objs)
    as [e|[filtered nm']] eqn:E; [by vm_compute in E|].
  exists filtered, nm'. split; [done|].
  apply (merge_image_seeds_apart no_rounding {[1 := 0; 2 := 0; 3 := 0]} objs
           filtered nm'); [repeat constructor|exact E].
Defined.

(** ** Box Geometry Encoder: the box lies inside the image *)


Section encode_box_inside.
Variable fl : Q → Q.
Hypothesis fl_model : float_model fl.

Lemma fl_nonneg q : (0 <= q)%Q → (0 <= fl q)%Q.
Proof.
  intros Hq. apply Qle_lteq in Hq as [Hq|Hq].
  - apply Qlt_le_weak. by apply (fl_pos fl fl_model).
  - rewrite <- (fl_proper fl fl_model _ _ Hq).
    change 0%Q with (inject_Z 0). rewrite (fl_int fl fl_model 0); [done|].
    by vm_compute.
Qed.




End encode_box_inside.


(** ** Object Index Encoder: boxes, labels and tables *)

Section encode_objects.
Variable fl : Q → Q.
Variables token_to_idx token_counter : gmap string Z.
Variables org_h org_w : list Z.
Variable im_long_sizes : list Z.

#[local] Abbreviation enc_object :=
  (encode_object fl token_to_idx token_counter org_h org_w).
#[local] Abbreviation enc_image :=
  (encode_objects_image fl token_to_idx token_counter org_h org_w im_long_sizes).

Lemma append_box_loop o (i : nat) sizes boxes boxes' :
  NoDup sizes →
  for_each (append_box fl o org_h org_w i) sizes boxes = inr boxes' →
  ∀ size,
    (size ∈ sizes → ∃ l b, boxes !! size = Some l
                           ∧ boxes' !! size = Some (l ++ [b])) ∧
    (size ∉ sizes → boxes' !! size = boxes !! size).
Proof.
  intros Hnd. revert boxes.
  induction Hnd as [|s sizes Hs _ IH]; intros boxes.
  { intros [= <-] size. split; [intros []%elem_of_nil|by intros _]. }
  cbn [for_each].
  destruct (append_box fl o org_h org_w i boxes s) as [e|boxes1] eqn:Hstep;
    cbn [mbind result_bind]; [done|].
  unfold append_box in Hstep.
  destruct (getitem boxes s) as [e|l] eqn:Hl; cbn [mbind result_bind] in Hstep;
    [done|].
  destruct (getindex org_h i) as [e|oh]; cbn [mbind result_bind] in Hstep;
    [done|].
  destruct (getindex org_w i) as [e|ow]; cbn [mbind result_bind] in Hstep;
    [done|].
  destruct (encode_box fl o oh ow s) as [e|b]; cbn [mbind result_bind] in Hstep;
    [done|].
  injection Hstep as <-.
  intros Hrest size. specialize (IH _ Hrest size) as [IH1 IH2].
  unfold getitem in Hl. destruct (boxes !! s) as [l'|] eqn:Hbs; [|done].
  injection Hl as ->.
  split.
  - intros [->|Hin]%elem_of_cons.
    + exists l, b. split; [done|]. rewrite IH2 by done.
      by rewrite lookup_insert_eq.
    + destruct (IH1 Hin) as (l0 & b0 & H0 & H1).
      assert (size ≠ s) as Hne by (intros ->; done).
      rewrite lookup_insert_ne in H0 by done. eauto.
  - intros Hnin. apply not_elem_of_cons in Hnin as [Hne Hnin].
    rewrite IH2 by done. by rewrite lookup_insert_ne.
Qed.

Lemma encode_object_aligned (i : nat) labels boxes table c o
    labels' boxes' table' c' :
  NoDup im_long_sizes →
  enc_object i im_long_sizes (labels, boxes, table, c) o
    = inr (labels', boxes', table', c') →
  aligned im_long_sizes labels boxes → aligned im_long_sizes labels' boxes'.
Proof.
  intros Hnd. unfold encode_object.
  destruct (pick_label _ _ _) as [e|[name|]]; cbn [mbind result_bind];
    [done| |by intros [= <- <- <- <-]].
  destruct (for_each _ im_long_sizes boxes) as [e|b] eqn:Hb;
    cbn [mbind result_bind]; [done|].
  destruct (getitem token_to_idx name) as [e|idx]; cbn [mbind result_bind];
    [done|].
  destruct (getkey (Obj.ids o)) as [e|ids]; cbn [mbind result_bind]; [done|].
  intros [= <- <- <- <-] Hal size.
  destruct (append_box_loop _ _ _ _ _ Hnd Hb size) as [Hin Hout].
  destruct (Hal size) as [Hal1 Hal2]. split.
  - intros Hsize. destruct (Hin Hsize) as (l & b0 & Hl & ->).
    destruct (Hal1 Hsize) as (rows & Hrows & Hlen).
    assert (rows = l) as -> by congruence.
    eexists. split; [done|]. rewrite !length_app. simpl. lia.
  - intros Hsize. rewrite Hout by done. by apply Hal2.
Qed.

Lemma encode_object_loop_aligned (i : nat) objs labels boxes table c
    labels' boxes' table' c' :
  NoDup im_long_sizes →
  for_each (enc_object i im_long_sizes) objs (labels, boxes, table, c)
    = inr (labels', boxes', table', c') →
  aligned im_long_sizes labels boxes → aligned im_long_sizes labels' boxes'.
Proof.
  intros Hnd. revert labels boxes table c.
  induction objs as [|o objs IH]; intros labels boxes table c.
  { by intros [= <- <- <- <-]. }
  cbn [for_each].
  destruct (encode_object _ _ _ _ _ _ _ _ o)
    as [e|[[[l1 b1] t1] c1]] eqn:Ho; cbn [mbind result_bind]; [done|].
  intros Hrest Hal. eapply IH; [exact Hrest|].
  by eapply encode_object_aligned.
Qed.

Lemma encode_objects_image_aligned st (i : nat) img st' :
  NoDup im_long_sizes →
  enc_image st (i, img) = inr st' →
  aligned im_long_sizes (encoded_labels st) (encoded_boxes st) →
  aligned im_long_sizes (encoded_labels st') (encoded_boxes st').
Proof.
  intros Hnd. unfold encode_objects_image. intros H.
  destruct (for_each _ (objects img) _) as [e|[[[labels boxes] table] c]]
    eqn:Hloop; cbn [mbind result_bind] in H; [done|].
  destruct (getindex _ i) as [e|fi]; cbn [mbind result_bind] in H; [done|].
  intros Hal. eapply encode_object_loop_aligned in Hloop; [|done..].
  by destruct (fi =? c); injection H as <-.
Qed.

Lemma boxes0_lookup sizes (b : gmap Z (list (vec4 Z))) size :
  foldl (λ b size, <[size := []]> b) b sizes !! size
  = if decide (size ∈ sizes) then Some [] else b !! size.
Proof.
  revert b. induction sizes as [|s sizes IH]; intros b; [done|].
  cbn [foldl]. rewrite IH. destruct (decide (size = s)) as [->|Hne].
  - rewrite lookup_insert_eq.
    rewrite (decide_True (P := s ∈ s :: sizes)) by apply list_elem_of_here.
    by destruct (decide (s ∈ sizes)).
  - rewrite lookup_insert_ne by done.
    destruct (decide (size ∈ sizes)) as [Hin|Hnin].
    + by rewrite decide_True by (by apply list_elem_of_further).
    + rewrite decide_False; [done|]. by intros [?|?]%elem_of_cons.
Qed.

(** X7: when [encode_objects] returns and the target sizes are pairwise
    different, [encoded_boxes] has exactly the target sizes as keys, and
    the box array of every size is non-empty and has as many rows as there
    are labels: row k of every box array belongs to label k. *)
Theorem encode_objects_aligned obj_data st :
  NoDup im_long_sizes →
  encode_objects fl obj_data token_to_idx token_counter org_h org_w
    im_long_sizes = inr st →
  ∀ size,
    (size ∈ im_long_sizes →
     ∃ rows, encoded_boxes st !! size = Some rows ∧ rows ≠ [] ∧
             length rows = length (encoded_labels st)) ∧
    (size ∉ im_long_sizes → encoded_boxes st !! size = None).
Proof.
  intros Hnd. unfold encode_objects.
  set (boxes0 := foldl _ ∅ im_long_sizes).
  set (st0 := ObjEnc _ _ _ _ _ _).
  destruct (for_each _ (imap pair obj_data) st0) as [e|st1] eqn:Hloop;
    cbn [mbind result_bind]; [done|].
  destruct (for_each _ (map_to_list _) tt) as [e|[]]; cbn [mbind result_bind];
    [done|].
  destruct (vstack (encoded_labels st1)) as [e|ls] eqn:Hls;
    cbn [mbind result_bind]; [done|].
  intros [= <-].
  assert (∀ l st0 st1,
    for_each enc_image l st0 = inr st1 →
    aligned im_long_sizes (encoded_labels st0) (encoded_boxes st0) →
    aligned im_long_sizes (encoded_labels st1) (encoded_boxes st1)) as Hgen.
  { clear -Hnd. induction l as [|[i img] l IH]; intros st0 st1.
    { by intros [= <-]. }
    cbn [for_each].
    destruct (encode_objects_image _ _ _ _ _ _ st0 (i, img))
      as [e|st'] eqn:Hstep; cbn [mbind result_bind]; [done|].
    intros Hrest Hal. eapply IH; [exact Hrest|].
    by eapply encode_objects_image_aligned. }
  apply Hgen in Hloop.
  - intros size. destruct (Hloop size) as [Hin Hout]. split; [|done].
    intros Hsize. destruct (Hin Hsize) as (rows & Hrows & Hlen).
    exists rows. split_and!; try done.
    intros ->. destruct (encoded_labels st1); [done|]. by simpl in Hlen.
  - intros size. subst st0 boxes0. cbn [encoded_labels encoded_boxes].
    rewrite boxes0_lookup. split.
    + intros Hsize. rewrite decide_True by done. by exists [].
    + intros Hsize. by rewrite decide_False by done.
Qed.

End encode_objects.

Lemma encode_objects_aligned_witness :
  ∃ st,
    encode_objects no_rounding
      [ObjImage 1 [Obj.mk 30 40 50 20 7 ["cat"] (Some [7]) None None;
                   Obj.mk 10 10 50 20 8 ["emu"] (Some [8]) None None] None]
      {["cat" := 1]} {["cat" := 3]} [300] [400] [512; 1024] = inr st ∧
    ∀ size,
      (size ∈ [512; 1024] →
       ∃ rows, encoded_boxes st !! size = Some rows ∧ rows ≠ [] ∧
               length rows = length (encoded_labels st)) ∧
      (size ∉ [512; 1024] → encoded_boxes st !! size = None).
Proof.
  destruct (encode_objects no_rounding
      [ObjImage 1 [Obj.mk 30 40 50 20 7 ["cat"] (Some [7]) None None;
                   Obj.mk 10 10 50 20 8 ["emu"] (Some [8]) None None] None]
      {["cat" := 1]} {["cat" := 3]} [300] [400] [512; 1024])
    as [e|st] eqn:E; [by vm_compute in E|].
  exists st. split; [done|].
  eapply encode_objects_aligned; [|exact E].
  repeat constructor; set_solver.
Defined.

Lemma int32_le z : 0 ≤ z → int32 z ≤ z.
Proof.
  intros Hz. unfold int32.
  pose proof (Z.mod_le (z + 2 ^ 31) (2 ^ 32)). lia.
Qed.

Lemma foldl_insert_lookup (table : gmap Z Z) (ids : list Z) (c id : Z) :
  foldl (λ t obj_id, <[obj_id := c]> t) table ids !! id
  = if decide (id ∈ ids) then Some c else table !! id.
Proof.
  revert table. induction ids as [|a ids IH]; intros table; [done|].
  cbn [foldl]. rewrite IH. destruct (decide (id ∈ ids)) as [Hin|Hnin].
  - by rewrite decide_True by (by apply list_elem_of_further).
  - destruct (decide (id = a)) as [->|Hne].
    + rewrite lookup_insert_eq.
      by rewrite decide_True by apply list_elem_of_here.
    + rewrite lookup_insert_ne by done. rewrite decide_False; [done|].
      by intros [?|?]%elem_of_cons.
Qed.

Section tables.
Variable fl : Q → Q.
Variables token_to_idx token_counter : gmap string Z.
Variables org_h org_w : list Z.
Variable im_long_sizes : list Z.

#[local] Abbreviation enc_object :=
  (encode_object fl token_to_idx token_counter org_h org_w).
#[local] Abbreviation enc_image :=
  (encode_objects_image fl token_to_idx token_counter org_h org_w im_long_sizes).
#[local] Abbreviation has_label := (labelled token_to_idx token_counter).

Lemma encode_object_table (i : nat) labels boxes table c o
    labels' boxes' table' c' :
  enc_object i im_long_sizes (labels, boxes, table, c) o
    = inr (labels', boxes', table', c') →
  c ≤ c' ∧
  (∀ id, is_Some (table' !! id)
         ↔ is_Some (table !! id) ∨ (has_label o ∧ id ∈ ids_of o)) ∧
  (∀ id idx, table' !! id = Some idx →
             table !! id = Some idx ∨ c ≤ idx < c').
Proof.
  unfold encode_object, labelled.
  destruct (pick_label _ _ _) as [e|[name|]]; cbn [mbind result_bind]; [done| |].
  2:{ intros [= <- <- <- <-]. split; [lia|]. split; [|by eauto].
      intros id. split; [by eauto|]. by intros [?|[[? [=]] _]]. }
  destruct (for_each _ im_long_sizes boxes) as [e|b] eqn:Hb;
    cbn [mbind result_bind]; [done|].
  destruct (getitem token_to_idx name) as [e|idx]; cbn [mbind result_bind];
    [done|].
  destruct (getkey (Obj.ids o)) as [e|ids] eqn:Hids; cbn [mbind result_bind];
    [done|].
  assert (ids_of o = ids) as Hids'.
  { unfold ids_of. by destruct (Obj.ids o); [injection Hids as ->|]. }
  intros [= <- <- <- <-]. rewrite Hids'. split; [lia|]. split.
  - intros id. rewrite foldl_insert_lookup.
    destruct (decide (id ∈ ids)); [|naive_solver]. split; [|by eauto].
    intros _. right. split; [by eexists|done].
  - intros id idx'. rewrite foldl_insert_lookup.
    destruct (decide (id ∈ ids)); [|by eauto]. intros [= <-]. right. lia.
Qed.

Lemma encode_object_loop_table (i : nat) objs labels boxes table c
    labels' boxes' table' c' :
  for_each (enc_object i im_long_sizes) objs (labels, boxes, table, c)
    = inr (labels', boxes', table', c') →
  c ≤ c' ∧
  (∀ id, is_Some (table' !! id)
         ↔ is_Some (table !! id)
           ∨ ∃ o, o ∈ objs ∧ has_label o ∧ id ∈ ids_of o) ∧
  (∀ id idx, table' !! id = Some idx →
             table !! id = Some idx ∨ c ≤ idx < c').
Proof.
  revert labels boxes table c.
  induction objs as [|o objs IH]; intros labels boxes table c.
  { intros [= <- <- <- <-]. split; [lia|]. split; [|by eauto].
    intros id. split; [by eauto|]. intros [?|(o & []%elem_of_nil & _)]. done. }
  cbn [for_each].
  destruct (encode_object _ _ _ _ _ _ _ _ o)
    as [e|[[[l1 b1] t1] c1]] eqn:Ho; cbn [mbind result_bind]; [done|].
  intros Hrest. apply encode_object_table in Ho as (Hc1 & Hd1 & Hv1).
  apply IH in Hrest as (Hc2 & Hd2 & Hv2). split; [lia|]. split.
  - intros id. rewrite Hd2, Hd1. split.
    + intros [[?|[??]]|(o' & ? & ? & ?)]; eauto.
      * right. exists o. split_and!; try done. apply list_elem_of_here.
      * right. exists o'. split_and!; try done. by apply list_elem_of_further.
    + intros [?|(o' & [->|?]%elem_of_cons & ? & ?)]; eauto.
  - intros id idx H. destruct (Hv2 id idx H) as [H1|H1]; [|right; lia].
    destruct (Hv1 id idx H1) as [H0|H0]; [by left|right; lia].
Qed.

(** What one image does to the state. *)
Lemma encode_objects_image_table st (i : nat) img st' :
  0 ≤ obj_counter st →
  enc_image st (i, img) = inr st' →
  ∃ table,
    obj_counter st ≤ obj_counter st' ∧
    (i < length (im_to_first_obj st))%nat ∧
    obj_data_out st'
    = <[i := ObjImage (image_id img) (objects img) (Some table)]>
        (obj_data_out st) ∧
    (∀ id, is_Some (table !! id)
           ↔ ∃ o, o ∈ objects img ∧ has_label o ∧ id ∈ ids_of o) ∧
    (∀ id idx, table !! id = Some idx →
               obj_counter st ≤ idx < obj_counter st') ∧
    (∀ k : nat, k ≠ i → im_to_first_obj st' !! k = im_to_first_obj st !! k
                        ∧ im_to_last_obj st' !! k = im_to_last_obj st !! k) ∧
    length (im_to_first_obj st') = length (im_to_first_obj st) ∧
    length (im_to_last_obj st') = length (im_to_last_obj st) ∧
    (obj_counter st < obj_counter st' →
     (i < length (im_to_last_obj st))%nat →
     im_to_first_obj st' !! i = Some (int32 (obj_counter st)) ∧
     im_to_last_obj st' !! i = Some (int32 (obj_counter st' - 1))).
Proof.
  intros Hc0. unfold encode_objects_image. intros H.
  destruct (for_each _ (objects img) _) as [e|[[[labels boxes] table] c]]
    eqn:Hloop; cbn [mbind result_bind] in H; [done|].
  apply encode_object_loop_table in Hloop as (Hc & Hd & Hv).
  destruct (getindex _ i) as [e|fi] eqn:Hfi; cbn [mbind result_bind] in H;
    [done|].
  apply getindex_inv in Hfi. pose proof (lookup_lt_Some _ _ _ Hfi) as Hlt.
  rewrite length_insert in Hlt.
  rewrite list_lookup_insert_eq in Hfi by done. injection Hfi as <-.
  exists table.
  assert (∀ id, is_Some (table !! id)
                ↔ ∃ o, o ∈ objects img ∧ has_label o ∧ id ∈ ids_of o) as Hd'.
  { intros id. rewrite Hd. rewrite lookup_empty. split; [|by eauto].
    by intros [[? [=]]|?]. }
  assert (∀ id idx, table !! id = Some idx → obj_counter st ≤ idx < c) as Hv'.
  { intros id idx Hi. by destruct (Hv id idx Hi) as [[=]|?]. }
  destruct (Z.eqb_spec (int32 (obj_counter st)) c) as [E|E];
    injection H as <-; cbn [obj_counter obj_data_out im_to_first_obj
                            im_to_last_obj];
    rewrite ?length_insert; split_and!; try done.
  - intros k Hk. by rewrite !list_lookup_insert_ne by done.
  - intros Hlt'. pose proof (int32_le (obj_counter st) Hc0). lia.
  - intros k Hk. by rewrite !list_lookup_insert_ne by done.
  - intros _ Hl. by rewrite !list_lookup_insert_eq by done.
Qed.


(** The state after the images of [obj_data]: the entry of every image
    carries its table; the values of the table lie between the counter
    before and after the image, which is what the range arrays hold when
    the image has a labelled object. *)
Lemma encode_objects_loop_tables obj_data st0 st :
  0 ≤ obj_counter st0 →
  for_each enc_image (imap pair obj_data) st0 = inr st →
  obj_counter st0 ≤ obj_counter st ∧
  length (im_to_first_obj st) = length (im_to_first_obj st0) ∧
  length (im_to_last_obj st) = length (im_to_last_obj st0) ∧
  length (obj_data_out st) = length (obj_data_out st0) ∧
  (length obj_data ≤ length (im_to_first_obj st0))%nat ∧
  (∀ k : nat, (length obj_data ≤ k)%nat →
     obj_data_out st !! k = obj_data_out st0 !! k) ∧
  ∀ (i : nat) img, obj_data !! i = Some img →
    (i < length (obj_data_out st0))%nat →
    ∃ table c0 c1,
      obj_data_out st !! i
      = Some (ObjImage (image_id img) (objects img) (Some table)) ∧
      (∀ id, is_Some (table !! id)
             ↔ ∃ o, o ∈ objects img ∧ has_label o ∧ id ∈ ids_of o) ∧
      obj_counter st0 ≤ c0 ∧ c0 ≤ c1 ∧ c1 ≤ obj_counter st ∧
      (∀ id idx, table !! id = Some idx → c0 ≤ idx < c1) ∧
      (c0 < c1 → (i < length (im_to_last_obj st0))%nat →
       im_to_first_obj st !! i = Some (int32 c0) ∧
       im_to_last_obj st !! i = Some (int32 (c1 - 1))).
Proof.
  intros Hc0. revert st.
  induction obj_data as [|img obj_data IH] using rev_ind; intros st Hst.
  { injection Hst as <-. split_and!; try done; simpl; lia. }
  rewrite imap_pair_snoc, for_each_snoc in Hst.
  destruct (for_each _ (imap pair obj_data) _) as [e|st1] eqn:Hst1; [done|].
  cbn [mbind result_bind] in Hst.
  destruct (IH st1 eq_refl) as (Hmono & HlF & HlL & HlO & Hlen & Hrest & Himgs).
  apply encode_objects_image_table in Hst
    as (table & Hmono' & Hlt & Hout & Hd & Hv & Hother & HlF' & HlL' & Hrange);
    [|lia].
  rewrite length_app. cbn [length].
  split_and!; try lia.
  - rewrite Hout, length_insert. lia.
  - intros k Hk. rewrite Hout, list_lookup_insert_ne by lia. apply Hrest. lia.
  - intros i img' Hi Hlti.
    destruct (decide (i = length obj_data)) as [->|Hne].
    + rewrite lookup_app_r, Nat.sub_diag in Hi by lia. injection Hi as <-.
      exists table, (obj_counter st1), (obj_counter st).
      split_and!; try done; try lia.
      * rewrite Hout. apply list_lookup_insert_eq. lia.
      * intros Hlt' Hl. apply Hrange; [done|lia].
    + assert (i < length obj_data)%nat as Hi'.
      { apply lookup_lt_Some in Hi. rewrite length_app in Hi. simpl in Hi. lia. }
      rewrite lookup_app_l in Hi by done.
      destruct (Himgs i img' Hi Hlti)
        as (table' & c0 & c1 & Ho & Hd' & H0 & H01 & H1 & Hv' & Hr').
      exists table', c0, c1. split_and!; try done; try lia.
      * by rewrite Hout, list_lookup_insert_ne by lia.
      * intros Hlt' Hl. destruct (Hother i Hne) as [-> ->]. by apply Hr'.
Qed.

End tables.

Lemma encode_objects_loop fl obj_data token_to_idx token_counter org_h org_w
    im_long_sizes st :
  encode_objects fl obj_data token_to_idx token_counter org_h org_w
    im_long_sizes = inr st →
  ∃ boxes0,
    for_each
      (encode_objects_image fl token_to_idx token_counter org_h org_w
         im_long_sizes)
      (imap pair obj_data)
      (ObjEnc [] boxes0 (replicate (length obj_data) 0)
         (replicate (length obj_data) 0) 0 obj_data) = inr st ∧
    encoded_labels st ≠ [].
Proof.
  unfold encode_objects.
  destruct (for_each _ (imap pair obj_data) _) as [e|st1] eqn:Hloop;
    cbn [mbind result_bind]; [done|].
  destruct (for_each _ (map_to_list _) tt) as [e|[]]; cbn [mbind result_bind];
    [done|].
  destruct (vstack (encoded_labels st1)) as [e|ls] eqn:Hls;
    cbn [mbind result_bind]; [done|].
  intros [= <-]. eexists. split; [exact Hloop|].
  intros E. by rewrite E in Hls.
Qed.

(** X8: when [encode_objects] returns, every image is left with its id
    and its objects unchanged and with an ['id_to_idx'] table whose keys
    are exactly the ids in the ['ids'] lists of the objects of that image
    that got a label. *)
Theorem encode_objects_tables fl obj_data token_to_idx token_counter
    org_h org_w im_long_sizes st :
  encode_objects fl obj_data token_to_idx token_counter org_h org_w
    im_long_sizes = inr st →
  Forall2 (λ img img',
             image_id img' = image_id img ∧ objects img' = objects img ∧
             ∃ table, id_to_idx img' = Some table ∧
               ∀ id, is_Some (table !! id)
                     ↔ ∃ o, o ∈ objects img
                            ∧ labelled token_to_idx token_counter o
                            ∧ id ∈ ids_of o)
    obj_data (obj_data_out st).
Proof.
  intros H. apply encode_objects_loop in H as (boxes0 & H & _).
  apply encode_objects_loop_tables in H
    as (_ & _ & _ & HlO & _ & _ & Himgs); [|done].
  cbn [obj_data_out] in *.
  apply Forall2_same_length_lookup_2; [done|].
  intros i img img' Hi Hi'.
  destruct (Himgs i img Hi) as (table & c0 & c1 & Ho & Hd & _).
  { by eapply lookup_lt_Some. }
  rewrite Ho in Hi'. injection Hi' as <-. simpl. eauto.
Qed.

(** X9: when [encode_objects] returns fewer than 2^31 labels, every index
    stored in the ['id_to_idx'] table of an image lies within the range
    that the two range arrays give for that image, and that range lies
    within the label array. *)
Theorem encode_objects_table_range fl obj_data token_to_idx token_counter
    org_h org_w im_long_sizes st (i : nat) img' table id idx :
  encode_objects fl obj_data token_to_idx token_counter org_h org_w
    im_long_sizes = inr st →
  Z.of_nat (length (encoded_labels st)) < 2 ^ 31 →
  obj_data_out st !! i = Some img' → id_to_idx img' = Some table →
  table !! id = Some idx →
  ∃ f l, im_to_first_obj st !! i = Some f ∧ im_to_last_obj st !! i = Some l ∧
         0 ≤ f ∧ f ≤ idx ∧ idx ≤ l ∧
         l < Z.of_nat (length (encoded_labels st)).
Proof.
  intros H Hbound Hi' Htable Hidx.
  apply encode_objects_loop in H as (boxes0 & H & _).
  assert (obj_counter st = Z.of_nat (length (encoded_labels st))) as Hcount.
  { eapply encode_objects_loop_count; [|exact H]. done. }
  apply encode_objects_loop_tables in H
    as (_ & _ & _ & HlO & _ & _ & Himgs); [|done].
  cbn [obj_data_out obj_counter im_to_last_obj] in *.
  assert (i < length obj_data)%nat as Hlt.
  { rewrite <- HlO. by eapply lookup_lt_Some. }
  destruct (lookup_lt_is_Some_2 obj_data i Hlt) as [img Hi].
  destruct (Himgs i img Hi Hlt)
    as (table' & c0 & c1 & Ho & _ & H0 & H01 & H1 & Hv & Hr).
  rewrite Ho in Hi'. injection Hi' as <-. simpl in Htable.
  injection Htable as ->.
  specialize (Hv id idx Hidx).
  destruct Hr as [Hf Hl]; [lia|by rewrite length_replicate|].
  rewrite int32_small in Hf, Hl by lia.
  exists c0, (c1 - 1). split_and!; try done; lia.
Qed.

Lemma Forall2_from_Some {A B} (f : A → option B) (l : list A) :
  Forall (λ x, is_Some (f x)) l → ∃ l', Forall2 (λ x y, f x = Some y) l l'.
Proof.
  induction 1 as [|x l [y Hy] _ [l' IH]]; [by exists []|].
  exists (y :: l'). by constructor.
Qed.

(** X10: called on the data that [encode_objects] has left, and with no
    more relationship entries than images, [encode_relationships] raises
    nothing but the [ValueError] of an empty result: no ['id_to_idx'] is
    missing and no index is out of range.  When it returns, there are as
    many predicates as pairs, and both entries of every pair are rows of
    the label array (fewer than 2^31 labels assumed). *)
Theorem encode_relationships_after_objects fl obj_data token_to_idx
    token_counter org_h org_w im_long_sizes st rel_data predicate_to_idx :
  encode_objects fl obj_data token_to_idx token_counter org_h org_w
    im_long_sizes = inr st →
  Z.of_nat (length (encoded_labels st)) < 2 ^ 31 →
  (length rel_data ≤ length obj_data)%nat →
  encode_relationships rel_data predicate_to_idx (obj_data_out st)
    = inl ValueError ∨
  ∃ st', encode_relationships rel_data predicate_to_idx (obj_data_out st)
           = inr st' ∧
         length (encoded_pred st') = length (encoded_rel st') ∧
         ∀ s o, (s, o) ∈ encoded_rel st' →
                0 ≤ s < Z.of_nat (length (encoded_labels st)) ∧
                0 ≤ o < Z.of_nat (length (encoded_labels st)).
Proof.
  intros H Hbound Hlen.
  apply encode_objects_loop in H as (boxes0 & H & _).
  assert (obj_counter st = Z.of_nat (length (encoded_labels st))) as Hcount.
  { eapply encode_objects_loop_count; [|exact H]. done. }
  apply encode_objects_loop_tables in H
    as (_ & _ & _ & HlO & _ & _ & Himgs); [|done].
  cbn [obj_data_out obj_counter] in *.
  assert (Forall (λ img', ∃ table, id_to_idx img' = Some table ∧
                    ∀ id idx, table !! id = Some idx →
                              0 ≤ idx < obj_counter st)
            (obj_data_out st)) as Hall.
  { apply Forall_lookup_2. intros i img' Hi'.
    assert (i < length obj_data)%nat as Hlt.
    { rewrite <- HlO. by eapply lookup_lt_Some. }
    destruct (lookup_lt_is_Some_2 obj_data i Hlt) as [img Hi].
    destruct (Himgs i img Hi Hlt)
      as (table & c0 & c1 & Ho & _ & H0 & H01 & H1 & Hv & _).
    rewrite Ho in Hi'. injection Hi' as <-. exists table. split; [done|].
    intros id idx Hidx. specialize (Hv id idx Hidx). lia. }
  destruct (Forall2_from_Some id_to_idx (obj_data_out st)) as [tables Htables].
  { eapply Forall_impl; [exact Hall|]. intros img' (table & -> & _). by eexists. }
  destruct (encode_relationships_loop_content predicate_to_idx
              (obj_data_out st) tables rel_data (length rel_data) Htables)
    as (st' & Hst & _ & Hpred & Hrel & _); [lia|done|].
  pose proof (emitted_same_length
                (spec_verdicts predicate_to_idx tables rel_data)) as Hsame.
  unfold encode_relationships. rewrite Hst. cbn [mbind result_bind].
  destruct (encoded_pred st') as [|p ps] eqn:Ep; [by left|].
  destruct (encoded_rel st') as [|pr prs] eqn:Er.
  { rewrite <- Hpred, <- Hrel in Hsame. done. }
  right. cbn [vstack mbind result_bind mret result_ret].
  exists st'. split; [done|]. rewrite Ep, Er.
  split; [by rewrite <- Hpred, <- Hrel in Hsame|].
  intros s o Hso. rewrite Hrel in Hso.
  apply list_elem_of_omap in Hso as (v & Hv & Hpair).
  destruct v as [| | |p0 s0 o0]; try done. injection Hpair as <- <-.
  apply spec_verdicts_elem in Hv as (table & r & Ht & Hv).
  symmetry in Hv. apply spec_verdict_emitted in Hv as (Hs & Ho & _ & _).
  assert (∀ id idx, table !! id = Some idx → 0 ≤ idx < obj_counter st) as Hr.
  { apply list_elem_of_lookup in Ht as [i Hti].
    destruct (Forall2_lookup_r _ _ _ _ _ Htables Hti) as (img' & Hi' & Hid).
    destruct (proj1 (Forall_lookup _ _) Hall i img' Hi') as (table' & Ht' & Hr).
    by assert (table' = table) as -> by congruence. }
  pose proof (Hr _ _ Hs). pose proof (Hr _ _ Ho).
  rewrite !int32_small by lia. lia.
Qed.

Lemma encode_objects_tables_witness :
  let obj_data :=
    [ObjImage 1 [Obj.mk 30 40 50 20 7 ["cat"] (Some [7; 9]) None None;
                 Obj.mk 10 10 50 20 8 ["emu"] (Some [8]) None None] None] in
  ∃ st,
    encode_objects no_rounding obj_data
      {["cat" := 1]} {["cat" := 3]} [300] [400] [512; 1024] = inr st ∧
    Forall2 (λ img img',
               image_id img' = image_id img ∧ objects img' = objects img ∧
               ∃ table, id_to_idx img' = Some table ∧
                 ∀ id, is_Some (table !! id)
                       ↔ ∃ o, o ∈ objects img
                              ∧ labelled {["cat" := 1]} {["cat" := 3]} o
                              ∧ id ∈ ids_of o)
      obj_data (obj_data_out st).
Proof.
  intros obj_data.
  destruct (encode_objects no_rounding obj_data
      {["cat" := 1]} {["cat" := 3]} [300] [400] [512; 1024])
    as [e|st] eqn:E; [by vm_compute in E|].
  exists st. split; [done|].
  exact (encode_objects_tables _ _ _ _ _ _ _ _ E).
Defined.

Lemma encode_objects_table_range_witness :
  let obj_data :=
    [ObjImage 1 [Obj.mk 30 40 50 20 7 ["cat"] (Some [7; 9]) None None;
                 Obj.mk 10 10 50 20 8 ["emu"] (Some [8]) None None] None] in
  ∃ st,
    encode_objects no_rounding obj_data
      {["cat" := 1]} {["cat" := 3]} [300] [400] [512; 1024] = inr st ∧
    Z.of_nat (length (encoded_labels st)) < 2 ^ 31 ∧
    ∀ (i : nat) img' table id idx,
      obj_data_out st !! i = Some img' → id_to_idx img' = Some table →
      table !! id = Some idx →
      ∃ f l, im_to_first_obj st !! i = Some f ∧
             im_to_last_obj st !! i = Some l ∧
             0 ≤ f ∧ f ≤ idx ∧ idx ≤ l ∧
             l < Z.of_nat (length (encoded_labels st)).
Proof.
  intros obj_data.
  destruct (encode_objects no_rounding obj_data
      {["cat" := 1]} {["cat" := 3]} [300] [400] [512; 1024])
    as [e|st] eqn:E; [by vm_compute in E|].
  assert (Z.of_nat (length (encoded_labels st)) < 2 ^ 31) as Hb.
  { clear -E. vm_compute in E. injection E as <-. simpl. lia. }
  exists st. split; [done|]. split; [done|].
  intros i img' table id idx.
  exact (encode_objects_table_range no_rounding obj_data _ _ _ _ _ st i img'
           table id idx E Hb).
Defined.

Lemma encode_relationships_after_objects_witness :
  let obj_data :=
    [ObjImage 1 [Obj.mk 30 40 50 20 7 ["cat"] (Some [7; 9]) None None;
                 Obj.mk 10 10 50 20 8 ["hat"] (Some [8]) None None] None] in
  let rel_data := [RelImage 1 [Rel.mk 7 8 "wears"; Rel.mk 8 8 "on"]] in
  ∃ st,
    encode_objects no_rounding obj_data
      {["cat" := 1; "hat" := 2]} {["cat" := 3; "hat" := 1]} [300] [400]
      [512; 1024] = inr st ∧
    (encode_relationships rel_data {["wears" := 1]} (obj_data_out st)
       = inl ValueError ∨
     ∃ st', encode_relationships rel_data {["wears" := 1]} (obj_data_out st)
              = inr st' ∧
            length (encoded_pred st') = length (encoded_rel st') ∧
            ∀ s o, (s, o) ∈ encoded_rel st' →
                   0 ≤ s < Z.of_nat (length (encoded_labels st)) ∧
                   0 ≤ o < Z.of_nat (length (encoded_labels st))).
Proof.
  intros obj_data rel_data.
  destruct (encode_objects no_rounding obj_data
      {["cat" := 1; "hat" := 2]} {["cat" := 3; "hat" := 1]} [300] [400]
      [512; 1024]) as [e|st] eqn:E; [by vm_compute in E|].
  assert (Z.of_nat (length (encoded_labels st)) < 2 ^ 31) as Hb.
  { clear -E. vm_compute in E. injection E as <-. simpl. lia. }
  exists st. split; [done|].
  apply (encode_relationships_after_objects no_rounding obj_data _ _ _ _ _ st
           rel_data {["wears" := 1]} E Hb).
  simpl. lia.
Defined.

Section unlabelled.
Variable fl : Q → Q.
Variables token_to_idx token_counter : gmap string Z.
Variables org_h org_w : list Z.
Variable im_long_sizes : list Z.

Lemma encode_object_unlabelled (i : nat) st o :
  out_of_vocabulary token_to_idx o →
  encode_object fl token_to_idx token_counter org_h org_w i im_long_sizes st o
  = inr st.
Proof.
  intros Ho. unfold encode_object. destruct st as [[[labels boxes] table] c].
  rewrite pick_label_none; [done|].
  eapply Forall_impl; [exact Ho|]. intros n Hn [x Hx]. congruence.
Qed.

Lemma encode_object_loop_unlabelled (i : nat) objs st :
  Forall (out_of_vocabulary token_to_idx) objs →
  for_each
    (encode_object fl token_to_idx token_counter org_h org_w i im_long_sizes)
    objs st = inr st.
Proof.
  induction 1 as [|o objs Ho _ IH]; [done|].
  cbn [for_each]. by rewrite encode_object_unlabelled.
Qed.

Lemma encode_objects_loop_unlabelled obj_data st0 :
  Forall (λ img, Forall (out_of_vocabulary token_to_idx) (objects img))
    obj_data →
  (length obj_data ≤ length (im_to_first_obj st0))%nat →
  ∃ st,
    for_each
      (encode_objects_image fl token_to_idx token_counter org_h org_w
         im_long_sizes) (imap pair obj_data) st0 = inr st ∧
    encoded_labels st = encoded_labels st0 ∧
    encoded_boxes st = encoded_boxes st0 ∧
    length (im_to_first_obj st) = length (im_to_first_obj st0).
Proof.
  induction obj_data as [|img obj_data IH] using rev_ind; intros Hall Hlen.
  { by exists st0. }
  apply Forall_app in Hall as [Hall Himg]. apply Forall_cons in Himg as [Himg _].
  rewrite length_app in Hlen. simpl in Hlen.
  destruct IH as (st1 & Hst1 & Hl1 & Hb1 & Hf1); [done|lia|].
  rewrite imap_pair_snoc, for_each_snoc, Hst1. cbn [mbind result_bind].
  unfold encode_objects_image.
  rewrite encode_object_loop_unlabelled by done. cbn [mbind result_bind].
  rewrite (getindex_Some _ _ (int32 (obj_counter st1)))
    by (apply list_lookup_insert_eq; lia).
  cbn [mbind result_bind].
  destruct (_ =? _); eexists; (split; [reflexivity|]);
    cbn [encoded_labels encoded_boxes im_to_first_obj];
    rewrite ?length_insert; done.
Qed.

Lemma vstack_all_loop (l : list (Z * list (vec4 Z))) :
  for_each (λ (_ : unit) kb, _ ← vstack (snd kb); mret tt) l tt
    = inl ValueError ∨
  for_each (λ (_ : unit) kb, _ ← vstack (snd kb); mret tt) l tt = inr tt.
Proof.
  induction l as [|[k [|b rows]] l IH]; [by right|by left|].
  cbn [for_each snd vstack mbind result_bind mret result_ret]. exact IH.
Qed.

(** X11: when no name of any object is in the vocabulary, in particular
    on an empty corpus, [encode_objects] raises [ValueError]: [np.vstack]
    is applied to an empty list. *)
Theorem encode_objects_nothing_labelled obj_data :
  Forall (λ img, Forall (out_of_vocabulary token_to_idx) (objects img))
    obj_data →
  encode_objects fl obj_data token_to_idx token_counter org_h org_w
    im_long_sizes = inl ValueError.
Proof.
  intros Hall. unfold encode_objects.
  edestruct (encode_objects_loop_unlabelled obj_data) as (st & -> & Hl & _ & _);
    [exact Hall| |].
  { cbn [im_to_first_obj]. by rewrite length_replicate. }
  cbn [mbind result_bind].
  destruct (vstack_all_loop (map_to_list (encoded_boxes st))) as [-> | ->];
    [done|].
  cbn [mbind result_bind]. by rewrite Hl.
Qed.

End unlabelled.

Lemma encode_objects_nothing_labelled_witness :
  encode_objects no_rounding
    [ObjImage 1 [Obj.mk 1 1 8 8 7 ["cat"] (Some [7]) None None] None]
    {["dog" := 1]} {["dog" := 3]} [8] [8] [512; 1024]
  = inl ValueError.
Proof.
  apply encode_objects_nothing_labelled.
  repeat constructor.
Defined.

(** ** Text Normalizer: the normal form *)

Lemma utf8_decode_ignore_elem (s : list N) (c : N) :
  c ∈ utf8_decode_ignore s → (128 ≤ c)%N ∨ ((c < 128)%N ∧ c ∈ s).
Proof.
  remember (length s) as n eqn:Hn. revert s Hn c.
  induction n as [n IH] using lt_wf_ind. intros s Hn c.
  assert (∀ s' : list N, (length s' < n)%nat →
            c ∈ utf8_decode_ignore s' → (128 ≤ c)%N ∨ ((c < 128)%N ∧ c ∈ s'))
    as IH'.
  { intros s' Hs'. by eapply IH. }
  clear IH.
  assert (∀ (s' : list N) b, (length s' < n)%nat →
            c ∈ utf8_decode_ignore s' →
            (128 ≤ c)%N ∨ ((c < 128)%N ∧ c ∈ b :: s')) as IH1.
  { intros s' b Hs' Hc. destruct (IH' s' Hs' Hc) as [?|[??]]; [by left|].
    right. split; [done|]. by apply list_elem_of_further. }
  destruct s as [|b0 s1]; [by intros ?%elem_of_nil|].
  simpl in Hn. cbn [utf8_decode_ignore].
  destruct (N.ltb_spec b0 128) as [H0|H0].
  { intros [->|Hc]%elem_of_cons.
    - right. split; [done|]. apply list_elem_of_here.
    - apply IH1; [lia|done]. }
  destruct s1 as [|b1 s2]; [by intros ?%elem_of_nil|]. simpl in Hn.
  destruct ((194 <=? b0) && (b0 <? 224) && is_continuation b1)%N eqn:E2.
  { apply andb_prop in E2 as [E2 Hc1]. apply andb_prop in E2 as [Hlo Hhi].
    apply N.leb_le in Hlo.
    intros [->|Hc]%elem_of_cons; [left; lia|].
    destruct (IH' s2 ltac:(lia) Hc) as [?|[??]]; [by left|].
    right. split; [done|]. by do 2 apply list_elem_of_further. }
  destruct s2 as [|b2 s3]; [apply IH1; simpl; lia|]. simpl in Hn.
  destruct ((224 <=? b0) && (b0 <? 240) && is_continuation b1
            && is_continuation b2
            && negb ((b0 =? 224) && (b1 <? 160)))%N eqn:E3.
  { apply andb_prop in E3 as [E3 Hover]. apply andb_prop in E3 as [E3 Hc2].
    apply andb_prop in E3 as [E3 Hc1]. apply andb_prop in E3 as [Hlo Hhi].
    apply N.leb_le in Hlo. apply negb_true_iff in Hover.
    intros [->|Hc]%elem_of_cons.
    - left. destruct (N.eqb_spec b0 224) as [->|Hne].
      + simpl in Hover. apply N.ltb_ge in Hover. lia.
      + assert (1 ≤ b0 - 224)%N by lia. lia.
    - destruct (IH' s3 ltac:(lia) Hc) as [?|[??]]; [by left|].
      right. split; [done|]. by do 3 apply list_elem_of_further. }
  destruct s3 as [|b3 s4]; [apply IH1; simpl; lia|]. simpl in Hn.
  destruct ((240 <=? b0) && (b0 <? 245) && is_continuation b1
            && is_continuation b2 && is_continuation b3
            && negb ((b0 =? 240) && (b1 <? 144))
            && negb ((b0 =? 244) && (144 <=? b1)))%N eqn:E4.
  { apply andb_prop in E4 as [E4 _]. apply andb_prop in E4 as [E4 Hover].
    apply andb_prop in E4 as [E4 Hc3]. apply andb_prop in E4 as [E4 Hc2].
    apply andb_prop in E4 as [E4 Hc1]. apply andb_prop in E4 as [Hlo Hhi].
    apply N.leb_le in Hlo. apply negb_true_iff in Hover.
    intros [->|Hc]%elem_of_cons.
    - left. destruct (N.eqb_spec b0 240) as [->|Hne].
      + simpl in Hover. apply N.ltb_ge in Hover. lia.
      + assert (1 ≤ b0 - 240)%N by lia. lia.
    - destruct (IH' s4 ltac:(lia) Hc) as [?|[??]]; [by left|].
      right. split; [done|]. by do 4 apply list_elem_of_further. }
  apply IH1. simpl. lia.
Qed.

Lemma lower_byte_not_upper b : is_upper (lower_byte b) = false.
Proof.
  unfold is_upper, lower_byte.
  destruct ((65 <=? b) && (b <=? 90))%N eqn:E.
  - apply andb_prop in E as [H1%N.leb_le H2%N.leb_le].
    apply andb_false_iff. right. apply N.leb_gt. lia.
  - done.
Qed.

(** X12: whatever the iteration order of [replacements], a phrase that
    [sentence_preprocess] returns has no character of
    [string.punctuation] and no upper-case ASCII letter. *)
Theorem sentence_preprocess_clean items phrase out :
  sentence_preprocess items phrase = inr out →
  Forall (λ c, is_punctuation c = false ∧ is_upper c = false) out.
Proof.
  unfold sentence_preprocess.
  destruct (encode_utf8 phrase) as [e|s]; cbn [mbind result_bind]; [done|].
  intros [= <-]. apply Forall_forall. intros c Hc.
  apply utf8_decode_ignore_elem in Hc as [Hc|[Hlt Hc]].
  - unfold is_punctuation, is_upper. split.
    + repeat (apply orb_false_iff; split); apply andb_false_iff; right;
        apply N.leb_gt; lia.
    + apply andb_false_iff; right; apply N.leb_gt; lia.
  - apply list_elem_of_filter in Hc as [Hp Hc]. split; [done|].
    apply list_elem_of_fmap in Hc as (b & -> & _).
    apply lower_byte_not_upper.
Qed.

Lemma sentence_preprocess_clean_witness :
  ∃ out,
    sentence_preprocess replacements (PyUnicode [77; 97; 110; 39; 115; 233]%N)
    = inr out ∧
    Forall (λ c, is_punctuation c = false ∧ is_upper c = false) out.
Proof.
  eexists. split; [vm_compute; reflexivity|].
  apply (sentence_preprocess_clean replacements
           (PyUnicode [77; 97; 110; 39; 115; 233]%N)).
  vm_compute. reflexivity.
Defined.

Lemma bytes_codes s : bytes (codes s) = s.
Proof.
  induction s as [|a s IH]; [done|]. simpl. by rewrite ascii_N_embedding, IH.
Qed.

Lemma is_ascii_lstrip s : is_ascii s → is_ascii (lstrip s).
Proof.
  unfold is_ascii. induction s as [|a s IH]; [done|]. simpl.
  intros H. destruct (Ascii.eqb a " "); [|done].
  apply IH. by apply Forall_cons in H as [_ H].
Qed.

Lemma is_ascii_rstrip s : is_ascii s → is_ascii (rstrip s).
Proof.
  unfold is_ascii. induction s as [|a s IH]; [done|]. simpl.
  intros [Ha H]%Forall_cons.
  destruct (Ascii.eqb a " " && String.eqb (rstrip s) ""); [constructor|].
  simpl. constructor; [done|by apply IH].
Qed.

Lemma replace_from_ascii k v s :
  non_ascii_key (k, v) → is_ascii s → replace_from k v 0 s = s.
Proof.
  unfold non_ascii_key, is_ascii. simpl. destruct k as [|a k]; [done|].
  intros Ha. induction s as [|b s IH]; [done|].
  intros [Hb H]%Forall_cons. cbn [replace_from String.prefix].
  destruct (Ascii.eqb_spec a b) as [->|Hne]; [simpl in Hb; lia|].
  destruct (ascii_dec a b) as [->|_]; [done|].
  by rewrite IH.
Qed.

Lemma replace_ascii kv s :
  non_ascii_key kv → is_ascii s → replace (fst kv) (snd kv) s = s.
Proof.
  intros Hk Hs. unfold replace. destruct kv as [k v]. simpl.
  destruct k as [|a k]; [done|]. simpl. by apply replace_from_ascii.
Qed.

Lemma replacements_ascii items s :
  Forall non_ascii_key items → is_ascii s →
  foldl (λ p kv, replace (fst kv) (snd kv) p) s items = s.
Proof.
  induction 1 as [|kv items Hkv _ IH]; [done|]. intros Hs.
  cbn [foldl]. rewrite replace_ascii by done. by apply IH.
Qed.

Lemma replacements_non_ascii : Forall non_ascii_key replacements.
Proof. unfold replacements. repeat constructor; by vm_compute. Qed.

Lemma utf8_decode_ignore_ascii l :
  Forall (λ b, b < 128)%N l → utf8_decode_ignore l = l.
Proof.
  induction 1 as [|b l Hb _ IH]; [done|]. cbn [utf8_decode_ignore].
  destruct (N.ltb_spec b 128); [|lia]. by rewrite IH.
Qed.

Lemma lower_byte_ascii b : (b < 128 → lower_byte b < 128)%N.
Proof.
  intros Hb. unfold lower_byte.
  destruct ((65 <=? b) && (b <=? 90))%N eqn:E; [|done].
  apply andb_prop in E as [H1%N.leb_le H2%N.leb_le]. lia.
Qed.

Lemma utf8_encode_ascii l :
  Forall (λ b, b < 128)%N l → concat (utf8_encode_cp <$> l) = l.
Proof.
  induction 1 as [|b l Hb _ IH]; [done|]. rewrite fmap_cons. cbn [concat].
  rewrite IH. unfold utf8_encode_cp. by destruct (N.ltb_spec b 128); [|lia].
Qed.

(** X13: on a phrase of ASCII characters, as a byte string or as a
    [unicode] string, [sentence_preprocess] returns the phrase with the
    blanks at both ends stripped, in lower case and without punctuation,
    in whatever order [replacements] is iterated: no replacement applies. *)
Theorem sentence_preprocess_ascii items (s : string) :
  items ≡ₚ replacements → is_ascii s →
  sentence_preprocess items (PyStr s) = inr (ascii_normal_form s) ∧
  sentence_preprocess items (PyUnicode (codes s)) = inr (ascii_normal_form s).
Proof.
  intros Hitems Hs.
  assert (Forall non_ascii_key items) as Hkeys.
  { rewrite Hitems. apply replacements_non_ascii. }
  assert (∀ phrase, encode_utf8 phrase = inr s →
            sentence_preprocess items phrase = inr (ascii_normal_form s)) as H.
  { intros phrase E. unfold sentence_preprocess. rewrite E.
    cbn [mbind result_bind]. rewrite replacements_ascii;
      [|done|by apply is_ascii_rstrip, is_ascii_lstrip].
    unfold mret, result_ret. f_equal. apply utf8_decode_ignore_ascii.
    apply Forall_forall. intros b Hb.
    apply list_elem_of_filter in Hb as [_ Hb].
    apply list_elem_of_fmap in Hb as (b0 & -> & Hb0).
    apply lower_byte_ascii.
    assert (is_ascii (rstrip (lstrip s))) as Hr
      by (by apply is_ascii_rstrip, is_ascii_lstrip).
    by eapply (proj1 (Forall_forall _ _) Hr). }
  split; apply H; simpl.
  - assert (forallb (λ b, b <? 128)%N (codes s) = true) as ->; [|done].
    apply forallb_forall. intros b Hb. apply N.ltb_lt.
    apply list_elem_of_In in Hb. by eapply (proj1 (Forall_forall _ _) Hs).
  - unfold mret, result_ret. f_equal.
    by rewrite utf8_encode_ascii, bytes_codes.
Qed.

Lemma sentence_preprocess_ascii_witness :
  sentence_preprocess (reverse replacements) (PyStr "  Man's Hat. ")
    = inr (codes "mans hat") ∧
  sentence_preprocess (reverse replacements)
    (PyUnicode (codes "  Man's Hat. ")) = inr (codes "mans hat").
Proof.
  apply (sentence_preprocess_ascii (reverse replacements) "  Man's Hat. ").
  - apply reverse_Permutation.
  - unfold is_ascii. repeat constructor.
Defined.

(** ** Vocabulary extraction *)

Lemma occurrences_nonneg t names : 0 ≤ occurrences t names.
Proof. unfold occurrences. lia. Qed.

Lemma occurrences_cons t n names :
  occurrences t (n :: names)
  = (if decide (n = t) then 1 else 0) + occurrences t names.
Proof.
  unfold occurrences. rewrite filter_cons.
  destruct (decide (n = t)); simpl; lia.
Qed.

Lemma occurrences_pos t names : 0 < occurrences t names ↔ t ∈ names.
Proof.
  induction names as [|n names IH].
  { split; [by unfold occurrences; simpl; lia|by intros ?%elem_of_nil]. }
  rewrite occurrences_cons, elem_of_cons.
  pose proof (occurrences_nonneg t names).
  destruct (decide (n = t)) as [->|Hne]; [split; [by left|lia]|].
  rewrite Z.add_0_l, IH. naive_solver.
Qed.

Lemma accepted_cons obj_list n names :
  accepted obj_list (n :: names)
  = if bool_decide (obj_list = []) || bool_decide (n ∈ obj_list)
    then n :: accepted obj_list names else accepted obj_list names.
Proof.
  unfold accepted. rewrite filter_cons.
  destruct (decide (obj_list = [] ∨ n ∈ obj_list)) as [H|H].
  - destruct H as [H|H].
    + by rewrite (bool_decide_eq_true_2 _ H).
    + rewrite (bool_decide_eq_true_2 _ H). by rewrite orb_true_r.
  - rewrite !bool_decide_eq_false_2; [done|tauto..].
Qed.

Lemma count_loop obj_list names (c : gmap string Z) t :
  foldl (count_token obj_list) c names !! t
  = if decide (t ∈ accepted obj_list names)
    then Some (default 0 (c !! t) + occurrences t (accepted obj_list names))
    else c !! t.
Proof.
  revert c. induction names as [|n names IH]; intros c.
  { cbn [foldl]. unfold accepted. rewrite filter_nil.
    by rewrite decide_False by apply not_elem_of_nil. }
  cbn [foldl]. rewrite IH, accepted_cons. unfold count_token.
  destruct (bool_decide (obj_list = []) || bool_decide (n ∈ obj_list)).
  - unfold counter_update. rewrite occurrences_cons.
    destruct (decide (n = t)) as [->|Hne].
    + rewrite lookup_insert_eq. simpl.
      rewrite (decide_True (P := t ∈ t :: _)) by apply list_elem_of_here.
      destruct (decide (t ∈ accepted obj_list names)) as [Hin|Hnin];
        f_equal; [lia|].
      pose proof (occurrences_pos t (accepted obj_list names)) as Hz.
      pose proof (occurrences_nonneg t (accepted obj_list names)).
      assert (¬ 0 < occurrences t (accepted obj_list names)) by tauto. lia.
    + rewrite lookup_insert_ne by done.
      destruct (decide (t ∈ accepted obj_list names)) as [Hin|Hnin].
      * rewrite decide_True by (by apply list_elem_of_further). f_equal; lia.
      * rewrite decide_False; [done|]. by intros [?|?]%elem_of_cons.
  - done.
Qed.

Lemma accepted_app obj_list l1 l2 :
  accepted obj_list (l1 ++ l2) = accepted obj_list l1 ++ accepted obj_list l2.
Proof. unfold accepted. apply filter_app. Qed.

Lemma count_objects obj_list data (c : gmap string Z) :
  foldl (λ c img,
           foldl (λ c region, foldl (count_token obj_list) c (Obj.names region))
             c (objects img)) c data
  = foldl (count_token obj_list) c (all_names data).
Proof.
  unfold all_names. revert c. induction data as [|img data IH]; intros c;
    [done|].
  cbn [foldl]. rewrite IH, fmap_cons. cbn [concat].
  rewrite fmap_app, concat_app, foldl_app. f_equal.
  generalize (objects img). clear. intros objs. revert c.
  induction objs as [|o objs IH]; intros c; [done|].
  cbn [foldl]. rewrite IH, fmap_cons. cbn [concat]. by rewrite foldl_app.
Qed.

Lemma count_predicates pred_list data (c : gmap string Z) (total : Z) :
  fst (foldl (λ st img,
           foldl (λ (st : gmap string Z * Z) relation,
                    (count_token pred_list (fst st) (Rel.predicate relation),
                     snd st + 1))
             st (relationships img)) (c, total) data)
  = foldl (count_token pred_list) c (all_predicates data).
Proof.
  unfold all_predicates. revert c total.
  induction data as [|img data IH]; intros c total; [done|].
  cbn [foldl]. rewrite fmap_cons. cbn [concat]. rewrite fmap_app, foldl_app.
  generalize (relationships img). intros rels. revert c total.
  induction rels as [|r rels IHr]; intros c total.
  { simpl. apply IH. }
  cbn [foldl fst snd]. rewrite fmap_cons. cbn [foldl]. apply IHr.
Qed.

Section collect.
Variable iteritems : gmap string Z → list (string * Z).
Hypothesis iteritems_order : dict_order iteritems.

Lemma collect_loop (l : list (string * Z)) :
  NoDup l.*1 →
  let st := foldl (λ (st : gset string * gmap string Z) (tc : string * Z),
                     ({[fst tc]} ∪ fst st, <[fst tc := snd tc]> (snd st)))
              (∅, ∅) l in
  (∀ t, t ∈ fst st ↔ t ∈ l.*1) ∧
  (∀ t c, snd st !! t = Some c ↔ (t, c) ∈ l).
Proof.
  induction l as [|[t' c'] l IH] using rev_ind; intros Hnd st.
  { subst st. simpl. split; [set_solver|].
    intros t c. rewrite lookup_empty. split; [done|by intros ?%elem_of_nil]. }
  rewrite fmap_app in Hnd. apply NoDup_app in Hnd as (Hnd & Hdisj & _).
  destruct (IH Hnd) as [IH1 IH2]. subst st.
  rewrite foldl_app. cbn [foldl fst snd]. split.
  - intros t. rewrite elem_of_union, elem_of_singleton, IH1, fmap_app,
      elem_of_app. simpl. rewrite list_elem_of_singleton. tauto.
  - intros t c. rewrite elem_of_app, list_elem_of_singleton.
    destruct (decide (t = t')) as [->|Hne].
    + rewrite lookup_insert_eq. split.
      * intros [= ->]. by right.
      * intros [Hin|[= ->]]; [|done]. exfalso. apply (Hdisj t').
        -- apply list_elem_of_fmap. by exists (t', c).
        -- simpl. apply list_elem_of_here.
    + rewrite lookup_insert_ne by done. rewrite IH2. naive_solver.
Qed.

Lemma collect_tokens_counter (token_counter : gmap string Z) :
  collect_tokens iteritems token_counter = (dom token_counter, token_counter).
Proof.
  unfold collect_tokens, most_common.
  assert (merge_sort count_ge (iteritems token_counter)
          ≡ₚ map_to_list token_counter) as Hperm.
  { rewrite merge_sort_Permutation. apply iteritems_order. }
  destruct (collect_loop (merge_sort count_ge (iteritems token_counter))) as [H1 H2].
  { rewrite Hperm. apply NoDup_fst_map_to_list. }
  destruct (foldl _ _ _) as [tokens ret]. simpl in H1, H2. f_equal.
  - apply set_eq. intros t. rewrite H1, elem_of_dom, Hperm.
    rewrite list_elem_of_fmap. split.
    + intros ([t' c] & -> & Hin%elem_of_map_to_list). by eexists.
    + intros [c Hc]. exists (t, c). split; [done|].
      by apply elem_of_map_to_list.
  - apply map_eq. intros t. apply option_eq. intros c.
    by rewrite H2, Hperm, elem_of_map_to_list.
Qed.

(** X14: [extract_object_token] returns as tokens exactly the names that
    occur in the corpus and pass [obj_list] (every name when the list is
    empty); the returned dictionary maps each token to the number of its
    occurrences, which is positive, and has no other key.  This holds in
    whatever order dictionaries are iterated. *)
Theorem extract_object_token_counts data obj_list tokens token_counter :
  extract_object_token iteritems data obj_list = (tokens, token_counter) →
  (∀ t, t ∈ tokens ↔ t ∈ accepted obj_list (all_names data)) ∧
  (∀ t, t ∈ tokens →
        token_counter !! t
        = Some (occurrences t (accepted obj_list (all_names data)))
        ∧ 0 < occurrences t (accepted obj_list (all_names data))) ∧
  (∀ t, t ∉ tokens → token_counter !! t = None).
Proof.
  unfold extract_object_token. rewrite collect_tokens_counter, count_objects.
  intros [= <- <-].
  assert (∀ t, foldl (count_token obj_list) ∅ (all_names data) !! t
               = if decide (t ∈ accepted obj_list (all_names data))
                 then Some (occurrences t (accepted obj_list (all_names data)))
                 else None) as Hl.
  { intros t. rewrite count_loop, lookup_empty. simpl.
    by destruct (decide _). }
  assert (∀ t, t ∈ dom (foldl (count_token obj_list) ∅ (all_names data))
               ↔ t ∈ accepted obj_list (all_names data)) as Hd.
  { intros t. rewrite elem_of_dom, Hl. destruct (decide _) as [H|H].
    - split; [done|by eexists].
    - split; [by intros [? [=]]|done]. }
  split_and!.
  - done.
  - intros t Ht%Hd. rewrite Hl, decide_True by done. split; [done|].
    by apply occurrences_pos.
  - intros t Ht. rewrite Hl, decide_False; [done|]. by rewrite <- Hd.
Qed.

End collect.

Lemma extract_object_token_counts_witness :
  let data := [ObjImage 1 [Obj.mk 1 1 8 8 7 ["cat"; "dog"] None None None;
                           Obj.mk 1 1 8 8 8 ["cat"] None None None] None] in
  (∀ t, t ∈ ({["cat"; "dog"]} : gset string)
        ↔ t ∈ accepted [] (all_names data)) ∧
  (∀ t, t ∈ ({["cat"; "dog"]} : gset string) →
        ({["cat" := 2; "dog" := 1]} : gmap string Z) !! t
        = Some (occurrences t (accepted [] (all_names data)))
        ∧ 0 < occurrences t (accepted [] (all_names data))) ∧
  (∀ t, t ∉ ({["cat"; "dog"]} : gset string) →
        ({["cat" := 2; "dog" := 1]} : gmap string Z) !! t = None).
Proof.
  intros data.
  apply (extract_object_token_counts map_to_list (λ d, reflexivity _) data []).
  by vm_compute.
Defined.

(** X15: [extract_predicate_token] returns as tokens exactly the
    predicates that occur in the corpus and pass [pred_list] (every
    predicate when the list is empty); the returned dictionary maps each
    token to the number of its occurrences, which is positive, and has no
    other key. *)
Theorem extract_predicate_token_counts iteritems data pred_list tokens
    token_counter :
  dict_order iteritems →
  extract_predicate_token iteritems data pred_list = (tokens, token_counter) →
  (∀ t, t ∈ tokens ↔ t ∈ accepted pred_list (all_predicates data)) ∧
  (∀ t, t ∈ tokens →
        token_counter !! t
        = Some (occurrences t (accepted pred_list (all_predicates data)))
        ∧ 0 < occurrences t (accepted pred_list (all_predicates data))) ∧
  (∀ t, t ∉ tokens → token_counter !! t = None).
Proof.
  intros Horder. unfold extract_predicate_token.
  pose proof (count_predicates pred_list data ∅ 0) as Hc.
  destruct (foldl _ (∅, 0) data) as [c total]. simpl in Hc. subst c.
  rewrite collect_tokens_counter by done. intros [= <- <-].
  assert (∀ t, foldl (count_token pred_list) ∅ (all_predicates data) !! t
               = if decide (t ∈ accepted pred_list (all_predicates data))
                 then Some (occurrences t
                              (accepted pred_list (all_predicates data)))
                 else None) as Hl.
  { intros t. rewrite count_loop, lookup_empty. simpl.
    by destruct (decide _). }
  assert (∀ t, t ∈ dom (foldl (count_token pred_list) ∅ (all_predicates data))
               ↔ t ∈ accepted pred_list (all_predicates data)) as Hd.
  { intros t. rewrite elem_of_dom, Hl. destruct (decide _) as [H|H].
    - split; [done|by eexists].
    - split; [by intros [? [=]]|done]. }
  split_and!.
  - done.
  - intros t Ht%Hd. rewrite Hl, decide_True by done. split; [done|].
    by apply occurrences_pos.
  - intros t Ht. rewrite Hl, decide_False; [done|]. by rewrite <- Hd.
Qed.

Lemma extract_object_token_dom iteritems data obj_list tokens token_counter :
  dict_order iteritems →
  extract_object_token iteritems data obj_list = (tokens, token_counter) →
  ∀ t, t ∈ tokens → ∃ c, token_counter !! t = Some c ∧ 0 < c.
Proof.
  intros Horder. unfold extract_object_token.
  rewrite collect_tokens_counter, count_objects by done.
  intros [= <- <-] t Ht. apply elem_of_dom in Ht as [c Hc]. exists c.
  split; [done|]. rewrite count_loop, lookup_empty in Hc.
  destruct (decide _) as [Hin|]; [|done]. injection Hc as <-. simpl.
  by apply occurrences_pos.
Qed.

Lemma build_token_dict_counts iteritems data obj_list tokens token_counter
    vocab_list :
  dict_order iteritems →
  extract_object_token iteritems data obj_list = (tokens, token_counter) →
  vocab_list ≡ₚ elements tokens →
  counts_positive (build_token_dict vocab_list).1 token_counter.
Proof.
  intros Horder Hextract HP t [i Hi].
  eapply extract_object_token_dom; [done..|].
  assert (NoDup (sorted vocab_list)) as ND.
  { rewrite sorted_Permutation, HP. apply NoDup_elements. }
  destruct (token_dict_loop _ ND) as (t2i & i2t & E & H1 & _).
  unfold build_token_dict in Hi. rewrite E in Hi. simpl in Hi.
  apply H1 in Hi as (k & Hk & _). apply list_elem_of_lookup_2 in Hk.
  rewrite sorted_Permutation, HP in Hk. by apply elem_of_elements in Hk.
Qed.

(** X16: the tables that [main] passes to [encode_objects] fit together:
    with the tokens and counts of [extract_object_token] and the index
    table that [build_token_dict] makes of the tokens, every token with an
    index has a positive count, so the label loop of [encode_objects]
    never raises [KeyError] on [token_counter[name]]. *)
Theorem vocabulary_counts_positive iteritems data obj_list tokens
    token_counter vocab_list :
  dict_order iteritems →
  extract_object_token iteritems data obj_list = (tokens, token_counter) →
  vocab_list ≡ₚ elements tokens →
  counts_positive (build_token_dict vocab_list).1 token_counter ∧
  ∀ names, ∃ obj_label,
    pick_label (build_token_dict vocab_list).1 token_counter names
    = inr obj_label.
Proof.
  intros Horder Hextract HP.
  pose proof (build_token_dict_counts _ _ _ _ _ _ Horder Hextract HP) as Hpos.
  split; [done|]. intros names.
  destruct (pick_label_loop _ _ names None 0 Hpos) as (l & m & Hloop & _).
  unfold pick_label. rewrite Hloop. by eexists.
Qed.


Lemma extract_predicate_token_counts_witness :
  let data := [RelImage 1 [Rel.mk 10 12 "on"; Rel.mk 10 11 "under";
                           Rel.mk 11 12 "on"; Rel.mk 12 10 "near"]] in
  (∀ t, t ∈ ({["on"; "near"]} : gset string)
        ↔ t ∈ accepted ["on"; "near"] (all_predicates data)) ∧
  (∀ t, t ∈ ({["on"; "near"]} : gset string) →
        ({["on" := 2; "near" := 1]} : gmap string Z) !! t
        = Some (occurrences t (accepted ["on"; "near"] (all_predicates data)))
        ∧ 0 < occurrences t (accepted ["on"; "near"] (all_predicates data))) ∧
  (∀ t, t ∉ ({["on"; "near"]} : gset string) →
        ({["on" := 2; "near" := 1]} : gmap string Z) !! t = None).
Proof.
  intros data.
  apply (extract_predicate_token_counts map_to_list data ["on"; "near"]).
  - by intros d.
  - by vm_compute.
Defined.

Lemma vocabulary_counts_positive_witness :
  let data := [ObjImage 1 [Obj.mk 1 1 8 8 7 ["cat"; "dog"] None None None;
                           Obj.mk 1 1 8 8 8 ["cat"] None None None] None] in
  counts_positive (build_token_dict ["dog"; "cat"]).1
    {["cat" := 2; "dog" := 1]} ∧
  ∀ names, ∃ obj_label,
    pick_label (build_token_dict ["dog"; "cat"]).1
      {["cat" := 2; "dog" := 1]} names = inr obj_label.
Proof.
  intros data.
  apply (vocabulary_counts_positive map_to_list data [] {["cat"; "dog"]}).
  - by intros d.
  - by vm_compute.
  - apply NoDup_Permutation.
    + repeat constructor; set_solver.
    + apply NoDup_elements.
    + intros t. rewrite elem_of_elements. set_solver.
Defined.

(** ** Split encoder *)

Lemma int32_split_code z : 0 ≤ z ≤ 2 → int32 z = z.
Proof. intros Hz. apply int32_small. lia. Qed.

Lemma encode_splits_loop opt (code : nat → option string → Z) obj_data
    (n : nat) :
  (∀ (i : nat) info, obj_data !! i = Some info →
     split_index opt i info = inr (code i info) ∧ 0 ≤ code i info ≤ 2) →
  (length obj_data ≤ n)%nat →
  for_each
    (λ split (iinfo : nat * option string),
       splitix ← split_index opt (fst iinfo) (snd iinfo);
       mret (<[fst iinfo := int32 splitix]> split))
    (imap pair obj_data) (replicate n 0)
  = inr (imap code obj_data ++ replicate (n - length obj_data) 0).
Proof.
  induction obj_data as [|info obj_data IH] using rev_ind; intros Hcode Hn.
  { simpl. by rewrite Nat.sub_0_r. }
  rewrite length_app in Hn. simpl in Hn.
  rewrite imap_pair_snoc, for_each_snoc, IH; [|intros i info' Hi|lia].
  2:{ apply Hcode. by apply lookup_app_l_Some. }
  cbn [mbind result_bind fst snd].
  destruct (Hcode (length obj_data) info) as [-> Hr].
  { by rewrite list_lookup_middle. }
  cbn [mbind result_bind mret result_ret]. f_equal.
  rewrite int32_split_code by done.
  rewrite imap_app. simpl. rewrite Nat.add_0_r, length_app. simpl.
  replace (n - length obj_data)%nat
    with (S (n - (length obj_data + 1)))%nat by lia.
  cbn [replicate].
  rewrite insert_app_r_alt by (rewrite length_imap; lia).
  rewrite length_imap, Nat.sub_diag. simpl.
  by rewrite <- app_assoc.
Qed.

Lemma encode_splits_portion_run random_shuffle obj_data (o : split_opt) :
  encode_splits random_shuffle obj_data (Some o)
  = inr (if shuffle o
         then random_shuffle (imap (λ i _, portion_code o i) obj_data)
         else imap (λ i _, portion_code o i) obj_data).
Proof.
  unfold encode_splits.
  rewrite (encode_splits_loop (Some o) (λ i _, portion_code o i));
    [|intros i info _|done].
  2:{ unfold split_index, portion_code.
      destruct (Z.of_nat i >=? test_begin_idx o),
        (Z.of_nat i >=? val_begin_idx o); split; try done; lia. }
  rewrite Nat.sub_diag, app_nil_r. cbn [mbind result_bind].
  by destruct (shuffle o).
Qed.

Section encode_splits.
Variable random_shuffle : list Z → list Z.
Hypothesis random_shuffle_perm : ∀ l, random_shuffle l ≡ₚ l.

(** X17: with a portion split [encode_splits] always returns; without
    shuffling, position i gets 2 from [test_begin_idx] on, 1 from
    [val_begin_idx] on and below [test_begin_idx], and 0 otherwise; with
    shuffling the result has the same entries in another order. *)
Theorem encode_splits_portion obj_data (o : split_opt) :
  ∃ split,
    encode_splits random_shuffle obj_data (Some o) = inr split ∧
    split ≡ₚ imap (λ i _, portion_code o i) obj_data ∧
    (shuffle o = false → split = imap (λ i _, portion_code o i) obj_data).
Proof.
  rewrite encode_splits_portion_run.
  destruct (shuffle o); eexists; (split; [reflexivity|]); split; done.
Qed.


(** X19: with [opt=None], [encode_splits] returns when every entry has a
    ['split'], with 1 for ['val'], 2 for ['test'] and 0 for any other value,
    in the order of the entries; and it raises [KeyError] as soon as an
    entry has no ['split']. *)
Theorem encode_splits_input obj_data :
  (Forall is_Some obj_data →
   encode_splits random_shuffle obj_data None
   = inr ((λ info, split_code (default "" info)) <$> obj_data)) ∧
  (¬ Forall is_Some obj_data →
   encode_splits random_shuffle obj_data None = inl KeyError).
Proof.
  unfold encode_splits. split.
  - intros Hall.
    rewrite (encode_splits_loop None (λ _ info, split_code (default "" info)));
      [|intros i info Hi|done].
    2:{ destruct (proj1 (Forall_lookup _ _) Hall i info Hi) as [s ->].
        unfold split_index, split_code. simpl.
        destruct (String.eqb s "test"), (String.eqb s "val"); split; try done;
          lia. }
    rewrite Nat.sub_diag, app_nil_r. cbn [mbind result_bind].
    unfold mret, result_ret. f_equal.
    apply list_eq. intros i. rewrite list_lookup_imap, list_lookup_fmap.
    by destruct (obj_data !! i).
  - intros Hnot. apply not_Forall_Exists in Hnot; [|apply _].
    assert (∀ l (split : list Z) (k : nat),
      Exists (λ info, ¬ is_Some info) l →
      for_each
        (λ split (iinfo : nat * option string),
           splitix ← split_index None (fst iinfo) (snd iinfo);
           mret (<[fst iinfo := int32 splitix]> split))
        (imap (λ i, pair (k + i)%nat) l) split = inl KeyError) as Hgen.
    { clear. intros l. induction l as [|[s|] l IH]; intros split k Hex.
      - by apply Exists_nil in Hex.
      - apply Exists_cons in Hex as [Hex|Hex]; [by destruct Hex; eexists|].
        cbn [imap for_each fst snd split_index getkey mbind result_bind mret
             result_ret].
        rewrite <- (IH (<[(k + 0)%nat := int32
                  (if String.eqb s "test" then 2
                   else if String.eqb s "val" then 1 else 0)]> split)
                  (S k) Hex).
        f_equal. apply imap_ext. intros i x _. simpl. f_equal. lia.
      - done. }
    rewrite (Hgen obj_data _ 0%nat Hnot). done.
Qed.

End encode_splits.

Lemma encode_splits_portion_witness :
  ∃ split,
    encode_splits reverse [Some "a"; None; Some "val"; None] (Some (SplitOpt 2 3 true))
    = inr split ∧
    split ≡ₚ imap (λ i _, portion_code (SplitOpt 2 3 true) i)
               [Some "a"; None; Some "val"; None] ∧
    (shuffle (SplitOpt 2 3 true) = false →
     split = imap (λ i _, portion_code (SplitOpt 2 3 true) i)
               [Some "a"; None; Some "val"; None]).
Proof.
  apply (encode_splits_portion reverse).
  intros l. apply reverse_Permutation.
Defined.


(** ** Object synchronisation *)

Section sync_props.
Context {R : Type}.
Implicit Types (e : entity R) (rel : sync_relation R).

Lemma sync_endpoint_spec ids objs e :
  sync_endpoint ids objs e
  = if bool_decide (ent_object_id e ∈ ids) then inr (objs, e)
    else match ent_name e with
         | Some _ => inr (objs ++ [named e], named e)
         | None => inl KeyError
         end.
Proof.
  unfold sync_endpoint, set_names, named. destruct (bool_decide _); [done|].
  by destruct (ent_name e).
Qed.

Lemma missing_cons ids rel rels :
  missing ids (rel :: rels)
  = filter (λ e, ent_object_id e ∉ ids) [rel_subject rel; rel_object rel]
    ++ missing ids rels.
Proof. unfold missing, endpoints. rewrite fmap_cons. apply filter_app. Qed.

Lemma missing_one ids rel :
  missing ids [rel]
  = (if bool_decide (ent_object_id (rel_subject rel) ∈ ids)
     then [] else [rel_subject rel])
    ++ (if bool_decide (ent_object_id (rel_object rel) ∈ ids)
        then [] else [rel_object rel]).
Proof.
  unfold missing, endpoints. rewrite fmap_cons. cbn [fmap list_fmap concat app].
  rewrite (filter_cons _ (rel_subject rel)), (filter_cons _ (rel_object rel)),
    filter_nil.
  repeat case_decide; repeat case_bool_decide; done.
Qed.

Lemma sync_rel_step ids objs visited rel :
  sync_rel ids (objs, visited) rel
  = if bool_decide
         (Forall (λ e, is_Some (ent_name e)) (missing ids [rel]))
    then inr (objs ++ (named <$> missing ids [rel]),
              visited ++ [synced_rel ids rel])
    else inl KeyError.
Proof.
  unfold sync_rel, synced_rel. rewrite missing_one, sync_endpoint_spec.
  destruct (bool_decide (ent_object_id (rel_subject rel) ∈ ids)).
  - cbn [mbind result_bind app]. rewrite sync_endpoint_spec.
    destruct (bool_decide (ent_object_id (rel_object rel) ∈ ids)).
    + rewrite bool_decide_eq_true_2 by constructor. simpl.
      by rewrite app_nil_r.
    + destruct (ent_name (rel_object rel)) as [no|] eqn:Eo.
      * rewrite bool_decide_eq_true_2; [done|].
        constructor; [by rewrite Eo|constructor].
      * rewrite bool_decide_eq_false_2; [done|].
        intros [[? H] _]%Forall_cons. congruence.
  - destruct (ent_name (rel_subject rel)) as [ns|] eqn:Es.
    + cbn [mbind result_bind app]. rewrite sync_endpoint_spec.
      destruct (bool_decide (ent_object_id (rel_object rel) ∈ ids)).
      * rewrite bool_decide_eq_true_2; [done|].
        constructor; [by rewrite Es|constructor].
      * destruct (ent_name (rel_object rel)) as [no|] eqn:Eo.
        -- rewrite bool_decide_eq_true_2.
           { simpl. by rewrite <- app_assoc. }
           constructor; [by rewrite Es|].
           constructor; [by rewrite Eo|constructor].
        -- rewrite bool_decide_eq_false_2; [done|].
           intros [_ [[? H] _]%Forall_cons]%Forall_cons. congruence.
    + cbn [mbind result_bind].
      rewrite bool_decide_eq_false_2; [done|].
      intros [[? H] _]%Forall_cons. congruence.
Qed.

Lemma sync_rel_loop ids rels objs visited :
  for_each (sync_rel ids) rels (objs, visited)
  = if bool_decide (Forall (λ e, is_Some (ent_name e)) (missing ids rels))
    then inr (objs ++ (named <$> missing ids rels),
              visited ++ (synced_rel ids <$> rels))
    else inl KeyError.
Proof.
  revert objs visited. induction rels as [|rel rels IH]; intros objs visited.
  { cbn [for_each]. rewrite bool_decide_eq_true_2 by constructor.
    simpl. by rewrite !app_nil_r. }
  cbn [for_each]. rewrite sync_rel_step.
  assert (missing ids (rel :: rels) = missing ids [rel] ++ missing ids rels)
    as ->.
  { rewrite !(missing_cons ids rel). unfold missing at 2, endpoints. simpl.
    by rewrite app_nil_r. }
  set (m1 := missing ids [rel]).
  destruct (decide (Forall (λ e, is_Some (ent_name e)) m1)) as [H1|H1].
  - rewrite (bool_decide_eq_true_2 _ H1). cbn [mbind result_bind].
    rewrite IH.
    destruct (decide (Forall (λ e, is_Some (ent_name e)) (missing ids rels)))
      as [H2|H2].
    + rewrite (bool_decide_eq_true_2 _ H2).
      rewrite bool_decide_eq_true_2 by (by apply Forall_app).
      by rewrite fmap_app, fmap_cons, <- !app_assoc.
    + rewrite (bool_decide_eq_false_2 _ H2).
      rewrite bool_decide_eq_false_2; [done|]. by intros [_ ?]%Forall_app.
  - rewrite (bool_decide_eq_false_2 _ H1). cbn [mbind result_bind].
    rewrite bool_decide_eq_false_2; [done|]. by intros [? _]%Forall_app.
Qed.

End sync_props.

Section sync_spec.
Context {R : Type}.
Implicit Types (e : entity R) (rel : sync_relation R).
Implicit Types (oimg : sync_obj_image R) (rimg : sync_rel_image R).

Lemma sync_image_step (done_o : list (sync_obj_image R))
    (done_r : list (sync_rel_image R)) oimg todo_o rimg rel_tail :
  length done_o = length done_r →
  sync_image (done_o ++ oimg :: todo_o, done_r ++ rimg :: rel_tail)
    (length done_o)
  = if bool_decide (sync_ok oimg rimg)
    then inr ((done_o ++ [synced_obj_image oimg rimg]) ++ todo_o,
              (done_r ++ [synced_rel_image oimg rimg]) ++ rel_tail)
    else if bool_decide (so_image_id oimg = sr_image_id rimg)
         then inl KeyError else inl AssertionError.
Proof.
  intros Hlen. unfold sync_image, sync_ok.
  rewrite (getindex_Some _ _ oimg) by (by apply list_lookup_middle).
  rewrite (getindex_Some _ _ rimg) by (by apply list_lookup_middle).
  cbn [mbind result_bind].
  destruct (Z.eqb_spec (so_image_id oimg) (sr_image_id rimg)) as [E|E].
  - rewrite (bool_decide_eq_true_2 _ E). cbn [negb]. rewrite sync_rel_loop.
    destruct (decide (Forall (λ e, is_Some (ent_name e))
                        (missing (ent_object_id <$> so_objects oimg)
                           (sr_relationships rimg)))) as [H|H].
    + rewrite (bool_decide_eq_true_2 _ H).
      rewrite bool_decide_eq_true_2 by done.
      cbn [mbind result_bind mret result_ret app]. f_equal.
      rewrite <- !app_assoc. cbn [app]. f_equal.
      * rewrite (insert_app_r_alt done_o) by lia.
        by rewrite Nat.sub_diag.
      * rewrite Hlen, (insert_app_r_alt done_r) by lia.
        by rewrite Nat.sub_diag.
    + rewrite (bool_decide_eq_false_2 _ H).
      rewrite bool_decide_eq_false_2 by tauto. done.
  - rewrite (bool_decide_eq_false_2 _ E). cbn [negb].
    rewrite bool_decide_eq_false_2 by tauto. done.
Qed.

Lemma sync_image_short (done_o : list (sync_obj_image R))
    (done_r : list (sync_rel_image R)) oimg todo_o :
  length done_o = length done_r →
  sync_image (done_o ++ oimg :: todo_o, done_r) (length done_o)
  = inl IndexError.
Proof.
  intros Hlen. unfold sync_image.
  rewrite (getindex_Some _ _ oimg) by (by apply list_lookup_middle).
  cbn [mbind result_bind]. unfold getindex.
  by rewrite lookup_ge_None_2 by lia.
Qed.

Lemma sync_loop (todo_o : list (sync_obj_image R)) :
  ∀ (done_o : list (sync_obj_image R)) (done_r rel_tail : list (sync_rel_image R))
    od' rd',
  length done_o = length done_r →
  for_each sync_image (seq (length done_o) (length todo_o))
    (done_o ++ todo_o, done_r ++ rel_tail) = inr (od', rd')
  ↔ (length todo_o ≤ length rel_tail)%nat ∧
    Forall2 sync_ok todo_o (take (length todo_o) rel_tail) ∧
    od' = done_o ++ zip_with synced_obj_image todo_o rel_tail ∧
    rd' = done_r ++ zip_with synced_rel_image todo_o rel_tail
          ++ drop (length todo_o) rel_tail.
Proof.
  induction todo_o as [|oimg todo_o IH];
    intros done_o done_r rel_tail od' rd' Hlen.
  { simpl. rewrite !app_nil_r. split.
    - intros [= <- <-]. split_and!; try done; try lia; constructor.
    - by intros (_ & _ & -> & ->). }
  cbn [length seq for_each]. destruct rel_tail as [|rimg rel_tail].
  { rewrite app_nil_r, sync_image_short by done.
    cbn [mbind result_bind]. split; [done|]. simpl. lia. }
  rewrite sync_image_step by done.
  destruct (decide (sync_ok oimg rimg)) as [Hok|Hok].
  - rewrite (bool_decide_eq_true_2 _ Hok). cbn [mbind result_bind].
    replace (S (length done_o)) with (length (done_o ++ [synced_obj_image oimg rimg]))
      by (rewrite length_app; simpl; lia).
    rewrite IH by (rewrite !length_app; simpl; lia).
    cbn [length take zip_with drop]. rewrite <- !app_assoc. cbn [app].
    rewrite Forall2_cons. split.
    + intros (? & ? & -> & ->). split_and!; try done. lia.
    + intros (? & [_ ?] & -> & ->). split_and!; try done. lia.
  - rewrite (bool_decide_eq_false_2 _ Hok). split.
    + by destruct (bool_decide _).
    + cbn [length take]. rewrite Forall2_cons. tauto.
Qed.

(** X20: [sync_objects] returns exactly when there is a relationship
    entry for every image, the two entries of every image carry the same
    id, and every end of a relationship whose id is not among the objects
    of the image has a ['name'].  It then leaves every image with its
    objects followed by the missing ends, each with ['names'] set to its
    name, one entry per occurrence: the id list is computed once, so an
    object that is mentioned twice is appended twice. *)
Theorem sync_objects_spec (obj_data : list (sync_obj_image R))
    (rel_data : list (sync_rel_image R)) od' rd' :
  sync_objects obj_data rel_data = inr (od', rd')
  ↔ (length obj_data ≤ length rel_data)%nat ∧
    Forall2 sync_ok obj_data (take (length obj_data) rel_data) ∧
    od' = zip_with synced_obj_image obj_data rel_data ∧
    rd' = zip_with synced_rel_image obj_data rel_data
          ++ drop (length obj_data) rel_data.
Proof.
  unfold sync_objects.
  apply (sync_loop obj_data [] [] rel_data od' rd' eq_refl).
Qed.

Lemma check_rel_loop ids (rels : list (sync_relation R)) c t :
  Forall (λ e, ent_object_id e ∈ ids) (endpoints rels) →
  foldl (check_rel ids) (c, t) rels
  = (c + Z.of_nat (length rels), t + Z.of_nat (length rels)).
Proof.
  revert c t. induction rels as [|rel rels IH]; intros c t Hall.
  { simpl. f_equal; lia. }
  unfold endpoints in Hall. rewrite fmap_cons in Hall. cbn [concat] in Hall.
  apply Forall_app in Hall as [Hrel Hall].
  apply Forall_cons in Hrel as [Hs Hrel]. apply Forall_cons in Hrel as [Ho _].
  cbn [foldl check_rel]. rewrite !bool_decide_eq_true_2 by done. cbn [andb].
  rewrite IH by done. cbn [length]. f_equal; lia.
Qed.

Lemma check_image_step (od : list (sync_obj_image R))
    (rd : list (sync_rel_image R)) (i : nat) oimg rimg c t :
  od !! i = Some oimg → rd !! i = Some rimg →
  so_image_id oimg = sr_image_id rimg →
  Forall (λ e, ent_object_id e ∈ ent_object_id <$> so_objects oimg)
    (endpoints (sr_relationships rimg)) →
  check_image od rd (c, t) i
  = inr (c + Z.of_nat (length (sr_relationships rimg)),
         t + Z.of_nat (length (sr_relationships rimg))).
Proof.
  intros Ho Hr Hid Hends. unfold check_image.
  rewrite (getindex_Some _ _ _ Ho), (getindex_Some _ _ _ Hr).
  cbn [mbind result_bind]. rewrite Hid, Z.eqb_refl. cbn [negb].
  by rewrite check_rel_loop by done.
Qed.

Lemma check_loop (od : list (sync_obj_image R)) (rd : list (sync_rel_image R))
    (m : nat) :
  ∀ (k : nat) c t,
  (∀ i : nat, (k ≤ i < k + m)%nat →
     ∃ oimg rimg, od !! i = Some oimg ∧ rd !! i = Some rimg ∧
       so_image_id oimg = sr_image_id rimg ∧
       Forall (λ e, ent_object_id e ∈ ent_object_id <$> so_objects oimg)
         (endpoints (sr_relationships rimg))) →
  for_each (check_image od rd) (seq k m) (c, t)
  = inr (c + Z.of_nat (length (concat (sr_relationships
                                         <$> take m (drop k rd)))),
         t + Z.of_nat (length (concat (sr_relationships
                                         <$> take m (drop k rd))))).
Proof.
  induction m as [|m IH]; intros k c t Hall.
  { simpl. unfold mret, result_ret. do 2 f_equal; lia. }
  cbn [seq for_each].
  destruct (Hall k) as (oimg & rimg & Ho & Hr & Hid & Hends); [lia|].
  rewrite (check_image_step od rd k oimg rimg) by done.
  cbn [mbind result_bind].
  rewrite IH by (intros i Hi; apply Hall; lia).
  rewrite (drop_S _ _ _ Hr). cbn [take]. rewrite fmap_cons. cbn [concat].
  rewrite length_app. do 2 f_equal; lia.
Qed.

Lemma synced_endpoints oimg rimg :
  Forall (λ e, ent_object_id e
               ∈ ent_object_id <$> so_objects (synced_obj_image oimg rimg))
    (endpoints (sr_relationships (synced_rel_image oimg rimg))).
Proof.
  unfold synced_obj_image, synced_rel_image. cbn [so_objects sr_relationships].
  set (ids := ent_object_id <$> so_objects oimg).
  generalize (sr_relationships rimg). intros rels.
  rewrite fmap_app.
  assert (∀ e, ent_object_id e ∈ ids ∨ e ∈ endpoints rels →
               ent_object_id e ∈ ids ++ (ent_object_id <$> (named <$> missing ids rels)))
    as Hin.
  { intros e [He|He]; apply elem_of_app; [by left|].
    destruct (decide (ent_object_id e ∈ ids)) as [Hd|Hd]; [by left|right].
    apply list_elem_of_fmap. exists (named e). split; [done|].
    apply list_elem_of_fmap. exists e. split; [done|].
    by apply list_elem_of_filter. }
  assert (∀ rels0, (∀ e, e ∈ endpoints rels0 → e ∈ endpoints rels) →
    Forall (λ e, ent_object_id e
                 ∈ ids ++ (ent_object_id <$> (named <$> missing ids rels)))
      (endpoints (synced_rel ids <$> rels0))) as Hgen.
  { induction rels0 as [|rel rels0 IH]; intros Hsub; [constructor|].
    unfold endpoints. rewrite !fmap_cons. cbn [concat app].
    assert (rel_subject rel ∈ endpoints (rel :: rels0)) as Hs.
    { unfold endpoints. rewrite fmap_cons. cbn [concat app].
      apply list_elem_of_here. }
    assert (rel_object rel ∈ endpoints (rel :: rels0)) as Ho.
    { unfold endpoints. rewrite fmap_cons. cbn [concat app].
      apply list_elem_of_further, list_elem_of_here. }
    constructor; [|constructor].
    - unfold synced_rel. cbn [rel_subject].
      destruct (bool_decide _); [|change (ent_object_id (named ?e))
                                   with (ent_object_id e)];
        apply Hin; right; by apply Hsub.
    - unfold synced_rel. cbn [rel_object].
      destruct (bool_decide _); [|change (ent_object_id (named ?e))
                                   with (ent_object_id e)];
        apply Hin; right; by apply Hsub.
    - apply IH. intros e He. apply Hsub. unfold endpoints.
      rewrite fmap_cons. cbn [concat app].
      by do 2 apply list_elem_of_further. }
  by apply Hgen.
Qed.

Lemma synced_total (obj_data : list (sync_obj_image R))
    (rel_data : list (sync_rel_image R)) :
  length (concat (sr_relationships
                    <$> zip_with synced_rel_image obj_data rel_data))
  = length (concat (sr_relationships <$> take (length obj_data) rel_data)).
Proof.
  revert rel_data.
  induction obj_data as [|oimg obj_data IH]; intros [|rimg rel_data]; try done.
  cbn [zip_with length take]. rewrite !fmap_cons. cbn [concat].
  rewrite !length_app, IH. f_equal.
  unfold synced_rel_image. cbn [sr_relationships]. by rewrite length_fmap.
Qed.

(** X21: after [sync_objects] has returned, [obj_rel_cross_check] on the
    data it left raises no assertion and counts every relationship of the
    images as correct. *)
Theorem sync_objects_cross_check (obj_data : list (sync_obj_image R))
    (rel_data : list (sync_rel_image R)) od' rd' :
  sync_objects obj_data rel_data = inr (od', rd') →
  let total :=
    Z.of_nat (length (concat (sr_relationships
                                <$> take (length obj_data) rel_data))) in
  obj_rel_cross_check od' rd' = inr (total, total).
Proof.
  intros H total. apply sync_objects_spec in H as (Hlen & Hok & -> & ->).
  unfold obj_rel_cross_check.
  assert (length (zip_with synced_obj_image obj_data rel_data)
          = length obj_data) as Hl.
  { rewrite length_zip_with. lia. }
  rewrite Hl, check_loop.
  - rewrite drop_0, take_app_length' by (rewrite length_zip_with; lia).
    rewrite (synced_total obj_data rel_data), !Z.add_0_l. done.
  - intros i [_ Hi]. simpl in Hi.
    destruct (lookup_lt_is_Some_2 obj_data i Hi) as [oimg Ho].
    destruct (lookup_lt_is_Some_2 rel_data i ltac:(lia)) as [rimg Hr].
    exists (synced_obj_image oimg rimg), (synced_rel_image oimg rimg).
    assert (Forall2 sync_ok obj_data (take (length obj_data) rel_data)) as Hok'
      by done.
    split_and!.
    + rewrite lookup_zip_with, Ho. simpl. by rewrite Hr.
    + rewrite lookup_app_l by (rewrite length_zip_with; lia).
      rewrite lookup_zip_with, Ho. simpl. by rewrite Hr.
    + assert (take (length obj_data) rel_data !! i = Some rimg) as Hr'.
      { by rewrite lookup_take_lt. }
      by destruct (Forall2_lookup_lr _ _ _ _ _ _ Hok' Ho Hr') as [? _].
    + apply synced_endpoints.
Qed.

(** X22: when no end of a relationship has a ['name'], as in the data
    that [create_from_xml] builds, [sync_objects] can only return when
    every end is among the objects of its image already, and it then
    leaves both arguments as they were; otherwise it raises. *)
Theorem sync_objects_bare (obj_data : list (sync_obj_image R))
    (rel_data : list (sync_rel_image R)) od' rd' :
  Forall (λ rimg, Forall (λ e, ent_name e = None)
                    (endpoints (sr_relationships rimg))) rel_data →
  sync_objects obj_data rel_data = inr (od', rd') →
  od' = obj_data ∧ rd' = rel_data ∧
  Forall2 (λ oimg rimg,
             Forall (λ e, ent_object_id e ∈ ent_object_id <$> so_objects oimg)
               (endpoints (sr_relationships rimg)))
    obj_data (take (length obj_data) rel_data).
Proof.
  intros Hbare H. apply sync_objects_spec in H as (Hlen & Hok & -> & ->).
  assert (Forall2 (λ oimg rimg,
            missing (ent_object_id <$> so_objects oimg) (sr_relationships rimg)
            = []) obj_data (take (length obj_data) rel_data)) as Hnone.
  { apply Forall2_same_length_lookup_2; [by eapply Forall2_length|].
    intros i oimg rimg Ho Hr.
    destruct (Forall2_lookup_lr _ _ _ _ _ _ Hok Ho Hr) as [_ Hnames].
    assert (Forall (λ e, ent_name e = None)
              (endpoints (sr_relationships rimg))) as Hb.
    { eapply (proj1 (Forall_forall _ _) Hbare).
      apply list_elem_of_lookup_2 in Hr.
      apply elem_of_take in Hr as (j & Hj & _).
      by eapply list_elem_of_lookup_2. }
    destruct (missing _ _) as [|e m] eqn:Em; [done|].
    apply Forall_cons in Hnames as [[n Hn] _].
    assert (e ∈ endpoints (sr_relationships rimg)) as He.
    { assert (e ∈ e :: m) as He by apply list_elem_of_here.
      rewrite <- Em in He. unfold missing in He.
      by apply list_elem_of_filter in He as [_ He]. }
    apply (proj1 (Forall_forall _ _) Hb) in He. congruence. }
  assert (∀ ids (rels : list (sync_relation R)),
            missing ids rels = [] →
            Forall (λ e, ent_object_id e ∈ ids) (endpoints rels)) as Hall.
  { intros ids rels Hm. apply Forall_forall. intros e He.
    destruct (decide (ent_object_id e ∈ ids)) as [|Hn]; [done|].
    assert (e ∈ missing ids rels) as Hin by (by apply list_elem_of_filter).
    rewrite Hm in Hin. by apply elem_of_nil in Hin. }
  assert (∀ ids (rels : list (sync_relation R)),
            Forall (λ e, ent_object_id e ∈ ids) (endpoints rels) →
            synced_rel ids <$> rels = rels) as Hid.
  { intros ids rels. induction rels as [|[s o] rels IH]; [done|].
    unfold endpoints. rewrite fmap_cons. cbn [concat app rel_subject rel_object].
    intros [Hs [Ho Hrest]%Forall_cons]%Forall_cons.
    rewrite fmap_cons, IH by done. f_equal. unfold synced_rel.
    cbn [rel_subject rel_object]. by rewrite !bool_decide_eq_true_2 by done. }
  split_and!.
  - clear Hok Hbare. revert rel_data Hlen Hnone.
    induction obj_data as [|[oid objs] obj_data IH];
      intros [|rimg rel_data] Hlen Hnone; try done;
      try (simpl in Hlen; lia).
    cbn [length take zip_with] in *. apply Forall2_cons in Hnone as [Hm Hrest].
    rewrite IH by (done || lia). f_equal.
    unfold synced_obj_image. cbn [so_image_id so_objects] in *.
    by rewrite Hm, app_nil_r.
  - clear Hok Hbare. revert rel_data Hlen Hnone.
    induction obj_data as [|oimg obj_data IH];
      intros [|rimg rel_data] Hlen Hnone; try done;
      try (simpl in Hlen; lia).
    cbn [length take zip_with drop app] in *.
    apply Forall2_cons in Hnone as [Hm Hrest].
    rewrite IH by (done || lia). f_equal.
    unfold synced_rel_image. destruct rimg as [rid rels].
    cbn [sr_image_id sr_relationships] in *. f_equal. by apply Hid, Hall.
  - eapply Forall2_impl; [exact Hnone|]. intros oimg rimg Hm. by apply Hall.
Qed.

End sync_spec.

Lemma sync_objects_cross_check_witness :
  let obj_data := [SyncObjImage 1 [Entity 10 None (Some ["cat"]) tt]] in
  let rel_data :=
    [SyncRelImage 1 [SyncRelation (Entity 10 (Some "cat") None tt)
                       (Entity 11 (Some "hat") None tt)]] in
  ∃ od' rd',
    sync_objects obj_data rel_data = inr (od', rd') ∧
    obj_rel_cross_check od' rd' = inr (1, 1).
Proof.
  intros obj_data rel_data.
  destruct (sync_objects obj_data rel_data) as [e|[od' rd']] eqn:E;
    [by vm_compute in E|].
  exists od', rd'. split; [done|].
  exact (sync_objects_cross_check obj_data rel_data od' rd' E).
Defined.

Lemma sync_objects_bare_witness :
  let obj_data :=
    [SyncObjImage 1 [Entity 10 None (Some ["cat"]) tt;
                     Entity 11 None (Some ["hat"]) tt]] in
  let rel_data :=
    [SyncRelImage 1 [SyncRelation (Entity 10 None None tt)
                       (Entity 11 None None tt)]] in
  ∃ od' rd',
    sync_objects obj_data rel_data = inr (od', rd') ∧
    od' = obj_data ∧ rd' = rel_data ∧
    Forall2 (λ oimg rimg,
               Forall (λ e, ent_object_id e
                            ∈ ent_object_id <$> so_objects oimg)
                 (endpoints (sr_relationships rimg)))
      obj_data (take (length obj_data) rel_data).
Proof.
  intros obj_data rel_data.
  destruct (sync_objects obj_data rel_data) as [e|[od' rd']] eqn:E;
    [by vm_compute in E|].
  exists od', rd'. split; [done|].
  apply (sync_objects_bare obj_data rel_data od' rd'); [|exact E].
  repeat constructor.
Defined.

(** ** Box filter and index filter *)

Lemma num_objects_snoc data img :
  num_objects (data ++ [img]) = num_objects data + Z.of_nat (length (objects img)).
Proof.
  unfold num_objects. rewrite fmap_app, concat_app, length_app. simpl.
  rewrite app_nil_r. lia.
Qed.

Section box_filter_props.
Variable fl : Q → Q.
Variable times : Z → Z → Z.
Variables heights widths : list Z.
Variable area_frac_thresh : Q.

#[local] Abbreviation filtered :=
  (filtered_image fl times heights widths area_frac_thresh).

Lemma keep_box_cases area o :
  keep_box fl area area_frac_thresh o = inl OverflowError
  ∨ (has_float (Obj.h o * Obj.w o)
     ∧ keep_box fl area area_frac_thresh o
       = inr (passes fl area area_frac_thresh o)).
Proof.
  unfold keep_box. destruct (decide (has_float (Obj.h o * Obj.w o))) as [H|H].
  - right. split; [done|]. by rewrite to_float_has_float.
  - left. by rewrite to_float_overflow.
Qed.

(** The loop over the objects of an image: when it returns, it has
    appended the objects that pass, in their order. *)
Lemma filter_objects_loop_inv area objs acc l :
  for_each (λ filtered_obj o,
              keep ← keep_box fl area area_frac_thresh o;
              mret (if keep : bool then filtered_obj ++ [o] else filtered_obj))
    objs acc = inr l →
  l = acc ++ filter (λ o, passes fl area area_frac_thresh o = true) objs.
Proof.
  revert acc. induction objs as [|o objs IH]; intros acc; cbn [for_each].
  { intros [= <-]. by rewrite app_nil_r. }
  destruct (keep_box_cases area o) as [->|[_ ->]]; [done|].
  cbn [mbind result_bind mret result_ret]. intros H. apply IH in H as ->.
  rewrite filter_cons. destruct (passes fl area area_frac_thresh o) eqn:E.
  - rewrite decide_True by done. by rewrite <- app_assoc.
  - by rewrite decide_False by done.
Qed.

Lemma filter_objects_loop area objs acc :
  Forall (λ o, has_float (Obj.h o * Obj.w o)) objs →
  ∃ l, for_each (λ filtered_obj o,
                   keep ← keep_box fl area area_frac_thresh o;
                   mret (if keep : bool then filtered_obj ++ [o]
                         else filtered_obj))
         objs acc = inr l.
Proof.
  intros Hobjs. revert acc.
  induction Hobjs as [|o objs Ho _ IH]; intros acc; cbn [for_each].
  { by eexists. }
  destruct (keep_box_cases area o) as [E|[_ ->]].
  { unfold keep_box in E. by rewrite to_float_has_float in E. }
  cbn [mbind result_bind mret result_ret]. apply IH.
Qed.

Lemma filter_objects_inv area objs l :
  filter_objects fl area area_frac_thresh objs = inr l →
  l = filter (λ o, passes fl area area_frac_thresh o = true) objs.
Proof. intros H. by apply filter_objects_loop_inv in H. Qed.

Lemma filter_objects_run area objs :
  Forall (λ o, has_float (Obj.h o * Obj.w o)) objs →
  filter_objects fl area area_frac_thresh objs
  = inr (filter (λ o, passes fl area area_frac_thresh o = true) objs).
Proof.
  intros Hobjs. destruct (filter_objects_loop area objs [] Hobjs) as [l Hl].
  unfold filter_objects. rewrite Hl. f_equal. by apply filter_objects_inv.
Qed.

(** One image: when the step returns, the two arrays have an entry for the
    image and the image is replaced by its filtered form. *)
Lemma filter_image_inv data1 img0 data2 c a img st' :
  filter_image fl times heights widths area_frac_thresh
    (data1 ++ img0 :: data2, c, a) (length data1, img) = inr st' →
  (length data1 < length heights)%nat ∧ (length data1 < length widths)%nat ∧
  st' = ((data1 ++ [filtered (length data1) img]) ++ data2,
         c + Z.of_nat (length (objects (filtered (length data1) img))),
         a + Z.of_nat (length (objects img))).
Proof.
  unfold filter_image, filtered_image, getindex.
  destruct (heights !! length data1) as [h|] eqn:Hh; [|done].
  cbn [mbind result_bind mret result_ret].
  destruct (widths !! length data1) as [w|] eqn:Hw; [|done].
  cbn [mbind result_bind mret result_ret default id].
  destruct (to_float_cases fl (times h w)) as [->| ->]; [done|].
  cbn [mbind result_bind].
  destruct (filter_objects fl _ area_frac_thresh (objects img))
    as [e|l] eqn:El; [done|].
  apply filter_objects_inv in El as ->.
  cbn [mbind result_bind mret result_ret objects]. intros [= <-].
  split; [by eapply lookup_lt_Some|]. split; [by eapply lookup_lt_Some|].
  tuple_eq; try done.
  rewrite insert_app_r_alt by lia. rewrite Nat.sub_diag. cbn [insert list_insert].
  by rewrite <- app_assoc.
Qed.

Lemma filter_image_step data1 img0 data2 c a img :
  (length data1 < length heights)%nat → (length data1 < length widths)%nat →
  (∀ h w, h ∈ heights → w ∈ widths → has_float (times h w)) →
  Forall (λ o, has_float (Obj.h o * Obj.w o)) (objects img) →
  filter_image fl times heights widths area_frac_thresh
    (data1 ++ img0 :: data2, c, a) (length data1, img)
  = inr ((data1 ++ [filtered (length data1) img]) ++ data2,
         c + Z.of_nat (length (objects (filtered (length data1) img))),
         a + Z.of_nat (length (objects img))).
Proof.
  intros Hh Hw Harea Hobjs.
  destruct (filter_image fl times heights widths area_frac_thresh
              (data1 ++ img0 :: data2, c, a) (length data1, img))
    as [e|st'] eqn:E.
  2:{ apply filter_image_inv in E as (_ & _ & ->). done. }
  exfalso. revert E. unfold filter_image.
  destruct (lookup_lt_is_Some_2 heights (length data1) Hh) as [h Hhi].
  destruct (lookup_lt_is_Some_2 widths (length data1) Hw) as [w Hwi].
  rewrite (getindex_Some _ _ _ Hhi), (getindex_Some _ _ _ Hwi).
  cbn [mbind result_bind mret result_ret].
  rewrite to_float_has_float
    by (apply Harea; by eapply list_elem_of_lookup_2).
  cbn [mbind result_bind mret result_ret]. by rewrite filter_objects_run.
Qed.

Lemma filter_image_short data0 c a (i : nat) img :
  ¬ ((i < length heights)%nat ∧ (i < length widths)%nat) →
  filter_image fl times heights widths area_frac_thresh (data0, c, a) (i, img)
  = inl IndexError.
Proof.
  intros Hnot. unfold filter_image, getindex.
  destruct (heights !! i) as [h|] eqn:Hh; [|done]. cbn [mbind result_bind].
  destruct (widths !! i) as [w|] eqn:Hw; [|done].
  apply lookup_lt_Some in Hh, Hw. tauto.
Qed.

(** The loop over the images, when it returns. *)
Lemma filter_object_boxes_loop_inv data data2 c a st' :
  for_each (filter_image fl times heights widths area_frac_thresh)
    (imap pair data) (data ++ data2, c, a) = inr st' →
  (length data ≤ length heights)%nat ∧ (length data ≤ length widths)%nat ∧
  st' = (imap filtered data ++ data2,
         c + num_objects (imap filtered data), a + num_objects data).
Proof.
  revert data2 st'. induction data as [|img data IH] using rev_ind;
    intros data2 st'.
  { simpl. unfold mret, result_ret, num_objects. simpl. intros [= <-].
    split_and!; [lia..|]. tuple_eq; try done; lia. }
  rewrite imap_pair_snoc, for_each_snoc, <- app_assoc. cbn [app].
  destruct (for_each _ (imap pair data) _) as [e|s1] eqn:E1; [done|].
  apply IH in E1 as (Hh & Hw & ->). cbn [mbind result_bind].
  rewrite <- (length_imap filtered data). intros E.
  apply filter_image_inv in E as (Hh' & Hw' & ->).
  rewrite length_imap in *. rewrite length_app. cbn [length].
  split_and!; [lia..|].
  rewrite imap_app. cbn [imap]. rewrite Nat.add_0_r.
  rewrite !num_objects_snoc. tuple_eq; try done; lia.
Qed.

Lemma filter_object_boxes_loop data data2 c a :
  (length data ≤ length heights)%nat → (length data ≤ length widths)%nat →
  (∀ h w, h ∈ heights → w ∈ widths → has_float (times h w)) →
  Forall (λ img, Forall (λ o, has_float (Obj.h o * Obj.w o)) (objects img))
    data →
  for_each (filter_image fl times heights widths area_frac_thresh)
    (imap pair data) (data ++ data2, c, a)
  = inr (imap filtered data ++ data2,
         c + num_objects (imap filtered data), a + num_objects data).
Proof.
  intros Hh Hw Harea. revert data2 Hh Hw.
  induction data as [|img data IH] using rev_ind; intros data2 Hh Hw Hdata.
  { simpl. unfold mret, result_ret, num_objects. simpl. tuple_eq; try done; lia. }
  rewrite length_app in Hh, Hw. simpl in Hh, Hw.
  apply Forall_app in Hdata as [Hdata Himg].
  rewrite Forall_singleton in Himg.
  rewrite imap_pair_snoc, for_each_snoc, <- app_assoc, IH by (done || lia).
  cbn [mbind result_bind app].
  rewrite <- (length_imap filtered data).
  rewrite filter_image_step;
    [|rewrite length_imap; lia|rewrite length_imap; lia|done|done].
  rewrite length_imap, imap_app. cbn [imap]. rewrite Nat.add_0_r.
  rewrite !num_objects_snoc. tuple_eq; try done; lia.
Qed.

Lemma filter_object_boxes_inv data data' c a :
  filter_object_boxes fl times data heights widths area_frac_thresh
  = inr (data', c, a) →
  (length data ≤ length heights)%nat ∧ (length data ≤ length widths)%nat ∧
  data' = imap filtered data.
Proof.
  unfold filter_object_boxes. intros H.
  pose proof (filter_object_boxes_loop_inv data [] 0 0 (data', c, a)) as Hinv.
  rewrite !app_nil_r in Hinv. apply Hinv in H as (Hh & Hw & [= -> _ _]).
  done.
Qed.

Lemma filter_object_boxes_run data :
  (∀ h w, h ∈ heights → w ∈ widths → has_float (times h w)) →
  Forall (λ img, Forall (λ o, has_float (Obj.h o * Obj.w o)) (objects img))
    data →
  ((length data ≤ length heights)%nat ∧ (length data ≤ length widths)%nat →
   filter_object_boxes fl times data heights widths area_frac_thresh
   = inr (imap filtered data, num_objects (imap filtered data),
          num_objects data)) ∧
  (¬ ((length data ≤ length heights)%nat ∧ (length data ≤ length widths)%nat) →
   filter_object_boxes fl times data heights widths area_frac_thresh
   = inl IndexError).
Proof.
  intros Harea Hdata. unfold filter_object_boxes. split.
  - intros [Hh Hw].
    pose proof (filter_object_boxes_loop data [] 0 0 Hh Hw Harea Hdata) as H.
    rewrite !app_nil_r in H. by rewrite H.
  - intros Hnot.
    set (m := (length heights `min` length widths)%nat).
    assert (m < length data)%nat as Hm by lia.
    rewrite <- (take_drop m data) at 1 2.
    rewrite imap_app, for_each_app.
    rewrite filter_object_boxes_loop
      by (done || (by apply Forall_take) || (rewrite length_take; lia)).
    cbn [mbind result_bind].
    destruct (drop m data) as [|img rest] eqn:Ed.
    { apply (f_equal length) in Ed. rewrite length_drop in Ed. simpl in Ed.
      lia. }
    cbn [imap for_each]. rewrite filter_image_short; [done|].
    rewrite length_take. lia.
Qed.

Lemma num_objects_filtered data :
  num_objects (imap filtered data) ≤ num_objects data.
Proof.
  induction data as [|img data IH] using rev_ind; [done|].
  rewrite imap_app. cbn [imap]. rewrite !num_objects_snoc.
  unfold filtered_image at 2. cbn [objects].
  pose proof (length_filter (λ o, passes fl
     (float fl (times (default 0 (heights !! (length data + 0)%nat))
                  (default 0 (widths !! (length data + 0)%nat))))
     area_frac_thresh o = true) (objects img)). lia.
Qed.

(** X23: when the area of every box and the product of every height and
    width have a float, that is, a magnitude below 2^1024 - 2^970,
    [filter_object_boxes] returns when the two arrays have an entry for
    every image, and raises [IndexError] otherwise.  It keeps the order
    and the ids of the images, keeps of every image the objects that pass
    the area test, in their order, and the two numbers it prints are the
    number of objects kept and the number of objects seen. *)
Theorem filter_object_boxes_spec data :
  Forall (λ img, Forall (λ o, has_float (Obj.h o * Obj.w o)) (objects img))
    data →
  (∀ h w, h ∈ heights → w ∈ widths → has_float (times h w)) →
  ((length data ≤ length heights)%nat ∧ (length data ≤ length widths)%nat →
   ∃ data' thresh_count,
     filter_object_boxes fl times data heights widths area_frac_thresh
     = inr (data', thresh_count, num_objects data) ∧
     data' = imap filtered data ∧
     thresh_count = num_objects data' ∧ thresh_count ≤ num_objects data ∧
     Forall2 (λ img img',
                image_id img' = image_id img ∧
                id_to_idx img' = id_to_idx img ∧
                objects img' `sublist_of` objects img) data data') ∧
  (¬ ((length data ≤ length heights)%nat ∧ (length data ≤ length widths)%nat) →
   filter_object_boxes fl times data heights widths area_frac_thresh
   = inl IndexError).
Proof.
  intros Hdata Harea.
  destruct (filter_object_boxes_run data Harea Hdata) as [Hret Hfail].
  split; [|done].
  intros Hlen. eexists _, _. split; [by apply Hret|].
  split_and!; try done; [apply num_objects_filtered|].
  apply Forall2_same_length_lookup_2; [by rewrite length_imap|].
  intros i img img' Hi Hi'. rewrite list_lookup_imap, Hi in Hi'.
  injection Hi' as <-. split_and!; try done. apply sublist_filter.
Qed.

(** A box whose area has no float stops the filter: [float] raises
    [OverflowError] at line 411. *)
Lemma filter_object_boxes_overflow_error :
  filter_object_boxes no_rounding Z.mul
    [ObjImage 1 [Obj.mk 1 1 (2 ^ 512) (2 ^ 512) 7 ["sky"] None None None] None]
    [300] [400] (2 # 1000)
  = inl OverflowError.
Proof. vm_compute. reflexivity. Qed.

End box_filter_props.

Section box_filter_float.
Variable fl : Q → Q.
Hypothesis fl_model : float_model fl.
Variable times : Z → Z → Z.

Lemma passes_positive area thresh o :
  (0 <= area)%Q → (0 <= thresh)%Q → Z.abs (Obj.h o * Obj.w o) ≤ 2 ^ 53 →
  passes fl area thresh o = true → 0 < Obj.h o * Obj.w o.
Proof.
  intros Ha Ht Hb. unfold passes, gt_product.
  assert (0 <= area * thresh)%Q as Hbound by by apply Qmult_le_0_compat.
  destruct (overflows (area * thresh)) eqn:Hover.
  { intros Hk. apply Qle_bool_iff in Hk. exfalso.
    unfold overflows in Hover. apply Qle_bool_iff in Hover.
    rewrite (Qabs_pos _ Hbound) in Hover.
    assert (0 < inject_Z float_limit)%Q as Hpos
      by (change 0%Q with (inject_Z 0); rewrite <- Zlt_Qlt;
          pose proof float_limit_large; lia).
    apply (Qlt_irrefl 0).
    eapply Qlt_le_trans; [exact Hpos|]. by eapply Qle_trans. }
  unfold Qgtb, float. rewrite negb_true_iff. intros Hk.
  destruct (Z_lt_le_dec 0 (Obj.h o * Obj.w o)) as [|Hle]; [done|]. exfalso.
  assert (Qle_bool (fl (inject_Z (Obj.h o * Obj.w o))) (fl (area * thresh))
          = true) as Hc; [|congruence].
  apply Qle_bool_iff.
  rewrite (fl_int fl fl_model _ Hb).
  apply Qle_trans with 0%Q.
  - change 0%Q with (inject_Z 0). by rewrite <- Zle_Qle.
  - by apply (fl_nonneg fl fl_model).
Qed.

(** X24: with a non-negative threshold and non-negative image areas,
    every object that [filter_object_boxes] keeps has h * w > 0: a box of
    zero width or height never passes (products up to 2^53 assumed, which
    binary64 holds exactly). *)
Theorem filter_object_boxes_no_degenerate data heights widths thresh data' c a :
  (0 <= thresh)%Q →
  (∀ h w, h ∈ heights → w ∈ widths → 0 ≤ times h w) →
  Forall (λ img, Forall (λ o, Z.abs (Obj.h o * Obj.w o) ≤ 2 ^ 53)
                   (objects img)) data →
  filter_object_boxes fl times data heights widths thresh = inr (data', c, a) →
  Forall (λ img, Forall (λ o, 0 < Obj.h o * Obj.w o) (objects img)) data'.
Proof.
  intros Ht Harea Hbound H.
  apply filter_object_boxes_inv in H as (Hlh & Hlw & ->).
  apply Forall_lookup_2. intros i img' Hi. rewrite list_lookup_imap in Hi.
  destruct (data !! i) as [img|] eqn:Himg; [|done]. injection Hi as <-.
  unfold filtered_image. cbn [objects].
  apply Forall_forall. intros o Ho. apply list_elem_of_filter in Ho as [Hk Ho].
  pose proof (lookup_lt_Some _ _ _ Himg) as Hlt.
  destruct (lookup_lt_is_Some_2 heights i ltac:(lia)) as [h Hh].
  destruct (lookup_lt_is_Some_2 widths i ltac:(lia)) as [w Hw].
  rewrite Hh, Hw in Hk. simpl in Hk.
  apply (passes_positive (float fl (times h w)) thresh o); [|done| |done].
  - unfold float. apply (fl_nonneg fl fl_model).
    change 0%Q with (inject_Z 0). rewrite <- Zle_Qle.
    apply Harea; by eapply list_elem_of_lookup_2.
  - assert (Forall (λ o, Z.abs (Obj.h o * Obj.w o) ≤ 2 ^ 53) (objects img))
      as Himgb.
    { eapply (proj1 (Forall_lookup _ _) Hbound). exact Himg. }
    by apply (proj1 (Forall_forall _ _) Himgb).
Qed.

End box_filter_float.

Section filter_by_idx.
Context {A : Type}.

Lemma py_index_range (data : list A) (i : Z) :
  - Z.of_nat (length data) ≤ i < Z.of_nat (length data) →
  ∃ x, py_index data i = inr x
       ∧ data !! Z.to_nat (i mod Z.of_nat (length data)) = Some x.
Proof.
  intros Hi. unfold py_index.
  destruct (Z.leb_spec 0 i) as [H0|H0].
  - destruct (Z.ltb_spec i (Z.of_nat (length data))) as [H1|H1]; [|lia].
    cbn [andb]. rewrite Z.mod_small by lia.
    destruct (lookup_lt_is_Some_2 data (Z.to_nat i)) as [x Hx]; [lia|].
    exists x. by rewrite (getindex_Some _ _ _ Hx).
  - cbn [andb].
    destruct (Z.leb_spec (- Z.of_nat (length data)) i) as [H1|H1]; [|lia].
    destruct (Z.ltb_spec i 0) as [H2|H2]; [|lia]. cbn [andb].
    assert (i mod Z.of_nat (length data) = Z.of_nat (length data) + i) as ->.
    { symmetry. apply (Z.mod_unique _ _ (-1)); lia. }
    destruct (lookup_lt_is_Some_2 data (Z.to_nat (Z.of_nat (length data) + i)))
      as [x Hx]; [lia|].
    exists x. by rewrite (getindex_Some _ _ _ Hx).
Qed.

Lemma py_index_out (data : list A) (i : Z) :
  ¬ (- Z.of_nat (length data) ≤ i < Z.of_nat (length data)) →
  py_index data i = inl IndexError.
Proof.
  intros Hi. unfold py_index.
  destruct (Z.leb_spec 0 i), (Z.ltb_spec i (Z.of_nat (length data)));
    cbn [andb]; try lia;
    destruct (Z.leb_spec (- Z.of_nat (length data)) i), (Z.ltb_spec i 0);
    cbn [andb]; try lia; done.
Qed.

Lemma filter_by_idx_loop (data : list A) valid_list out0 :
  Forall (λ i, - Z.of_nat (length data) ≤ i < Z.of_nat (length data))
    valid_list →
  ∃ out,
    for_each (λ out i, x ← py_index data i; mret (out ++ [x])) valid_list out0
    = inr (out0 ++ out) ∧
    Forall2 (λ i x, data !! Z.to_nat (i mod Z.of_nat (length data)) = Some x)
      valid_list out.
Proof.
  intros Hall. revert out0.
  induction Hall as [|i valid_list Hi _ IH]; intros out0.
  { exists []. by rewrite app_nil_r. }
  cbn [for_each]. destruct (py_index_range data i Hi) as (x & -> & Hx).
  cbn [mbind result_bind mret result_ret].
  destruct (IH (out0 ++ [x])) as (out & -> & Hout).
  exists (x :: out). rewrite <- app_assoc. split; [done|by constructor].
Qed.

(** X25: [filter_by_idx] returns when every index lies in
    [-len(data), len(data)), giving for index i the entry at position
    i mod len(data), one per index and in the order of the indices; it
    raises [IndexError] otherwise; and on the indices 0 .. len(data)-1 it
    returns [data] itself. *)
Theorem filter_by_idx_spec (data : list A) (valid_list : list Z) :
  (Forall (λ i, - Z.of_nat (length data) ≤ i < Z.of_nat (length data))
     valid_list →
   ∃ out, filter_by_idx data valid_list = inr out ∧
     Forall2 (λ i x, data !! Z.to_nat (i mod Z.of_nat (length data)) = Some x)
       valid_list out) ∧
  (¬ Forall (λ i, - Z.of_nat (length data) ≤ i < Z.of_nat (length data))
       valid_list →
   filter_by_idx data valid_list = inl IndexError) ∧
  filter_by_idx data (seqZ 0 (Z.of_nat (length data))) = inr data.
Proof.
  unfold filter_by_idx. split_and!.
  - intros Hall. destruct (filter_by_idx_loop data valid_list [] Hall)
      as (out & -> & Hout). by exists out.
  - intros Hnot. apply not_Forall_Exists in Hnot; [|apply _].
    assert (∀ out0 : list A,
              for_each (λ out i, x ← py_index data i; mret (out ++ [x]))
                valid_list out0 = inl IndexError) as Hgen; [|apply Hgen].
    induction Hnot as [i l Hi|i l Hex IH]; intros out0; cbn [for_each].
    + by rewrite py_index_out.
    + destruct (py_index data i) as [e|x] eqn:E; cbn [mbind result_bind].
      * destruct (decide (- Z.of_nat (length data) ≤ i
                          < Z.of_nat (length data))) as [Hr|Hr].
        -- destruct (py_index_range data i Hr) as (? & ? & _). congruence.
        -- rewrite py_index_out in E by done. congruence.
      * apply IH.
  - destruct (filter_by_idx_loop data (seqZ 0 (Z.of_nat (length data))) [])
      as (out & -> & Hout).
    { apply Forall_forall. intros i Hi%elem_of_seqZ. lia. }
    cbn [app]. f_equal. apply list_eq. intros k.
    destruct (decide (k < length data)%nat) as [Hk|Hk].
    + destruct (lookup_lt_is_Some_2 out k) as [x Hx].
      { apply Forall2_length in Hout. rewrite length_seqZ in Hout. lia. }
      destruct (Forall2_lookup_r _ _ _ _ _ Hout Hx) as (i & Hi & Hd).
      apply lookup_seqZ in Hi as [-> _].
      rewrite Z.add_0_l, Z.mod_small, Nat2Z.id in Hd by lia. congruence.
    + apply Forall2_length in Hout. rewrite length_seqZ in Hout.
      rewrite !lookup_ge_None_2 by lia. done.
Qed.

End filter_by_idx.

Lemma filter_object_boxes_spec_witness :
  let data := [ObjImage 1 [Obj.mk 30 40 50 20 7 ["cat"] None None None;
                           Obj.mk 10 10 0 20 8 ["hat"] None None None;
                           Obj.mk 10 10 1 1 9 ["dot"] None None None] None;
               ObjImage 2 [Obj.mk 5 5 200 100 3 ["sky"] None None None] None] in
  ∃ data' thresh_count,
    filter_object_boxes no_rounding Z.mul data [300; 200] [400; 100] (2 # 1000)
    = inr (data', thresh_count, num_objects data) ∧
    data' = imap (filtered_image no_rounding Z.mul [300; 200] [400; 100]
                    (2 # 1000)) data ∧
    thresh_count = num_objects data' ∧ thresh_count ≤ num_objects data ∧
    Forall2 (λ img img',
               image_id img' = image_id img ∧
               id_to_idx img' = id_to_idx img ∧
               objects img' `sublist_of` objects img) data data'.
Proof.
  intros data.
  apply (filter_object_boxes_spec no_rounding Z.mul [300; 200] [400; 100]
           (2 # 1000) data).
  - repeat constructor; unfold has_float; vm_compute; reflexivity.
  - intros h w Hh Hw. unfold has_float.
    apply elem_of_cons in Hh as [->|Hh];
      [|apply list_elem_of_singleton in Hh as ->];
      (apply elem_of_cons in Hw as [->|Hw];
       [|apply list_elem_of_singleton in Hw as ->]);
      vm_compute; reflexivity.
  - simpl. lia.
Defined.

Lemma filter_object_boxes_no_degenerate_witness :
  let data := [ObjImage 1 [Obj.mk 30 40 50 20 7 ["cat"] None None None;
                           Obj.mk 10 10 0 20 8 ["hat"] None None None;
                           Obj.mk 10 10 1 1 9 ["dot"] None None None] None] in
  ∃ data' thresh_count all_count,
    filter_object_boxes no_rounding Z.mul data [300] [400] (2 # 1000)
    = inr (data', thresh_count, all_count) ∧
    Forall (λ img, Forall (λ o, 0 < Obj.h o * Obj.w o) (objects img)) data'.
Proof.
  intros data.
  destruct (filter_object_boxes no_rounding Z.mul data [300] [400] (2 # 1000))
    as [e|[[data' c] a]] eqn:E; [by vm_compute in E|].
  exists data', c, a. split; [done|].
  apply (filter_object_boxes_no_degenerate no_rounding no_rounding_model Z.mul
           data [300] [400] (2 # 1000) data' c a); [done| | |exact E].
  - intros h w ->%list_elem_of_singleton ->%list_elem_of_singleton. lia.
  - repeat constructor; simpl; lia.
Defined.

(** ** The stages of [main] fit together *)

Lemma for_each_no_lookup_error {S A} (P : S → Prop) (body : S → A → result S)
    l s :
  P s →
  (∀ s a, a ∈ l → P s → no_lookup_error P (body s a)) →
  no_lookup_error P (for_each body l s).
Proof.
  revert s. induction l as [|a l IH]; intros s Hs Hbody; cbn [for_each]; [done|].
  pose proof (Hbody s a (list_elem_of_here _ _) Hs) as Ha.
  destruct (body s a) as [e|s']; cbn; [done|].
  apply IH; [done|]. intros s2 b Hb. apply Hbody. by apply list_elem_of_further.
Qed.

Lemma encode_box_no_lookup_error fl region org_h org_w size :
  no_lookup_error (λ _, True) (encode_box fl region org_h org_w size).
Proof.
  unfold encode_box, encode_box_clamped.
  destruct (scale_box_cases fl region org_h org_w size)
    as [->|[->|[[[[x y] w] h] ->]]]; cbn; [by intros [[=]|[=]]..|].
  destruct (negb _); [by intros [[=]|[=]]|].
  destruct (negb _); [by intros [[=]|[=]]|done].
Qed.

Lemma merge_duplicate_boxes_has_ids fl data data' num_merged :
  Forall (λ img, Forall fresh (objects img)) data →
  merge_duplicate_boxes fl data = inr (data', num_merged) →
  Forall (λ img, Forall (λ o, is_Some (Obj.ids o)) (objects img)) data'.
Proof.
  unfold merge_duplicate_boxes.
  generalize (<[1:=0]> (<[2:=0]> (<[3:=0]> (∅ : gmap Z Z)))).
  intros nm Hdata.
  assert (Forall (λ img : obj_image,
                    Forall (λ o, is_Some (Obj.ids o)) (objects img)) [])
    as Hdone by constructor.
  revert Hdone. generalize (@nil obj_image). revert nm.
  induction Hdata as [|img data Himg _ IH]; intros nm done Hdone.
  { by intros [= <- <-]. }
  cbn [for_each].
  change (merge_duplicate_boxes_step fl (done, nm) img)
    with (merge_image fl nm (objects img)
          ≫= λ '(filtered_objs, num_merged'),
               mret (done ++ [ObjImage (image_id img) filtered_objs
                                (id_to_idx img)], num_merged')).
  destruct (merge_image_survivors fl nm (objects img) Himg) as [_ Hsurv].
  destruct (merge_image fl nm (objects img)) as [e|[filtered nm1]] eqn:E;
    cbn [mbind result_bind mret result_ret]; [done|].
  destruct (Hsurv filtered nm1 eq_refl) as (S & _ & _ & ->).
  apply IH. apply Forall_app. split; [done|].
  constructor; [|constructor]. cbn [objects]. apply survivor_has_ids.
Qed.

Section lookups.
Variable fl : Q → Q.
Variables token_to_idx token_counter : gmap string Z.
Variables org_h org_w : list Z.
Variable im_long_sizes : list Z.
Hypothesis counts : counts_positive token_to_idx token_counter.

(** Every size has its list of boxes. *)
#[local] Abbreviation has_sizes := (λ boxes : gmap Z (list (vec4 Z)),
  ∀ size, size ∈ im_long_sizes → is_Some (boxes !! size)).

Lemma append_box_keys o (i : nat) sizes (boxes : gmap Z (list (vec4 Z))) :
  (i < length org_h)%nat → (i < length org_w)%nat →
  sizes ⊆ im_long_sizes →
  has_sizes boxes →
  no_lookup_error has_sizes (for_each (append_box fl o org_h org_w i) sizes boxes).
Proof.
  intros Hh Hw Hsub Hb.
  apply (for_each_no_lookup_error has_sizes); [done|].
  intros b size Hsize Hkeys. unfold append_box, getitem, getindex.
  destruct (Hkeys size (Hsub _ Hsize)) as [l ->]. cbn.
  destruct (lookup_lt_is_Some_2 org_h i Hh) as [oh ->].
  destruct (lookup_lt_is_Some_2 org_w i Hw) as [ow ->]. cbn.
  pose proof (encode_box_no_lookup_error fl o oh ow size) as Hbox.
  destruct (encode_box fl o oh ow size) as [e|bx]; cbn; [done|].
  intros s Hs. destruct (decide (s = size)) as [->|Hne].
  - rewrite lookup_insert_eq. by eexists.
  - rewrite lookup_insert_ne by done. by apply Hkeys.
Qed.

Lemma encode_object_keys (i : nat) labels boxes table c o :
  (i < length org_h)%nat → (i < length org_w)%nat →
  is_Some (Obj.ids o) →
  has_sizes boxes →
  no_lookup_error (λ st, has_sizes st.1.1.2)
    (encode_object fl token_to_idx token_counter org_h org_w i im_long_sizes
       (labels, boxes, table, c) o).
Proof.
  intros Hh Hw [ids Hids] Hb. unfold encode_object, pick_label.
  destruct (pick_label_loop token_to_idx token_counter (Obj.names o) None 0
              counts) as (l & m & -> & _ & Hl).
  cbn. destruct Hl as [[-> _]|(k & name & _ & [idx Hidx] & _ & -> & _)].
  { done. }
  pose proof (append_box_keys o i im_long_sizes boxes Hh Hw
                (λ _ H, H) Hb) as Hboxes.
  destruct (for_each _ im_long_sizes boxes) as [e|boxes']; cbn; [done|].
  unfold getitem. rewrite Hidx, Hids. cbn. done.
Qed.

Lemma encode_objects_image_keys st (i : nat) img :
  (i < length org_h)%nat → (i < length org_w)%nat →
  (i < length (im_to_first_obj st))%nat →
  Forall (λ o, is_Some (Obj.ids o)) (objects img) →
  has_sizes (encoded_boxes st) →
  no_lookup_error
    (λ st', has_sizes (encoded_boxes st')
            ∧ length (im_to_first_obj st') = length (im_to_first_obj st))
    (encode_objects_image fl token_to_idx token_counter org_h org_w
       im_long_sizes st (i, img)).
Proof.
  intros Hh Hw Hf Hids Hb. unfold encode_objects_image.
  pose proof (for_each_no_lookup_error (λ st, has_sizes st.1.1.2)
    (encode_object fl token_to_idx token_counter org_h org_w i im_long_sizes)
    (objects img) (encoded_labels st, encoded_boxes st, ∅, obj_counter st) Hb)
    as Hloop.
  lapply Hloop.
  2:{ intros [[[labels boxes] table] c] o Ho Hs.
      apply encode_object_keys; try done.
      rewrite Forall_forall in Hids. by apply Hids. }
  clear Hloop. intros Hloop.
  destruct (for_each _ (objects img) _) as [e|[[[labels boxes] table] c]];
    cbn; [done|].
  unfold getindex. rewrite list_lookup_insert_eq by done. cbn.
  destruct (_ =? c); cbn; (split; [done|]); by rewrite ?length_insert.
Qed.

Lemma encode_objects_keys obj_data :
  (length obj_data ≤ length org_h)%nat →
  (length obj_data ≤ length org_w)%nat →
  Forall (λ img, Forall (λ o, is_Some (Obj.ids o)) (objects img)) obj_data →
  no_lookup_error (λ _, True)
    (encode_objects fl obj_data token_to_idx token_counter org_h org_w
       im_long_sizes).
Proof.
  intros Hh Hw Hids. unfold encode_objects.
  set (n := length obj_data).
  pose proof (for_each_no_lookup_error
    (λ st, has_sizes (encoded_boxes st) ∧ length (im_to_first_obj st) = n)
    (encode_objects_image fl token_to_idx token_counter org_h org_w
       im_long_sizes)
    (imap pair obj_data)
    (ObjEnc [] (foldl (λ b size, <[size := []]> b) ∅ im_long_sizes)
       (replicate n 0) (replicate n 0) 0 obj_data)) as Hloop.
  lapply Hloop.
  2:{ cbn. split; [|by rewrite length_replicate].
      intros size Hsize. rewrite boxes0_lookup, decide_True by done.
      by eexists. }
  clear Hloop. intros Hloop. lapply Hloop.
  2:{ intros st [i img] Hin [Hb Hlen].
      apply list_elem_of_lookup_1 in Hin as [k Hk].
      rewrite list_lookup_imap in Hk.
      destruct (obj_data !! k) as [img0|] eqn:Ek; [|done].
      injection Hk as <- <-.
      pose proof (lookup_lt_Some _ _ _ Ek) as Hlt.
      pose proof (encode_objects_image_keys st k img0) as Himg.
      lapply Himg; [clear Himg; intros Himg|unfold n in *; lia].
      lapply Himg; [clear Himg; intros Himg|unfold n in *; lia].
      lapply Himg; [clear Himg; intros Himg|unfold n in *; lia].
      lapply Himg; [clear Himg; intros Himg|].
      2:{ rewrite Forall_forall in Hids. apply Hids.
          by eapply list_elem_of_lookup_2. }
      specialize (Himg Hb).
      destruct (encode_objects_image _ _ _ _ _ _ _ _) as [e|st']; cbn in *;
        [done|]. destruct Himg as [? ?]. split; [done|congruence]. }
  clear Hloop. intros Hloop.
  destruct (for_each _ (imap pair obj_data) _) as [e|st]; cbn; [done|].
  pose proof (for_each_no_lookup_error (λ _ : unit, True)
    (λ (_ : unit) (kb : Z * list (vec4 Z)), vstack kb.2 ≫= λ _, mret ())
    (map_to_list (encoded_boxes st)) () I) as Hv.
  lapply Hv.
  2:{ intros [] [k b] _ _. cbn. destruct b; cbn; [by intros [[=]|[=]]|done]. }
  clear Hv. intros Hv.
  destruct (for_each _ (map_to_list (encoded_boxes st)) ()) as [e|[]]; cbn;
    [done|].
  destruct (encoded_labels st); cbn; [by intros [[=]|[=]]|done].
Qed.

End lookups.

(** X26: the stages of [main] hand over what [encode_objects] looks up.
    On the objects that [merge_duplicate_boxes] has left, with the counts of
    [extract_object_token] on these objects, the index table that
    [build_token_dict] makes of its tokens, and a height and a width for
    every image, [encode_objects] raises neither [KeyError] nor
    [IndexError]: every object has its ['ids'], every name with an index
    has a count, every size has its list of boxes. *)
Theorem encode_objects_after_merge fl iteritems data obj_data num_merged
    obj_list tokens token_counter vocab_list org_h org_w im_long_sizes :
  dict_order iteritems →
  Forall (λ img, Forall fresh (objects img)) data →
  merge_duplicate_boxes fl data = inr (obj_data, num_merged) →
  extract_object_token iteritems obj_data obj_list = (tokens, token_counter) →
  vocab_list ≡ₚ elements tokens →
  (length obj_data ≤ length org_h)%nat →
  (length obj_data ≤ length org_w)%nat →
  encode_objects fl obj_data (build_token_dict vocab_list).1 token_counter
    org_h org_w im_long_sizes ≠ inl KeyError ∧
  encode_objects fl obj_data (build_token_dict vocab_list).1 token_counter
    org_h org_w im_long_sizes ≠ inl IndexError.
Proof.
  intros Horder Hfresh Hmerge Hextract HP Hh Hw.
  pose proof (build_token_dict_counts _ _ _ _ _ _ Horder Hextract HP) as Hpos.
  pose proof (merge_duplicate_boxes_has_ids _ _ _ _ Hfresh Hmerge) as Hids.
  pose proof (encode_objects_keys fl _ _ org_h org_w im_long_sizes Hpos
                obj_data Hh Hw Hids) as Hkeys.
  destruct (encode_objects _ _ _ _ _ _ _) as [e|st]; [|done].
  cbn in Hkeys. split; intros [= ->]; apply Hkeys; [by left|by right].
Qed.

Lemma encode_objects_after_merge_witness :
  let data := [ObjImage 1 [Obj.mk 10 10 50 50 7 ["cat"] None None None;
                           Obj.mk 10 10 50 50 8 ["cat"; "kitten"] None None None;
                           Obj.mk 200 200 30 40 9 ["dog"] None None None] None;
               ObjImage 2 [] None] in
  ∃ obj_data num_merged tokens token_counter,
    merge_duplicate_boxes no_rounding data = inr (obj_data, num_merged) ∧
    extract_object_token map_to_list obj_data [] = (tokens, token_counter) ∧
    encode_objects no_rounding obj_data
      (build_token_dict (elements tokens)).1 token_counter
      [300; 300] [400; 400] [512; 1024] ≠ inl KeyError ∧
    encode_objects no_rounding obj_data
      (build_token_dict (elements tokens)).1 token_counter
      [300; 300] [400; 400] [512; 1024] ≠ inl IndexError.
Proof.
  intros data.
  destruct (merge_duplicate_boxes no_rounding data) as [e|[obj_data nm]] eqn:E;
    [by vm_compute in E|].
  assert (length obj_data = 2%nat) as Hlen.
  { vm_compute in E. by injection E as <- <-. }
  destruct (extract_object_token map_to_list obj_data []) as [tokens tc] eqn:T.
  exists obj_data, nm, tokens, tc. split; [done|]. split; [done|].
  apply (encode_objects_after_merge no_rounding map_to_list data obj_data nm []
           tokens tc (elements tokens));
    [by intros d|repeat constructor|exact E|exact T|done|simpl; lia|simpl; lia].
Defined.
